(** * Cactus tree: collapse overrides, easing and gesture handlers

    A shallow embedding of [src/lib/collapseAnimation.js] and of the
    mouse / touch handlers of the CactusTree component
    (unnamed/part_001, the component's [mouseHandlers.js]), followed by
    [src/lib/canvasUtils.js] and [src/lib/drawLink.js].

    Numbers.  JavaScript numbers are IEEE-754 doubles.  They are modelled
    here by exact rationals [Q]: [+], [-], [*], [/] and the comparisons are
    the field operations of [Q], equality of numbers is [Qeq].  Rounding,
    NaN and the infinities are outside the model, with two exceptions.
    The coordinates of an event, the coordinates handed to a hit test and
    the number that the click handlers compare with the threshold 25 are
    computed with the rounding of every operation, a parameter [fl] of
    the handlers: what is proved of them holds for every rounding.  Pan
    and zoom are computed exactly.  And where a claim turns on a rounded
    result or on the quotient by zero, module [Doubles] evaluates the
    expressions of the source in binary64 itself. *)

From Stdlib Require Import QArith Qminmax Lqa Lia DecimalString.
From Stdlib Require PrimFloat FloatOps SpecFloat.
From stdpp Require Import gmap strings list relations.

Local Open Scope Q_scope.

(** ** JavaScript number comparisons, as booleans *)

Definition Qltb (a b : Q) : bool := negb (Qle_bool b a).
Definition Qleb (a b : Q) : bool := Qle_bool a b.

(** [Math.pow(b, n)] for an integer exponent *)
Definition Math_pow (b : Q) (n : Z) : Q := b ^ n.

(** ** Rounding to the nearest double *)

(** The integer nearest to [n / d], the even one of two equally near;
    for [0 <= n] and [0 < d]. *)
Definition roundHalfEven (n d : Z) : Z :=
  let q := (n / d)%Z in
  match (2 * (n mod d) ?= d)%Z with
  | Lt => q
  | Gt => (q + 1)%Z
  | Eq => if Z.even q then q else (q + 1)%Z
  end.

(** Numerator and denominator of [|q| / 2 ^ p]. *)
Definition scaled (q : Q) (p : Z) : Z * Z :=
  let n := Z.abs (Qnum q) in
  let d := Z.pos (Qden q) in
  if (0 <=? p)%Z then (n, (d * 2 ^ p)%Z) else ((n * 2 ^ (- p))%Z, d).

(** The binary64 number nearest to [q], ties to even (IEEE 754
    [roundTiesToEven]): a multiple of [2 ^ p], where [p] is 52 below the
    binary exponent [e] of [q], and -1074 at least, the spacing of the
    subnormal numbers.  Results beyond the largest double, where the
    doubles have an infinity, are left as they are. *)
Definition roundToDouble (q : Q) : Q :=
  let n := Z.abs (Qnum q) in
  let d := Z.pos (Qden q) in
  if (n =? 0)%Z then 0 else
  let e0 := (Z.log2 n - Z.log2 d)%Z in
  let '(n0, d0) := scaled q e0 in
  let e := if (n0 <? d0)%Z then (e0 - 1)%Z else e0 in
  let p := Z.max (e - 52) (-1074) in
  let '(n1, d1) := scaled q p in
  let m := roundHalfEven n1 d1 in
  let r :=
    if (0 <=? p)%Z then inject_Z (m * 2 ^ p)
    else Qred (Qmake m (Z.to_pos (2 ^ (- p)))) in
  if (Qnum q <? 0)%Z then - r else r.

(** ** collapseAnimation.js *)

Module CollapseAnimation.

(** [t < 0.5 ? 4 * t * t * t : 1 - Math.pow(-2 * t + 2, 3) / 2], over the
    rationals: the values are exact where the source's are rounded
    ([Doubles.easeInOutCubic]). *)
Definition easeInOutCubic (t : Q) : Q :=
  if Qltb t (1 # 2) then 4 * t * t * t
  else 1 - Math_pow (-2 * t + 2) 3 / 2.

(** An entry of a children array: [{ id, node: { id } }], where the
    [node] wrapper may be absent. *)
Record NodeRef := mkNodeRef { ref_id : string }.
Record Child := mkChild { id : string; node : option NodeRef }.

(** [child.node ? child.node.id : child.id] *)
Definition childId (child : Child) : string :=
  match node child with
  | Some n => ref_id n
  | None => id child
  end.

(** A rendered node as far as this module reads it: [{ x, y }]. *)
Record Position := mkPosition { x : Q; y : Q }.

(** The body of the [for (const child of children)] loop: both arrays get
    the child id pushed at their end.  The stack is kept with its top at
    the head of the list, so [stack.push] conses. *)
Fixpoint pushChildren (children : list Child)
    (descendants stack : list string) : list string * list string :=
  match children with
  | [] => (descendants, stack)
  | child :: rest =>
      let childId := childId child in
      pushChildren rest (descendants ++ [childId]) (childId :: stack)
  end.

(** The [while (stack.length > 0)] loop.  The loop need not terminate on
    a cyclic map, so its iterations are counted by [fuel]; [None] means
    the fuel ran out before the stack was empty. *)
Fixpoint getDescendantIds_loop (fuel : nat)
    (parentToChildrenNodeMap : gmap string (list Child))
    (descendants stack : list string) : option (list string) :=
  match stack with
  | [] => Some descendants
  | currentId :: stack' =>
      match fuel with
      | O => None
      | S fuel' =>
          match parentToChildrenNodeMap !! currentId with
          | None => getDescendantIds_loop fuel' parentToChildrenNodeMap descendants stack'
          | Some children =>
              let '(descendants', stack'') := pushChildren children descendants stack' in
              getDescendantIds_loop fuel' parentToChildrenNodeMap descendants' stack''
          end
      end
  end.

Definition getDescendantIds (fuel : nat) (nodeId : string)
    (parentToChildrenNodeMap : gmap string (list Child)) : option (list string) :=
  getDescendantIds_loop fuel parentToChildrenNodeMap [] [nodeId].

(** [for (const id of descendantIds) overrides.set(id, { x: anchorNode.x, y: anchorNode.y })] *)
Definition setOverrides (anchorNode : Position) (descendantIds : list string)
    (overrides : gmap string Position) : gmap string Position :=
  foldl (fun ov id => <[id := mkPosition (x anchorNode) (y anchorNode)]> ov)
        overrides descendantIds.

(** The [for (const collapsedId of collapsedNodeIds)] loop.  A JavaScript
    [Set] iterates in insertion order, so the set is the list of its
    elements in that order. *)
Fixpoint computeCollapsedPositions_loop (fuel : nat)
    (collapsedNodeIds : list string)
    (parentToChildrenNodeMap : gmap string (list Child))
    (nodeIdToRenderedNodeMap : gmap string Position)
    (overrides : gmap string Position) : option (gmap string Position) :=
  match collapsedNodeIds with
  | [] => Some overrides
  | collapsedId :: rest =>
      match nodeIdToRenderedNodeMap !! collapsedId with
      | None =>
          computeCollapsedPositions_loop fuel rest parentToChildrenNodeMap
            nodeIdToRenderedNodeMap overrides
      | Some anchorNode =>
          match getDescendantIds fuel collapsedId parentToChildrenNodeMap with
          | None => None
          | Some descendantIds =>
              computeCollapsedPositions_loop fuel rest parentToChildrenNodeMap
                nodeIdToRenderedNodeMap (setOverrides anchorNode descendantIds overrides)
          end
      end
  end.

(** The [Map] returned is modelled by what it holds, the override of
    every id that has one: what [get], [has] and [size] return.  The
    order in which a [Map] lists its entries, that of their first
    insertion, is not modelled. *)
Definition computeCollapsedPositions (fuel : nat)
    (collapsedNodeIds : list string)
    (parentToChildrenNodeMap : gmap string (list Child))
    (nodeIdToRenderedNodeMap : gmap string Position) : option (gmap string Position) :=
  computeCollapsedPositions_loop fuel collapsedNodeIds parentToChildrenNodeMap
    nodeIdToRenderedNodeMap ∅.

(** The parent-to-child edges of a map, and what it means for the map to
    be acyclic: no node reaches itself along one or more edges. *)
Definition edge (m : gmap string (list Child)) (p c : string) : Prop :=
  ∃ children child, m !! p = Some children ∧ child ∈ children ∧ c = childId child.

Definition acyclic (m : gmap string (list Child)) : Prop :=
  ∀ n, ¬ tc (edge m) n n.

(** The entry [k] on top of the stack unwinds: after finitely many
    iterations the loop is back at the rest of the stack, with the ids
    found below [k] appended. *)
Definition unwinds (m : gmap string (list Child)) (k : string) : Prop :=
  ∀ d s, ∃ n r, ∀ f,
    getDescendantIds_loop (n + f) m d (k :: s) = getDescendantIds_loop f m (d ++ r) s.

(** All child ids stored in the map: every id reached along an edge is
    among them. *)
Definition allChildIds (m : gmap string (list Child)) : list string :=
  concat (map (λ kv, map childId kv.2) (map_to_list m)).

(** The object [{ x: anchorNode.x, y: anchorNode.y }]. *)
Definition anchorOf (a : Position) : Position := mkPosition (x a) (y a).

(** The ids pushed when [p] is popped: those of its children array, or
    none when the map has no entry for [p]. *)
Definition childIdsOf (m : gmap string (list Child)) (p : string) : list string :=
  match m !! p with
  | Some children => map childId children
  | None => []
  end.

(** What holds, in the traversal from [nodeId], between the ids popped so
    far, the ids found so far and the stack. *)
Definition traversalInvariant (m : gmap string (list Child)) (nodeId : string)
    (popped d s : list string) : Prop :=
  d ≡ₚ concat (map (childIdsOf m) popped) ∧
  popped ++ s ≡ₚ nodeId :: d ∧
  NoDup (nodeId :: d) ∧
  (∀ k, k ∈ d → tc (edge m) nodeId k) ∧
  (∀ p, p ∈ s → p = nodeId ∨ tc (edge m) nodeId p).

(** Some collapsed node in [ids], rendered at [a], lies above [k]. *)
Definition coveredBy (m : gmap string (list Child)) (rmap : gmap string Position)
    (ids : list string) (k : string) (a : Position) : Prop :=
  ∃ c, c ∈ ids ∧ rmap !! c = Some a ∧ tc (edge m) c k.

End CollapseAnimation.

(** The tree of the repository's tests: root -> [a, b], a -> [c, d], b -> [e]. *)
Module TestTree.
Import CollapseAnimation.

Definition wrapped (s : string) : Child := mkChild s (Some (mkNodeRef s)).

Definition parentToChildrenNodeMap : gmap string (list Child) :=
  <["root" := [wrapped "a"; wrapped "b"]]>
  (<["a" := [wrapped "c"; wrapped "d"]]>
  (<["b" := [wrapped "e"]]> ∅)).

Definition nodeIdToRenderedNodeMap : gmap string Position :=
  <["root" := mkPosition 100 100]>
  (<["a" := mkPosition 200 200]>
  (<["b" := mkPosition 300 100]>
  (<["c" := mkPosition 250 300]>
  (<["d" := mkPosition 150 300]> ∅)))).

(** Height of a node in that tree. *)
Definition rank (k : string) : nat :=
  if decide (k = "root"%string) then 2
  else if decide (k = "a"%string) then 1
  else if decide (k = "b"%string) then 1
  else 0.

End TestTree.

(** ** mouseHandlers.js (unnamed/part_001) *)

Module MouseHandlers.

(** [canvas.getBoundingClientRect()], as far as the handlers read it. *)
Record Canvas := mkCanvas { left : Q; top : Q }.

(** A [MouseEvent] or a [Touch]: both carry [clientX] and [clientY]. *)
Record Pointer := mkPointer { clientX : Q; clientY : Q }.

Record WheelEvent := mkWheelEvent { wheelAt : Pointer; deltaY : Q }.

(** [event.changedTouches] may be absent; [event.touches] is a list. *)
Record TouchEvent := mkTouchEvent {
  event_touches : list Pointer;
  changedTouches : option (list Pointer)
}.

(** A rendered node and a leaf entry of the proximity index.  The
    handlers read only the length of [renderedNodes] and pass both on to
    the hit tests. *)
Record RenderedNode := mkRenderedNode {
  node_x : Q; node_y : Q; node_radius : Q; node_id : string
}.

Record LeafEntry := mkLeafEntry {
  leaf_x : Q; leaf_y : Q; leaf_radius : Q; leaf_nodeId : string
}.

Record VoronoiData := mkVoronoiData { leafEntries : list LeafEntry }.

(** What the file imports: [findHoveredNode] from [./drawNode.js],
    [findHoveredLeafByVoronoi] from [./voronoiHover.js], and the built-in
    [Math.sqrt], which has no rational counterpart.  The handlers are
    written against these interfaces. *)
Class DrawNode := {
  findHoveredNode : Q → Q → list RenderedNode → option string
}.

Class VoronoiHover := {
  findHoveredLeafByVoronoi : Q → Q → VoronoiData → Q → option string
}.

Class MathSqrt := { Math_sqrt : Q → Q }.

(** An arithmetic operation on doubles gives the exact result rounded
    to a double; [fl] is that rounding.  It appears where the last bit
    of a number decides which node is hit or whether a release is a
    click: in the coordinates of an event, in the coordinates handed to a
    hit test, and in the squared displacement that mouse-up and
    touch-end compare with 25.  The handlers are written against it;
    [roundToDouble] is the rounding of the doubles. *)
Class Rounding := { fl : Q → Q }.

Record State := mkState {
  canvas : option Canvas;
  isDragging : bool;
  pannable : bool;
  zoomable : bool;
  panX : Q;
  panY : Q;
  currentZoom : Q;
  minZoomLimit : Q;
  maxZoomLimit : Q;
  lastMouseX : Q;
  lastMouseY : Q;
  _mouseDownX : option Q;
  _mouseDownY : option Q;
  _touchStartX : option Q;
  _touchStartY : option Q;
  touches : list Pointer;
  lastTouchDistance : Q;
  renderedNodes : list RenderedNode;
  voronoiData : option VoronoiData;
  leafHoverTolerance : option Q;
  hoveredNodeId : option string;
  onNodeClick : bool
}.

Definition set_isDragging (v : bool) (s : State) : State :=
  mkState (canvas s) v (pannable s) (zoomable s) (panX s) (panY s)
    (currentZoom s) (minZoomLimit s) (maxZoomLimit s) (lastMouseX s)
    (lastMouseY s) (_mouseDownX s) (_mouseDownY s) (_touchStartX s)
    (_touchStartY s) (touches s) (lastTouchDistance s) (renderedNodes s)
    (voronoiData s) (leafHoverTolerance s) (hoveredNodeId s) (onNodeClick s).

Definition set_panX (v : Q) (s : State) : State :=
  mkState (canvas s) (isDragging s) (pannable s) (zoomable s) v (panY s)
    (currentZoom s) (minZoomLimit s) (maxZoomLimit s) (lastMouseX s)
    (lastMouseY s) (_mouseDownX s) (_mouseDownY s) (_touchStartX s)
    (_touchStartY s) (touches s) (lastTouchDistance s) (renderedNodes s)
    (voronoiData s) (leafHoverTolerance s) (hoveredNodeId s) (onNodeClick s).

Definition set_panY (v : Q) (s : State) : State :=
  mkState (canvas s) (isDragging s) (pannable s) (zoomable s) (panX s) v
    (currentZoom s) (minZoomLimit s) (maxZoomLimit s) (lastMouseX s)
    (lastMouseY s) (_mouseDownX s) (_mouseDownY s) (_touchStartX s)
    (_touchStartY s) (touches s) (lastTouchDistance s) (renderedNodes s)
    (voronoiData s) (leafHoverTolerance s) (hoveredNodeId s) (onNodeClick s).

Definition set_currentZoom (v : Q) (s : State) : State :=
  mkState (canvas s) (isDragging s) (pannable s) (zoomable s) (panX s)
    (panY s) v (minZoomLimit s) (maxZoomLimit s) (lastMouseX s) (lastMouseY s)
    (_mouseDownX s) (_mouseDownY s) (_touchStartX s) (_touchStartY s)
    (touches s) (lastTouchDistance s) (renderedNodes s) (voronoiData s)
    (leafHoverTolerance s) (hoveredNodeId s) (onNodeClick s).

Definition set_lastMouseX (v : Q) (s : State) : State :=
  mkState (canvas s) (isDragging s) (pannable s) (zoomable s) (panX s)
    (panY s) (currentZoom s) (minZoomLimit s) (maxZoomLimit s) v
    (lastMouseY s) (_mouseDownX s) (_mouseDownY s) (_touchStartX s)
    (_touchStartY s) (touches s) (lastTouchDistance s) (renderedNodes s)
    (voronoiData s) (leafHoverTolerance s) (hoveredNodeId s) (onNodeClick s).

Definition set_lastMouseY (v : Q) (s : State) : State :=
  mkState (canvas s) (isDragging s) (pannable s) (zoomable s) (panX s)
    (panY s) (currentZoom s) (minZoomLimit s) (maxZoomLimit s) (lastMouseX s)
    v (_mouseDownX s) (_mouseDownY s) (_touchStartX s) (_touchStartY s)
    (touches s) (lastTouchDistance s) (renderedNodes s) (voronoiData s)
    (leafHoverTolerance s) (hoveredNodeId s) (onNodeClick s).

Definition set__mouseDownX (v : option Q) (s : State) : State :=
  mkState (canvas s) (isDragging s) (pannable s) (zoomable s) (panX s)
    (panY s) (currentZoom s) (minZoomLimit s) (maxZoomLimit s) (lastMouseX s)
    (lastMouseY s) v (_mouseDownY s) (_touchStartX s) (_touchStartY s)
    (touches s) (lastTouchDistance s) (renderedNodes s) (voronoiData s)
    (leafHoverTolerance s) (hoveredNodeId s) (onNodeClick s).

Definition set__mouseDownY (v : option Q) (s : State) : State :=
  mkState (canvas s) (isDragging s) (pannable s) (zoomable s) (panX s)
    (panY s) (currentZoom s) (minZoomLimit s) (maxZoomLimit s) (lastMouseX s)
    (lastMouseY s) (_mouseDownX s) v (_touchStartX s) (_touchStartY s)
    (touches s) (lastTouchDistance s) (renderedNodes s) (voronoiData s)
    (leafHoverTolerance s) (hoveredNodeId s) (onNodeClick s).

Definition set__touchStartX (v : option Q) (s : State) : State :=
  mkState (canvas s) (isDragging s) (pannable s) (zoomable s) (panX s)
    (panY s) (currentZoom s) (minZoomLimit s) (maxZoomLimit s) (lastMouseX s)
    (lastMouseY s) (_mouseDownX s) (_mouseDownY s) v (_touchStartY s)
    (touches s) (lastTouchDistance s) (renderedNodes s) (voronoiData s)
    (leafHoverTolerance s) (hoveredNodeId s) (onNodeClick s).

Definition set__touchStartY (v : option Q) (s : State) : State :=
  mkState (canvas s) (isDragging s) (pannable s) (zoomable s) (panX s)
    (panY s) (currentZoom s) (minZoomLimit s) (maxZoomLimit s) (lastMouseX s)
    (lastMouseY s) (_mouseDownX s) (_mouseDownY s) (_touchStartX s) v
    (touches s) (lastTouchDistance s) (renderedNodes s) (voronoiData s)
    (leafHoverTolerance s) (hoveredNodeId s) (onNodeClick s).

Definition set_touches (v : list Pointer) (s : State) : State :=
  mkState (canvas s) (isDragging s) (pannable s) (zoomable s) (panX s)
    (panY s) (currentZoom s) (minZoomLimit s) (maxZoomLimit s) (lastMouseX s)
    (lastMouseY s) (_mouseDownX s) (_mouseDownY s) (_touchStartX s)
    (_touchStartY s) v (lastTouchDistance s) (renderedNodes s) (voronoiData s)
    (leafHoverTolerance s) (hoveredNodeId s) (onNodeClick s).

Definition set_lastTouchDistance (v : Q) (s : State) : State :=
  mkState (canvas s) (isDragging s) (pannable s) (zoomable s) (panX s)
    (panY s) (currentZoom s) (minZoomLimit s) (maxZoomLimit s) (lastMouseX s)
    (lastMouseY s) (_mouseDownX s) (_mouseDownY s) (_touchStartX s)
    (_touchStartY s) (touches s) v (renderedNodes s) (voronoiData s)
    (leafHoverTolerance s) (hoveredNodeId s) (onNodeClick s).

Definition set_hoveredNodeId (v : option string) (s : State) : State :=
  mkState (canvas s) (isDragging s) (pannable s) (zoomable s) (panX s)
    (panY s) (currentZoom s) (minZoomLimit s) (maxZoomLimit s) (lastMouseX s)
    (lastMouseY s) (_mouseDownX s) (_mouseDownY s) (_touchStartX s)
    (_touchStartY s) (touches s) (lastTouchDistance s) (renderedNodes s)
    (voronoiData s) (leafHoverTolerance s) v (onNodeClick s).

(** What a handler does besides changing the state: the calls it makes
    to its callbacks, to the event and to the hit tests, in order. *)
Inductive Effect :=
  | ScheduleRender
  | OnNodeClick (nodeId : string)
  | PreventDefault
  | CallFindHoveredNode (x y : Q)
  | CallFindHoveredLeafByVoronoi (x y tolerance : Q).

(** A computation either completes normally or throws a [TypeError];
    either way the mutations and calls made so far stay. *)
Inductive Completion (A : Type) :=
  | Normal (a : A) (s : State) (effects : list Effect)
  | TypeError (s : State) (effects : list Effect).
Arguments Normal {A} a s effects.
Arguments TypeError {A} s effects.

Definition M (A : Type) : Type := State → list Effect → Completion A.

#[export] Instance M_ret : MRet M := λ A a s t, Normal a s t.
#[export] Instance M_bind : MBind M := λ A B f c s t,
  match c s t with
  | Normal a s' t' => f a s' t'
  | TypeError s' t' => TypeError s' t'
  end.

Definition get : M State := λ s t, Normal s s t.
Definition update (f : State → State) : M unit := λ s t, Normal tt (f s) t.
Definition call (e : Effect) : M unit := λ s t, Normal tt s (t ++ [e]).
Definition throw {A : Type} : M A := λ s t, TypeError s t.

Definition stateOf {A : Type} (c : Completion A) : State :=
  match c with Normal _ s _ => s | TypeError s _ => s end.
Definition effectsOf {A : Type} (c : Completion A) : list Effect :=
  match c with Normal _ _ t => t | TypeError _ t => t end.
Definition threw {A : Type} (c : Completion A) : bool :=
  match c with Normal _ _ _ => false | TypeError _ _ => true end.

Definition scheduleRender : M unit := call ScheduleRender.
Definition preventDefault : M unit := call PreventDefault.

Section Handlers.
Context `{!DrawNode} `{!VoronoiHover} `{!MathSqrt} `{!Rounding}.

Definition callFindHoveredNode (x y : Q) (nodes : list RenderedNode)
    : M (option string) :=
  call (CallFindHoveredNode x y);; mret (findHoveredNode x y nodes).

Definition callFindHoveredLeafByVoronoi (x y : Q) (v : VoronoiData) (tol : Q)
    : M (option string) :=
  call (CallFindHoveredLeafByVoronoi x y tol);;
  mret (findHoveredLeafByVoronoi x y v tol).

(** [canvas.getBoundingClientRect()] on a missing canvas is a
    [TypeError]; the two differences are rounded. *)
Definition getEventCoordinates (event : Pointer) (canvas : option Canvas)
    : M (Q * Q) :=
  match canvas with
  | None => throw
  | Some canvas =>
      mret (fl (clientX event - left canvas), fl (clientY event - top canvas))
  end.

Definition handlePanning (currentX currentY : Q) : M unit :=
  state ← get;
  if negb (isDragging state) || negb (pannable state) then mret tt else
  let deltaX := currentX - lastMouseX state in
  let deltaY := currentY - lastMouseY state in
  update (set_panX (panX state + deltaX));;
  update (set_panY (panY state + deltaY));;
  update (set_lastMouseX currentX);;
  update (set_lastMouseY currentY);;
  scheduleRender.

(** The two quotients by [currentZoom] are quotients of rationals, as
    the source's are while the zoom is not 0.  At zoom 0 the source's
    are infinite or NaN ([Doubles.handleZoom]), the rationals' are 0:
    what is proved of the pan after a zoom is proved for a zoom other
    than 0. *)
Definition handleZoom (zoomFactor centerX centerY width height : Q) : M bool :=
  state ← get;
  if negb (zoomable state) then mret false else
  let proposedZoom := currentZoom state * zoomFactor in
  if (Qltb (maxZoomLimit state) proposedZoom
      && Qleb (maxZoomLimit state) (currentZoom state))
     || (Qltb proposedZoom (minZoomLimit state)
         && Qleb (currentZoom state) (minZoomLimit state))
  then mret false else
  let newZoom :=
    Qmax (minZoomLimit state) (Qmin (maxZoomLimit state) proposedZoom) in
  let canvasCenterX := width / 2 in
  let canvasCenterY := height / 2 in
  let worldX := (centerX - canvasCenterX - panX state) / currentZoom state in
  let worldY := (centerY - canvasCenterY - panY state) / currentZoom state in
  update (set_panX (centerX - canvasCenterX - worldX * newZoom));;
  update (set_panY (centerY - canvasCenterY - worldY * newZoom));;
  update (set_currentZoom newZoom);;
  scheduleRender;;
  mret true.

Definition handleHoverDetection (x y : Q) : M unit :=
  state ← get;
  match renderedNodes state with
  | [] => mret tt
  | _ :: _ =>
      let transformedX := fl (x - panX state) in
      let transformedY := fl (y - panY state) in
      newHoveredNodeId ←
        callFindHoveredNode transformedX transformedY (renderedNodes state);
      newHoveredNodeId ←
        match newHoveredNodeId, voronoiData state with
        | None, Some voronoiData =>
            callFindHoveredLeafByVoronoi transformedX transformedY voronoiData
              (default 15 (leafHoverTolerance state))
        | _, _ => mret newHoveredNodeId
        end;
      if bool_decide (newHoveredNodeId = hoveredNodeId state) then mret tt
      else update (set_hoveredNodeId newHoveredNodeId);; scheduleRender
  end.

Definition handleMouseMove (width height : Q) (event : Pointer) : M unit :=
  state ← get;
  match canvas state with
  | None => mret tt
  | Some _ =>
      '(x, y) ← getEventCoordinates event (canvas state);
      handlePanning x y;;
      update (set_lastMouseX x);;
      update (set_lastMouseY y);;
      state ← get;
      if negb (isDragging state) then handleHoverDetection x y else mret tt
  end.

Definition handleMouseDown (event : Pointer) : M unit :=
  state ← get;
  '(x, y) ← getEventCoordinates event (canvas state);
  update (set__mouseDownX (Some x));;
  update (set__mouseDownY (Some y));;
  if negb (pannable state) then mret tt else
  update (set_isDragging true);;
  update (set_lastMouseX x);;
  update (set_lastMouseY y);;
  preventDefault.

(** [_mouseDownY] is written together with [_mouseDownX]; were it
    [undefined], [dy] would be [NaN] and the comparison with 25 false.
    In [dx * dx + dy * dy < 25] the differences, the products and the
    sum are each rounded. *)
Definition handleMouseUp (event : Pointer) : M unit :=
  update (set_isDragging false);;
  state ← get;
  match _mouseDownX state, canvas state, onNodeClick state with
  | Some downX, Some _, true =>
      '(x, y) ← getEventCoordinates event (canvas state);
      let dx := fl (x - downX) in
      match _mouseDownY state with
      | None => mret tt
      | Some downY =>
          let dy := fl (y - downY) in
          if Qltb (fl (fl (dx * dx) + fl (dy * dy))) 25 then
            let transformedX := fl (x - panX state) in
            let transformedY := fl (y - panY state) in
            clickedNodeId ←
              callFindHoveredNode transformedX transformedY (renderedNodes state);
            match clickedNodeId with
            | Some clickedNodeId => call (OnNodeClick clickedNodeId)
            | None => mret tt
            end
          else mret tt
      end
  | _, _, _ => mret tt
  end.

Definition handleMouseLeave : M unit :=
  update (set_isDragging false);;
  state ← get;
  match hoveredNodeId state with
  | Some _ => update (set_hoveredNodeId None);; scheduleRender
  | None => mret tt
  end.

Definition handleWheel (width height : Q) (event : WheelEvent) : M unit :=
  state ← get;
  match canvas state with
  | None => mret tt
  | Some _ =>
      preventDefault;;
      '(x, y) ← getEventCoordinates (wheelAt event) (canvas state);
      let zoomFactor := if Qltb 0 (deltaY event) then 9 # 10 else 11 # 10 in
      handleZoom zoomFactor x y width height;;
      mret tt
  end.

(** [Math.sqrt(Math.pow(x2 - x1, 2) + Math.pow(y2 - y1, 2))] *)
Definition touchDistance (touch1 touch2 : Q * Q) : Q :=
  Math_sqrt (Math_pow (touch2.1 - touch1.1) 2 + Math_pow (touch2.2 - touch1.2) 2).

Definition handleTouchStart (event : TouchEvent) : M unit :=
  preventDefault;;
  let touches := event_touches event in
  update (set_touches touches);;
  state ← get;
  match touches with
  | [touch] =>
      '(x, y) ← getEventCoordinates touch (canvas state);
      update (set__touchStartX (Some x));;
      update (set__touchStartY (Some y));;
      (if pannable state then
         update (set_isDragging true);;
         update (set_lastMouseX x);;
         update (set_lastMouseY y)
       else mret tt);;
      handleHoverDetection x y
  | [t1; t2] =>
      if zoomable state then
        touch1 ← getEventCoordinates t1 (canvas state);
        touch2 ← getEventCoordinates t2 (canvas state);
        update (set_lastTouchDistance (touchDistance touch1 touch2))
      else mret tt
  | _ => mret tt
  end.

Definition handleTouchMove (width height : Q) (event : TouchEvent) : M unit :=
  preventDefault;;
  let touches := event_touches event in
  state ← get;
  match touches with
  | [touch] =>
      if isDragging state && pannable state then
        '(x, y) ← getEventCoordinates touch (canvas state);
        handlePanning x y
      else mret tt
  | [t1; t2] =>
      if zoomable state then
        touch1 ← getEventCoordinates t1 (canvas state);
        touch2 ← getEventCoordinates t2 (canvas state);
        let currentDistance := touchDistance touch1 touch2 in
        (if Qltb 0 (lastTouchDistance state) then
           let zoomFactor := currentDistance / lastTouchDistance state in
           let centerX := (touch1.1 + touch2.1) / 2 in
           let centerY := (touch1.2 + touch2.2) / 2 in
           handleZoom zoomFactor centerX centerY width height;;
           mret tt
         else mret tt);;
        update (set_lastTouchDistance currentDistance)
      else mret tt
  | _ => mret tt
  end.

Definition handleTouchEnd (event : TouchEvent) : M unit :=
  preventDefault;;
  let changedTouches := default [] (changedTouches event) in
  let touches := event_touches event in
  update (set_touches touches);;
  match touches with
  | [] =>
      update (set_isDragging false);;
      update (set_lastTouchDistance 0);;
      state ← get;
      match changedTouches, _touchStartX state, onNodeClick state with
      | [touch], Some startX, true =>
          '(x, y) ← getEventCoordinates touch (canvas state);
          let dx := fl (x - startX) in
          match _touchStartY state with
          | None => mret tt
          | Some startY =>
              let dy := fl (y - startY) in
              if Qltb (fl (fl (dx * dx) + fl (dy * dy))) 25 then
                let transformedX := fl (x - panX state) in
                let transformedY := fl (y - panY state) in
                tappedNodeId ←
                  callFindHoveredNode transformedX transformedY
                    (renderedNodes state);
                match tappedNodeId with
                | Some tappedNodeId => call (OnNodeClick tappedNodeId)
                | None => mret tt
                end
              else mret tt
          end
      | _, _, _ => mret tt
      end
  | [touch] =>
      update (set_lastTouchDistance 0);;
      state ← get;
      if pannable state then
        '(x, y) ← getEventCoordinates touch (canvas state);
        update (set_lastMouseX x);;
        update (set_lastMouseY y);;
        update (set_isDragging true)
      else mret tt
  | _ => mret tt
  end.

(** The handlers of [createMouseHandlers], keyed by the event they are
    registered for. *)
Inductive GestureEvent :=
  | onMouseMove (event : Pointer)
  | onMouseDown (event : Pointer)
  | onMouseUp (event : Pointer)
  | onMouseLeave
  | onWheel (event : WheelEvent)
  | onTouchStart (event : TouchEvent)
  | onTouchMove (event : TouchEvent)
  | onTouchEnd (event : TouchEvent).

Definition dispatch (width height : Q) (ev : GestureEvent) : M unit :=
  match ev with
  | onMouseMove event => handleMouseMove width height event
  | onMouseDown event => handleMouseDown event
  | onMouseUp event => handleMouseUp event
  | onMouseLeave => handleMouseLeave
  | onWheel event => handleWheel width height event
  | onTouchStart event => handleTouchStart event
  | onTouchMove event => handleTouchMove width height event
  | onTouchEnd event => handleTouchEnd event
  end.

(** The event queue: handlers run one after the other on the shared
    state; an exception ends its handler only. *)
Fixpoint runEvents (width height : Q) (evs : list GestureEvent)
    (s : State) (t : list Effect) : State * list Effect :=
  match evs with
  | [] => (s, t)
  | ev :: evs' =>
      let c := dispatch width height ev s t in
      runEvents width height evs' (stateOf c) (effectsOf c)
  end.

End Handlers.

End MouseHandlers.

(** ** Hit tests and square root used to run the handlers *)

Module HitTests.
Import MouseHandlers.

Definition squaredDistance (px py qx qy : Q) : Q :=
  (px - qx) * (px - qx) + (py - qy) * (py - qy).

(** Modelled from the spec: [drawNode.js], which defines
    [findHoveredNode], is not among the sources.  "Returns the id of the
    node whose circle (center + radius) contains the point, using exact
    point-in-circle distance comparison"; among overlapping nodes the
    recommended tie-break is taken, the last node in draw order. *)
Fixpoint findExactHit (px py : Q) (renderedNodes : list RenderedNode)
    : option string :=
  match renderedNodes with
  | [] => None
  | n :: rest =>
      match findExactHit px py rest with
      | Some later => Some later
      | None =>
          if Qleb 0 (node_radius n)
             && Qleb (squaredDistance px py (node_x n) (node_y n))
                     (node_radius n * node_radius n)
          then Some (node_id n) else None
      end
  end.

(** The nearest entry of a list of leaves, the first one among equals. *)
Fixpoint nearestLeaf (px py : Q) (best : LeafEntry) (entries : list LeafEntry)
    : LeafEntry :=
  match entries with
  | [] => best
  | e :: rest =>
      if Qltb (squaredDistance px py (leaf_x e) (leaf_y e))
              (squaredDistance px py (leaf_x best) (leaf_y best))
      then nearestLeaf px py e rest
      else nearestLeaf px py best rest
  end.

(** Modelled from the spec: [voronoiHover.js], which defines
    [findHoveredLeafByVoronoi], is not among the sources.  "Finds the
    nearest leaf entry to the point by nearest-neighbor query, then
    accepts the match only if distance(point, leaf.center) <=
    leaf.radius + tolerance; otherwise returns null."  The distances are
    compared by their squares. *)
Definition findApproximateLeafHit (px py : Q) (proximityIndex : VoronoiData)
    (tolerance : Q) : option string :=
  match leafEntries proximityIndex with
  | [] => None
  | e :: rest =>
      let leaf := nearestLeaf px py e rest in
      let reach := leaf_radius leaf + tolerance in
      if Qleb 0 reach
         && Qleb (squaredDistance px py (leaf_x leaf) (leaf_y leaf))
                 (reach * reach)
      then Some (leaf_nodeId leaf) else None
  end.

(** Modelled from the spec: the "composite resolution order used by the
    Gesture Controller: exact hit first; if null, approximate leaf hit;
    if still null, no node is considered hit", the approximate hit being
    available only when a proximity index exists. *)
Definition compositeHit `{!DrawNode} `{!VoronoiHover}
    (px py : Q) (renderedNodes : list RenderedNode)
    (proximityIndex : option VoronoiData) (tolerance : Q) : option string :=
  match findHoveredNode px py renderedNodes with
  | Some nodeId => Some nodeId
  | None =>
      match proximityIndex with
      | Some index => findHoveredLeafByVoronoi px py index tolerance
      | None => None
      end
  end.

(** A stand-in for [Math.sqrt] on examples: exact on squares of
    rationals, rounded down to a multiple of the denominator's inverse
    otherwise. *)
Definition sqrtFloor (q : Q) : Q :=
  Z.sqrt (Qnum q * Z.pos (Qden q)) # Qden q.

Definition specDrawNode : DrawNode := {| findHoveredNode := findExactHit |}.
Definition specVoronoiHover : VoronoiHover :=
  {| findHoveredLeafByVoronoi := findApproximateLeafHit |}.
Definition floorMathSqrt : MathSqrt := {| Math_sqrt := sqrtFloor |}.

(** The rounding of the doubles. *)
Definition binary64 : Rounding := {| fl := roundToDouble |}.

(** The two leaves of the repository's proximity tests, on a canvas
    whose bounding rectangle starts at the origin. *)
Definition leafA : RenderedNode := mkRenderedNode 100 100 5 "leafA".
Definition leafB : RenderedNode := mkRenderedNode 300 300 8 "leafB".

Definition twoLeaves : VoronoiData :=
  mkVoronoiData [mkLeafEntry 100 100 5 "leafA"; mkLeafEntry 300 300 8 "leafB"].

Definition exampleState (canvas : option Canvas) (onNodeClick : bool) : State := {|
  canvas := canvas;
  isDragging := false; pannable := true; zoomable := true;
  panX := 0; panY := 0; currentZoom := 1;
  minZoomLimit := 1 # 2; maxZoomLimit := 4;
  lastMouseX := 0; lastMouseY := 0;
  _mouseDownX := None; _mouseDownY := None;
  _touchStartX := None; _touchStartY := None;
  touches := []; lastTouchDistance := 0;
  renderedNodes := [leafA; leafB];
  voronoiData := Some twoLeaves;
  leafHoverTolerance := None;
  hoveredNodeId := None;
  onNodeClick := onNodeClick
|}.

Definition idleState : State := exampleState (Some (mkCanvas 0 0)) true.

(** The same component without a canvas handle. *)
Definition detachedState : State := exampleState None true.

(** The same component without a click callback. *)
Definition silentState : State := exampleState (Some (mkCanvas 0 0)) false.



End HitTests.

(** ** Vocabulary of the gesture properties *)

Module GestureSpec.
Import MouseHandlers HitTests.

(** [Math.max(minZoomLimit, Math.min(maxZoomLimit, currentZoom * zoomFactor))] *)
Definition clampZoom (s : State) (zoomFactor : Q) : Q :=
  Qmax (minZoomLimit s) (Qmin (maxZoomLimit s) (currentZoom s * zoomFactor)).

Definition zoomWithinLimits (s : State) : Prop :=
  minZoomLimit s <= currentZoom s <= maxZoomLimit s.

Definition sameLimits (s s' : State) : Prop :=
  minZoomLimit s' = minZoomLimit s ∧ maxZoomLimit s' = maxZoomLimit s.

(** The events whose handlers call [handleZoom]. *)
Definition isZoomGesture (ev : GestureEvent) : bool :=
  match ev with
  | onWheel _ | onTouchMove _ => true
  | _ => false
  end.

(** The world coordinate under the canvas point [(cx, cy)] before the
    zoom, scaled by the zoom after it, is the offset of that canvas
    point from the panned canvas centre after it. *)
Definition focalPointFixed (s s' : State) (cx cy width height : Q) : Prop :=
  let worldX := (cx - width / 2 - panX s) / currentZoom s in
  let worldY := (cy - height / 2 - panY s) / currentZoom s in
  cx - width / 2 - panX s' == worldX * currentZoom s' ∧
  cy - height / 2 - panY s' == worldY * currentZoom s'.



(** A mouse press at [down] immediately followed by its release at [up],
    starting with no call made. *)
Definition pressAndRelease `{!DrawNode} `{!Rounding} (s : State) (down up : Pointer)
    : Completion unit :=
  let pressed := handleMouseDown down s [] in
  handleMouseUp up (stateOf pressed) (effectsOf pressed).


(** The claim that, with a canvas but no callback, a release within the
    click threshold still runs the hit test of the panned release
    point. *)
Definition hitTestRunsWithoutCallback `{!DrawNode} `{!Rounding}
    (s : State) (rect : Canvas) (down up : Pointer) : Prop :=
  canvas s = Some rect → onNodeClick s = false →
  (clientX up - clientX down) * (clientX up - clientX down)
  + (clientY up - clientY down) * (clientY up - clientY down) < 25 →
  CallFindHoveredNode (clientX up - left rect - panX s)
    (clientY up - top rect - panY s)
  ∈ effectsOf (pressAndRelease s down up).


(** The doubles nearest to 1.4 and to 4.8, [0x1.6666666666666p+0] and
    [0x1.3333333333333p+2]. *)
Definition double_1_4 : Q := 3152519739159347 # 2251799813685248.
Definition double_4_8 : Q := 5404319552844595 # 1125899906842624.

(** A component with one node of radius 10 at the origin and no
    proximity index. *)
Definition originState : State := {|
  canvas := Some (mkCanvas 0 0);
  isDragging := false; pannable := true; zoomable := true;
  panX := 0; panY := 0; currentZoom := 1;
  minZoomLimit := 1 # 2; maxZoomLimit := 4;
  lastMouseX := 0; lastMouseY := 0;
  _mouseDownX := None; _mouseDownY := None;
  _touchStartX := None; _touchStartY := None;
  touches := []; lastTouchDistance := 0;
  renderedNodes := [mkRenderedNode 0 0 10 "origin"];
  voronoiData := None;
  leafHoverTolerance := None;
  hoveredNodeId := None;
  onNodeClick := true
|}.

End GestureSpec.

(** ** Vocabulary of the further handler properties *)

Module HandlerSpec.
Import MouseHandlers HitTests.

(** The number of calls of [scheduleRender]. *)
Fixpoint renders (effects : list Effect) : nat :=
  match effects with
  | [] => 0
  | ScheduleRender :: rest => S (renders rest)
  | _ :: rest => renders rest
  end.

(** The fields the handlers read but never write. *)
Definition sameConfiguration (s s' : State) : Prop :=
  canvas s' = canvas s ∧ pannable s' = pannable s ∧ zoomable s' = zoomable s ∧
  minZoomLimit s' = minZoomLimit s ∧ maxZoomLimit s' = maxZoomLimit s ∧
  renderedNodes s' = renderedNodes s ∧ voronoiData s' = voronoiData s ∧
  leafHoverTolerance s' = leafHoverTolerance s ∧ onNodeClick s' = onNodeClick s.

(** The fields the render layer draws from. *)
Definition sameView (s s' : State) : Prop :=
  panX s' = panX s ∧ panY s' = panY s ∧ currentZoom s' = currentZoom s ∧
  hoveredNodeId s' = hoveredNodeId s.

(** Pan and zoom agree as numbers. *)
Definition viewportEq (s s' : State) : Prop :=
  panX s == panX s' ∧ panY s == panY s' ∧ currentZoom s == currentZoom s'.

(** How many handlers of an event queue end in an exception. *)
Fixpoint throwCount `{!DrawNode} `{!VoronoiHover} `{!MathSqrt} `{!Rounding}
    (width height : Q) (evs : list GestureEvent)
    (s : State) (t : list Effect) : nat :=
  match evs with
  | [] => 0
  | ev :: evs' =>
      let c := dispatch width height ev s t in
      (if threw c then 1 else 0)
      + throwCount width height evs' (stateOf c) (effectsOf c)
  end.

(** The handlers that test the canvas handle before using it, and the
    one that does not use it. *)
Definition isGuarded (ev : GestureEvent) : bool :=
  match ev with
  | onMouseMove _ | onMouseUp _ | onMouseLeave | onWheel _ => true
  | _ => false
  end.

(** The example component with panning and zooming switched off. *)
Definition lockedState : State := {|
  canvas := Some (mkCanvas 0 0);
  isDragging := false; pannable := false; zoomable := false;
  panX := 0; panY := 0; currentZoom := 1;
  minZoomLimit := 1 # 2; maxZoomLimit := 4;
  lastMouseX := 0; lastMouseY := 0;
  _mouseDownX := None; _mouseDownY := None;
  _touchStartX := None; _touchStartY := None;
  touches := []; lastTouchDistance := 0;
  renderedNodes := [leafA; leafB];
  voronoiData := Some twoLeaves;
  leafHoverTolerance := None;
  hoveredNodeId := None;
  onNodeClick := true
|}.

End HandlerSpec.

(** ** canvasUtils.js *)

(** JavaScript strings are sequences of UTF-16 code units.  They are
    modelled by [string], whose characters stand for the code units 0
    to 255; strings with other code units are outside the model. *)
Module CanvasUtils.

Import Stdlib.Strings.Ascii Stdlib.Strings.String.
Local Open Scope string_scope.

(** The white space and line terminators that [trim] and [parseInt]
    skip, among the code units 0 to 255: tab, line feed, vertical tab,
    form feed, carriage return, space and no-break space. *)
Definition isWhiteSpace (a : ascii) : bool :=
  existsb (Nat.eqb (nat_of_ascii a)) [9; 10; 11; 12; 13; 32; 160]%nat.

Fixpoint trimStart (s : string) : string :=
  match s with
  | "" => ""
  | String a rest => if isWhiteSpace a then trimStart rest else s
  end.

Fixpoint trimEnd (s : string) : string :=
  match s with
  | "" => ""
  | String a rest =>
      match trimEnd rest with
      | "" => if isWhiteSpace a then "" else String a ""
      | kept => String a kept
      end
  end.

(** [s.trim()] *)
Definition trim (s : string) : string := trimEnd (trimStart s).

(** [s.startsWith(p)] *)
Definition startsWith (s p : string) : bool := prefix p s.

(** [s.slice(n)] for [n >= 0] *)
Fixpoint sliceFrom (n : nat) (s : string) : string :=
  match n, s with
  | O, _ => s
  | S n', String _ rest => sliceFrom n' rest
  | S _, "" => ""
  end.

Fixpoint dropLast (s : string) : string :=
  match s with
  | "" => ""
  | String a "" => ""
  | String a rest => String a (dropLast rest)
  end.

(** [s.slice(n, -1)] for [n >= 0]: from index [n] up to, not including,
    the last code unit. *)
Definition sliceInner (n : nat) (s : string) : string := dropLast (sliceFrom n s).

(** [s.split(',')]: never empty, one part more than there are commas. *)
Fixpoint splitComma (s : string) : list string :=
  match s with
  | "" => [""]
  | String a rest =>
      if Ascii.eqb a ","%char then "" :: splitComma rest
      else match splitComma rest with
           | part :: parts => String a part :: parts
           | [] => [String a ""]
           end
  end.

(** [hex.split('').map((h) => h + h).join('')] *)
Fixpoint doubleEach (hex : string) : string :=
  match hex with
  | "" => ""
  | String h rest => String h (String h (doubleEach rest))
  end.

Definition hexDigitValue (a : ascii) : option Z :=
  let n := Z.of_nat (nat_of_ascii a) in
  (if (48 <=? n) && (n <=? 57) then Some (n - 48)
   else if (65 <=? n) && (n <=? 70) then Some (n - 55)
   else if (97 <=? n) && (n <=? 102) then Some (n - 87)
   else None)%Z.

(** The value of the longest prefix of hexadecimal digits, given the
    value [acc] of the digits before it; [seen] tells whether there was
    any digit. *)
Fixpoint hexPrefix (s : string) (acc : Z) (seen : bool) : option Z :=
  match s with
  | "" => if seen then Some acc else None
  | String a rest =>
      match hexDigitValue a with
      | Some d => hexPrefix rest (16 * acc + d)%Z true
      | None => if seen then Some acc else None
      end
  end.

(** [parseInt(s, 16)]: leading white space is skipped, then a sign, then
    a [0x] or [0X] prefix; the digits that follow are read as far as
    they go.  [None] is [NaN]; negative zero is written [0], as it
    prints. *)
Definition parseInt16 (s : string) : option Z :=
  let s := trimStart s in
  let '(negative, s) :=
    match s with
    | String "-"%char rest => (true, rest)
    | String "+"%char rest => (false, rest)
    | _ => (false, s)
    end in
  let s :=
    match s with
    | String "0"%char (String "x"%char rest) => rest
    | String "0"%char (String "X"%char rest) => rest
    | _ => s
    end in
  match hexPrefix s 0%Z false with
  | Some n => Some (if negative then (- n)%Z else n)
  | None => None
  end.

(** A number from [parseInt] inside a template literal. *)
Definition integerToString (n : option Z) : string :=
  match n with
  | Some n => NilZero.string_of_int (Z.to_int n)
  | None => "NaN"
  end.

(** The value of [result] when the cache has no entry: [c] is the
    trimmed colour and [alpha] is the alpha as the template literals
    print it. *)
Definition convertColor (c alpha : string) : string :=
  if startsWith c "rgba(" then
    let inner := sliceInner 5 c in
    match map trim (splitComma inner) with
    | p0 :: p1 :: p2 :: _ =>
        "rgba(" ++ p0 ++ ", " ++ p1 ++ ", " ++ p2 ++ ", " ++ alpha ++ ")"
    | _ => c
    end
  else if startsWith c "rgb(" then
    let inner := sliceInner 4 c in
    match map trim (splitComma inner) with
    | p0 :: p1 :: p2 :: _ =>
        "rgba(" ++ p0 ++ ", " ++ p1 ++ ", " ++ p2 ++ ", " ++ alpha ++ ")"
    | _ => c
    end
  else
    match c with
    | String "#"%char hex =>
        let hex := if Nat.eqb (String.length hex) 3 then doubleEach hex else hex in
        if Nat.eqb (String.length hex) 6 then
          let r := parseInt16 (substring 0 2 hex) in
          let g := parseInt16 (substring 2 2 hex) in
          let b := parseInt16 (substring 4 2 hex) in
          "rgba(" ++ integerToString r ++ ", " ++ integerToString g ++ ", "
            ++ integerToString b ++ ", " ++ alpha ++ ")"
        else c
    | _ => c
    end.

Definition _COLOR_CACHE_MAX_SIZE : nat := 256%nat.

Section ColorWithAlpha.

(** How a template literal prints the number [alpha]. *)
Variable Number_toString : Q → string.

(** [colorWithAlpha(color, alpha)] on the cache [_colorAlphaCache]; a
    missing [color] or [alpha] ([null] or [undefined]) is [None]. *)
Definition colorWithAlpha (color : option string) (alpha : option Q)
    (_colorAlphaCache : gmap string string)
    : option string * gmap string string :=
  match color with
  | None => (None, _colorAlphaCache)
  | Some color =>
      let c := trim color in
      if String.eqb c "" then (Some c, _colorAlphaCache) else
      match alpha with
      | None => (Some c, _colorAlphaCache)
      | Some alpha =>
          if Qeq_bool alpha 1 then (Some c, _colorAlphaCache) else
          let cacheKey := c ++ "|" ++ Number_toString alpha in
          match _colorAlphaCache !! cacheKey with
          | Some cached => (Some cached, _colorAlphaCache)
          | None =>
              let result := convertColor c (Number_toString alpha) in
              let cache :=
                if (_COLOR_CACHE_MAX_SIZE <? size _colorAlphaCache)%nat
                then ∅ else _colorAlphaCache in
              (Some result, <[cacheKey := result]> cache)
          end
      end
  end.

(** A sequence of calls on the shared cache, with their results. *)
Fixpoint colorWithAlpha_calls (calls : list (option string * option Q))
    (cache : gmap string string)
    : list (option string) * gmap string string :=
  match calls with
  | [] => ([], cache)
  | (color, alpha) :: rest =>
      let '(result, cache) := colorWithAlpha color alpha cache in
      let '(results, cache) := colorWithAlpha_calls rest cache in
      (result :: results, cache)
  end.

End ColorWithAlpha.

(** *** setCanvasStyles *)

(** The style properties of a 2D context, as a plain object: reading a
    property gives what was last assigned to it. *)
Record Context2D := mkContext2D {
  ctx_strokeStyle : string;
  ctx_fillStyle : string;
  ctx_lineWidth : Q;
  ctx_globalAlpha : Q;
  ctx_textAlign : string;
  ctx_textBaseline : string;
  ctx_font : string
}.

(** The [styles] argument; [None] is [undefined]. *)
Record Styles := mkStyles {
  strokeStyle : option string;
  fillStyle : option string;
  lineWidth : option Q;
  globalAlpha : option Q;
  textAlign : option string;
  textBaseline : option string;
  font : option string
}.

(** An assignment to a property of the context. *)
Inductive StyleWrite :=
  | WriteStrokeStyle (v : string)
  | WriteFillStyle (v : string)
  | WriteLineWidth (v : Q)
  | WriteGlobalAlpha (v : Q)
  | WriteTextAlign (v : string)
  | WriteTextBaseline (v : string)
  | WriteFont (v : string).

(** [setCanvasStyles(ctx, styles)]: the context after the call and the
    assignments made, in order; a missing [ctx] is [None]. *)
Definition setCanvasStyles (ctx : option Context2D) (styles : Styles)
    : option Context2D * list StyleWrite :=
  match ctx with
  | None => (None, [])
  | Some ctx =>
      let '(ctx, writes) :=
        match strokeStyle styles with
        | Some v =>
            if negb (String.eqb (ctx_strokeStyle ctx) v)
            then (mkContext2D v (ctx_fillStyle ctx) (ctx_lineWidth ctx)
                    (ctx_globalAlpha ctx) (ctx_textAlign ctx)
                    (ctx_textBaseline ctx) (ctx_font ctx),
                  [WriteStrokeStyle v])
            else (ctx, [])
        | None => (ctx, [])
        end in
      let '(ctx, writes) :=
        match fillStyle styles with
        | Some v =>
            if negb (String.eqb (ctx_fillStyle ctx) v)
            then (mkContext2D (ctx_strokeStyle ctx) v (ctx_lineWidth ctx)
                    (ctx_globalAlpha ctx) (ctx_textAlign ctx)
                    (ctx_textBaseline ctx) (ctx_font ctx),
                  (writes ++ [WriteFillStyle v])%list)
            else (ctx, writes)
        | None => (ctx, writes)
        end in
      let '(ctx, writes) :=
        match lineWidth styles with
        | Some v =>
            if negb (Qeq_bool (ctx_lineWidth ctx) v)
            then (mkContext2D (ctx_strokeStyle ctx) (ctx_fillStyle ctx) v
                    (ctx_globalAlpha ctx) (ctx_textAlign ctx)
                    (ctx_textBaseline ctx) (ctx_font ctx),
                  (writes ++ [WriteLineWidth v])%list)
            else (ctx, writes)
        | None => (ctx, writes)
        end in
      let '(ctx, writes) :=
        match globalAlpha styles with
        | Some v =>
            if negb (Qeq_bool (ctx_globalAlpha ctx) v)
            then (mkContext2D (ctx_strokeStyle ctx) (ctx_fillStyle ctx)
                    (ctx_lineWidth ctx) v (ctx_textAlign ctx)
                    (ctx_textBaseline ctx) (ctx_font ctx),
                  (writes ++ [WriteGlobalAlpha v])%list)
            else (ctx, writes)
        | None => (ctx, writes)
        end in
      let '(ctx, writes) :=
        match textAlign styles with
        | Some v =>
            if negb (String.eqb (ctx_textAlign ctx) v)
            then (mkContext2D (ctx_strokeStyle ctx) (ctx_fillStyle ctx)
                    (ctx_lineWidth ctx) (ctx_globalAlpha ctx) v
                    (ctx_textBaseline ctx) (ctx_font ctx),
                  (writes ++ [WriteTextAlign v])%list)
            else (ctx, writes)
        | None => (ctx, writes)
        end in
      let '(ctx, writes) :=
        match textBaseline styles with
        | Some v =>
            if negb (String.eqb (ctx_textBaseline ctx) v)
            then (mkContext2D (ctx_strokeStyle ctx) (ctx_fillStyle ctx)
                    (ctx_lineWidth ctx) (ctx_globalAlpha ctx)
                    (ctx_textAlign ctx) v (ctx_font ctx),
                  (writes ++ [WriteTextBaseline v])%list)
            else (ctx, writes)
        | None => (ctx, writes)
        end in
      let '(ctx, writes) :=
        match font styles with
        | Some v =>
            if negb (String.eqb (ctx_font ctx) v)
            then (mkContext2D (ctx_strokeStyle ctx) (ctx_fillStyle ctx)
                    (ctx_lineWidth ctx) (ctx_globalAlpha ctx)
                    (ctx_textAlign ctx) (ctx_textBaseline ctx) v,
                  (writes ++ [WriteFont v])%list)
            else (ctx, writes)
        | None => (ctx, writes)
        end in
      (Some ctx, writes)
  end.

(** Every style given is the context's, as a number where it is one. *)
Definition stylesInEffect (styles : Styles) (ctx : Context2D) : Prop :=
  (∀ v, strokeStyle styles = Some v → ctx_strokeStyle ctx = v) ∧
  (∀ v, fillStyle styles = Some v → ctx_fillStyle ctx = v) ∧
  (∀ v, lineWidth styles = Some v → ctx_lineWidth ctx == v) ∧
  (∀ v, globalAlpha styles = Some v → ctx_globalAlpha ctx == v) ∧
  (∀ v, textAlign styles = Some v → ctx_textAlign ctx = v) ∧
  (∀ v, textBaseline styles = Some v → ctx_textBaseline ctx = v) ∧
  (∀ v, font styles = Some v → ctx_font ctx = v).

(** The properties for which no style is given are as before. *)
Definition otherStylesKept (styles : Styles) (ctx ctx' : Context2D) : Prop :=
  (strokeStyle styles = None → ctx_strokeStyle ctx' = ctx_strokeStyle ctx) ∧
  (fillStyle styles = None → ctx_fillStyle ctx' = ctx_fillStyle ctx) ∧
  (lineWidth styles = None → ctx_lineWidth ctx' = ctx_lineWidth ctx) ∧
  (globalAlpha styles = None → ctx_globalAlpha ctx' = ctx_globalAlpha ctx) ∧
  (textAlign styles = None → ctx_textAlign ctx' = ctx_textAlign ctx) ∧
  (textBaseline styles = None → ctx_textBaseline ctx' = ctx_textBaseline ctx) ∧
  (font styles = None → ctx_font ctx' = ctx_font ctx).

(** *** setupCanvas *)

(** The module's cache variables.  Canvases and contexts are objects
    compared by reference, which a number stands for. *)
Record CanvasCache := mkCanvasCache {
  _lastCanvasRef : option nat;
  _lastWidth : Q;
  _lastHeight : Q;
  _lastDpr : Q;
  _cachedCtx : option nat
}.

Definition initialCache : CanvasCache := mkCanvasCache None (-1) (-1) (-1) None.

(** What [setupCanvas] does to the canvas and to its context.  The
    style strings [width + 'px'] are given by their number. *)
Inductive CanvasOp :=
  | SetWidth (canvas : nat) (v : Q)
  | SetHeight (canvas : nat) (v : Q)
  | SetStyleWidth (canvas : nat) (px : Q)
  | SetStyleHeight (canvas : nat) (px : Q)
  | GetContext (canvas : nat)
  | Scale (ctx : nat) (x y : Q)
  | SetImageSmoothingEnabled (ctx : nat) (v : bool)
  | SetImageSmoothingQuality (ctx : nat) (v : string)
  | SetLineCap (ctx : nat) (v : string)
  | SetLineJoin (ctx : nat) (v : string).

Section SetupCanvas.

(** [canvas.getContext('2d')]: the context of a canvas, the same object
    at every call, or [null]. *)
Variable getContext : nat → option nat.

(** [setupCanvas(canvas, width, height)] with [window.devicePixelRatio]
    as it is at the call ([None] when undefined). *)
Definition setupCanvas (window_devicePixelRatio : option Q)
    (canvas : option nat) (width height : Q) (cache : CanvasCache)
    : option nat * CanvasCache * list CanvasOp :=
  match canvas with
  | None => (None, cache, [])
  | Some canvas =>
      let devicePixelRatio :=
        match window_devicePixelRatio with
        | Some d => if Qeq_bool d 0 then 1 else d
        | None => 1
        end in
      let hit :=
        match _lastCanvasRef cache, _cachedCtx cache with
        | Some last, Some ctx =>
            if Nat.eqb canvas last && Qeq_bool width (_lastWidth cache)
               && Qeq_bool height (_lastHeight cache)
               && Qeq_bool devicePixelRatio (_lastDpr cache)
            then Some ctx else None
        | _, _ => None
        end in
      match hit with
      | Some ctx => (Some ctx, cache, [])
      | None =>
          let ops :=
            [SetWidth canvas (width * devicePixelRatio);
             SetHeight canvas (height * devicePixelRatio);
             SetStyleWidth canvas width; SetStyleHeight canvas height;
             GetContext canvas] in
          match getContext canvas with
          | None => (None, cache, ops)
          | Some ctx =>
              (Some ctx,
               mkCanvasCache (Some canvas) width height devicePixelRatio (Some ctx),
               (ops ++ [Scale ctx devicePixelRatio devicePixelRatio;
                        SetImageSmoothingEnabled ctx true;
                        SetImageSmoothingQuality ctx "high";
                        SetLineCap ctx "round"; SetLineJoin ctx "round"])%list)
          end
      end
  end.

(** A sequence of calls on the module's cache. *)
Fixpoint setupCanvas_calls
    (calls : list (option Q * option nat * Q * Q)) (cache : CanvasCache)
    : list (option nat) * CanvasCache :=
  match calls with
  | [] => ([], cache)
  | (dpr, canvas, width, height) :: rest =>
      let '(ctx, cache, _) := setupCanvas dpr canvas width height cache in
      let '(ctxs, cache) := setupCanvas_calls rest cache in
      (ctx :: ctxs, cache)
  end.

End SetupCanvas.

End CanvasUtils.

(** ** Vocabulary of the canvasUtils properties *)

Module CanvasSpec.
Import Stdlib.Strings.Ascii Stdlib.Strings.String CanvasUtils.
Local Open Scope string_scope.

(** The string holds no comma. *)
Fixpoint noComma (s : string) : bool :=
  match s with
  | "" => true
  | String a rest => negb (Ascii.eqb a ",") && noComma rest
  end.

(** No character of the string is white space or a comma. *)
Fixpoint isPlain (s : string) : bool :=
  match s with
  | "" => true
  | String a rest =>
      negb (isWhiteSpace a) && negb (Ascii.eqb a ",") && isPlain rest
  end.

(** The string holds no vertical bar. *)
Fixpoint noBar (s : string) : bool :=
  match s with
  | "" => true
  | String a rest => negb (Ascii.eqb a "|") && noBar rest
  end.

(** Every cache entry holds what the conversion gives for its key. *)
Definition cacheCoherent (Number_toString : Q → string)
    (cache : gmap string string) : Prop :=
  ∀ c alpha v,
    cache !! (c ++ "|" ++ Number_toString alpha) = Some v →
    v = convertColor c (Number_toString alpha).

(** What a call returns when the cache is empty. *)
Definition colorValue (Number_toString : Q → string)
    (color : option string) (alpha : option Q) : option string :=
  (colorWithAlpha Number_toString color alpha ∅).1.

(** The cached context is the context of the cached canvas. *)
Definition canvasCacheCoherent (getContext : nat → option nat)
    (cache : CanvasCache) : Prop :=
  ∀ canvas ctx,
    _lastCanvasRef cache = Some canvas → _cachedCtx cache = Some ctx →
    getContext canvas = Some ctx.

(** How the alphas of the examples print: a half, a quarter, and zero
    for any other number. *)
Definition exampleAlphaToString (alpha : Q) : string :=
  if Qeq_bool alpha (1 # 2) then "0.5"
  else if Qeq_bool alpha (1 # 4) then "0.25"
  else "0".

(** The context of canvas [n] in the examples. *)
Definition exampleGetContext (canvas : nat) : option nat := Some (canvas + 100)%nat.

End CanvasSpec.

(** ** drawLink.js *)

Module DrawLink.
Import Stdlib.Strings.String CanvasUtils.

(** What [drawConnectingLinks] reads of a style object: [style.link]
    and its three stroke properties, each of which may be absent. *)
Record LinkStyle := mkLinkStyle {
  strokeWidth : option Q;
  strokeColor : option string;
  strokeOpacity : option Q
}.

Record Style := mkStyle { link : option LinkStyle }.

(** An entry [{ x, y, node, depth }] of [renderedNodes], with [node.id]. *)
Record NodeData := mkNodeData {
  nd_x : Q;
  nd_y : Q;
  nd_id : string;
  nd_depth : Z
}.

(** An entry of a children array, of which [x] and [y] are read. *)
Record ChildNode := mkChildNode { child_x : Q; child_y : Q }.

(** [resolveDepthStyle] is imported from [drawNode.js], which is not
    among the sources: it is a parameter, taken as a function of the
    depth, the node id and the merged style; the two caches it is also
    passed are its own. *)
Class ResolveDepthStyle := {
  resolveDepthStyle : Z → string → option Style → option Style
}.

(** The path calls made on the context; [Stroke] with the stroke style
    and the line width the context has at the call. *)
Inductive PathOp :=
  | BeginPath
  | MoveTo (x y : Q)
  | LineTo (x y : Q)
  | Stroke (strokeStyle : string) (lineWidth : Q).

(** [style?.link] *)
Definition linkOf (style : option Style) : option LinkStyle :=
  match style with
  | Some style => link style
  | None => None
  end.

(** [depthStyle?.link?.strokeWidth ?? mergedStyle?.link?.strokeWidth ?? 0] *)
Definition lineWidth (depthStyle mergedStyle : option Style) : Q :=
  match linkOf depthStyle ≫= strokeWidth with
  | Some v => v
  | None =>
      match linkOf mergedStyle ≫= strokeWidth with
      | Some v => v
      | None => 0
      end
  end.

(** [depthStyle?.link?.strokeColor ?? mergedStyle?.link?.strokeColor ?? 'none'] *)
Definition lineColor (depthStyle mergedStyle : option Style) : string :=
  match linkOf depthStyle ≫= strokeColor with
  | Some v => v
  | None =>
      match linkOf mergedStyle ≫= strokeColor with
      | Some v => v
      | None => "none"
      end
  end.

(** [depthStyle?.link?.strokeOpacity ?? mergedStyle?.link?.strokeOpacity ?? 1] *)
Definition lineOpacity (depthStyle mergedStyle : option Style) : Q :=
  match linkOf depthStyle ≫= strokeOpacity with
  | Some v => v
  | None =>
      match linkOf mergedStyle ≫= strokeOpacity with
      | Some v => v
      | None => 1
      end
  end.

Section DrawConnectingLinks.

Variable Number_toString : Q → string.
Context `{!ResolveDepthStyle}.

(** The body of the inner loop, on the context, the colour cache of
    [canvasUtils.js] and the path calls made so far. *)
Definition drawConnectingLinks_child (nodeData : NodeData)
    (mergedStyle : option Style)
    (st : Context2D * gmap string string * list PathOp) (child : ChildNode)
    : Context2D * gmap string string * list PathOp :=
  let '(ctx, cache, ops) := st in
  let depthStyle :=
    resolveDepthStyle (nd_depth nodeData) (nd_id nodeData) mergedStyle in
  let lineWidth := lineWidth depthStyle mergedStyle in
  let lineColor := lineColor depthStyle mergedStyle in
  let lineOpacity := lineOpacity depthStyle mergedStyle in
  if Qltb 0 lineWidth && negb (String.eqb lineColor "none") then
    let prevStroke := ctx_strokeStyle ctx in
    let prevWidthLocal := ctx_lineWidth ctx in
    let '(strokeStyleWithAlpha, cache) :=
      colorWithAlpha Number_toString (Some lineColor) (Some lineOpacity) cache in
    match
      setCanvasStyles (Some ctx)
        (mkStyles strokeStyleWithAlpha None (Some lineWidth) None None None None)
    with
    | (Some ctx, _) =>
        let ops :=
          (ops ++ [BeginPath; MoveTo (nd_x nodeData) (nd_y nodeData);
                   LineTo (child_x child) (child_y child);
                   Stroke (ctx_strokeStyle ctx) (ctx_lineWidth ctx)])%list in
        let ctx :=
          if negb (Qeq_bool (ctx_lineWidth ctx) prevWidthLocal)
          then mkContext2D (ctx_strokeStyle ctx) (ctx_fillStyle ctx) prevWidthLocal
                 (ctx_globalAlpha ctx) (ctx_textAlign ctx) (ctx_textBaseline ctx)
                 (ctx_font ctx)
          else ctx in
        let ctx :=
          if negb (String.eqb (ctx_strokeStyle ctx) prevStroke)
          then mkContext2D prevStroke (ctx_fillStyle ctx) (ctx_lineWidth ctx)
                 (ctx_globalAlpha ctx) (ctx_textAlign ctx) (ctx_textBaseline ctx)
                 (ctx_font ctx)
          else ctx in
        (ctx, cache, ops)
    | (None, _) => st
    end
  else st.

(** [(parentToChildrenNodeMap && parentToChildrenNodeMap.get(node.id)) || []] *)
Definition childrenOf (parentToChildrenNodeMap : option (gmap string (list ChildNode)))
    (nodeData : NodeData) : list ChildNode :=
  match parentToChildrenNodeMap with
  | Some m => default [] (m !! nd_id nodeData)
  | None => []
  end.

(** [drawConnectingLinks(ctx, renderedNodes, parentToChildrenNodeMap,
    mergedStyle, depthStyleCache, overlap, negativeDepthNodes)]: the
    context and the colour cache after the call and the path calls
    made.  A missing [ctx] is [None]; a missing [renderedNodes] does
    what the empty array does. *)
Definition drawConnectingLinks (ctx : option Context2D)
    (renderedNodes : list NodeData)
    (parentToChildrenNodeMap : option (gmap string (list ChildNode)))
    (mergedStyle : option Style) (overlap : Q) (cache : gmap string string)
    : option Context2D * gmap string string * list PathOp :=
  match ctx with
  | None => (None, cache, [])
  | Some ctx =>
      if Qleb 0 overlap || Nat.eqb (List.length renderedNodes) 0
      then (Some ctx, cache, [])
      else
        let '(ctx, cache, ops) :=
          foldl
            (λ st nodeData,
               foldl (drawConnectingLinks_child nodeData mergedStyle) st
                 (childrenOf parentToChildrenNodeMap nodeData))
            (ctx, cache, []) renderedNodes in
        (Some ctx, cache, ops)
  end.

End DrawConnectingLinks.

End DrawLink.

(** ** Vocabulary of the drawLink properties *)

Module DrawLinkSpec.
Import Stdlib.Strings.String CanvasUtils CanvasSpec DrawLink.

(** The same call, with numbers equal as numbers. *)
Definition sameOp (a b : PathOp) : Prop :=
  match a, b with
  | BeginPath, BeginPath => True
  | MoveTo x y, MoveTo x' y' => x == x' ∧ y == y'
  | LineTo x y, LineTo x' y' => x == x' ∧ y == y'
  | Stroke s w, Stroke s' w' => s = s' ∧ w == w'
  | _, _ => False
  end.

Section Links.

Variable Number_toString : Q → string.
Context `{!ResolveDepthStyle}.

(** The path of one link: from the node to the child, stroked in the
    link's colour with its opacity and in its width; nothing when the
    width is not positive or the colour is ['none']. *)
Definition linkPath (nodeData : NodeData) (mergedStyle : option Style)
    (child : ChildNode) : list PathOp :=
  let depthStyle :=
    resolveDepthStyle (nd_depth nodeData) (nd_id nodeData) mergedStyle in
  let width := lineWidth depthStyle mergedStyle in
  let color := lineColor depthStyle mergedStyle in
  let opacity := lineOpacity depthStyle mergedStyle in
  if Qltb 0 width && negb (String.eqb color "none") then
    [BeginPath; MoveTo (nd_x nodeData) (nd_y nodeData);
     LineTo (child_x child) (child_y child);
     Stroke (default ""%string (colorValue Number_toString (Some color) (Some opacity)))
       width]
  else [].

(** The paths of all links, node by node in rendering order, child by
    child in the order of the children array. *)
Definition linkPaths (renderedNodes : list NodeData)
    (parentToChildrenNodeMap : option (gmap string (list ChildNode)))
    (mergedStyle : option Style) : list PathOp :=
  flat_map
    (λ nodeData,
       flat_map (linkPath nodeData mergedStyle)
         (childrenOf parentToChildrenNodeMap nodeData))
    renderedNodes.

End Links.

(** No depth has a style of its own. *)
Definition noDepthStyles : ResolveDepthStyle :=
  {| resolveDepthStyle := λ _ _ _, None |}.

(** A root at the origin with two children, and half-transparent links
    of width 2. *)
Definition exampleNodes : list NodeData := [mkNodeData 0 0 "root" 0].

Definition exampleChildren : gmap string (list ChildNode) :=
  <["root"%string := [mkChildNode 10 0; mkChildNode 0 10]]> ∅.

Definition exampleStyle : Style :=
  mkStyle (Some (mkLinkStyle (Some 2) (Some "#abc"%string) (Some (1 # 2)))).

Definition exampleContext : Context2D :=
  mkContext2D "#000000" "#000000" 1 1 "start" "alphabetic" "10px sans-serif".

End DrawLinkSpec.

(** ** The arithmetic of the source in binary64 *)

(** JavaScript numbers are the binary64 numbers of IEEE 754, which the
    primitive floats are too.  Where a claim turns on what the rationals
    cannot show, a rounded result or the quotient by zero, the
    expressions of the source are written here once more on these
    numbers, to be evaluated on concrete inputs. *)
Module Doubles.
Import PrimFloat.
Local Open Scope float_scope.

(** The rational a finite double stands for, in lowest terms. *)
Definition toQ (f : float) : option Q :=
  match FloatOps.Prim2SF f with
  | SpecFloat.S754_zero _ => Some 0%Q
  | SpecFloat.S754_finite s m e =>
      let r :=
        if (0 <=? e)%Z then inject_Z (Z.pos m * 2 ^ e)
        else Qred (Qmake (Z.pos m) (Z.to_pos (2 ^ (- e)))) in
      Some (if s then (- r)%Q else r)
  | _ => None
  end.

(** Whether the primitive operation [op] gives on [x] and [y] what
    [roundToDouble] gives on the exact result [exact] of the operation
    on the rationals. *)
Definition roundsAs (op : float → float → float) (exact : Q → Q → Q)
    (x y : float) : bool :=
  match toQ x, toQ y, toQ (op x y) with
  | Some a, Some b, Some c => Qeq_bool (roundToDouble (exact a b)) c
  | _, _, _ => false
  end.

(** [t < 0.5 ? 4 * t * t * t : 1 - Math.pow(-2 * t + 2, 3) / 2], with
    [Math.pow(x, 3)] taken as [x * x * x]; on the powers of two of the
    example below both are exact. *)
Definition easeInOutCubic (t : float) : float :=
  if ltb t 0.5 then 4 * t * t * t
  else 1 - ((-2 * t + 2) * (-2 * t + 2) * (-2 * t + 2)) / 2.

(** The claim that the easing function is strictly increasing on
    [0, 1], at [t1] and [t2]. *)
Definition easeStrictlyIncreasing (t1 t2 : float) : Prop :=
  leb 0 t1 = true → ltb t1 t2 = true → leb t2 1 = true →
  ltb (easeInOutCubic t1) (easeInOutCubic t2) = true.

(** [Math.max] and [Math.min], the sign of a zero result aside. *)
Definition Math_max (a b : float) : float :=
  if is_nan a || is_nan b then nan else if ltb a b then b else a.

Definition Math_min (a b : float) : float :=
  if is_nan a || is_nan b then nan else if ltb b a then b else a.

(** What [handleZoom] reads and writes of the state. *)
Record ZoomState := mkZoomState {
  zoomable : bool;
  panX : float;
  panY : float;
  currentZoom : float;
  minZoomLimit : float;
  maxZoomLimit : float
}.

(** [handleZoom(state, zoomFactor, centerX, centerY, width, height,
    scheduleRender)]: what it returns and the state after it; it calls
    [scheduleRender] exactly when it returns [true]. *)
Definition handleZoom (state : ZoomState)
    (zoomFactor centerX centerY width height : float) : bool * ZoomState :=
  if negb (zoomable state) then (false, state) else
  let proposedZoom := currentZoom state * zoomFactor in
  if (ltb (maxZoomLimit state) proposedZoom
      && leb (maxZoomLimit state) (currentZoom state))
     || (ltb proposedZoom (minZoomLimit state)
         && leb (currentZoom state) (minZoomLimit state))
  then (false, state) else
  let newZoom :=
    Math_max (minZoomLimit state) (Math_min (maxZoomLimit state) proposedZoom) in
  let canvasCenterX := width / 2 in
  let canvasCenterY := height / 2 in
  let worldX := (centerX - canvasCenterX - panX state) / currentZoom state in
  let worldY := (centerY - canvasCenterY - panY state) / currentZoom state in
  (true,
   mkZoomState (zoomable state)
     (centerX - canvasCenterX - worldX * newZoom)
     (centerY - canvasCenterY - worldY * newZoom)
     newZoom (minZoomLimit state) (maxZoomLimit state)).


(** The doubles nearest to 1.4 and to 4.8. *)
Definition nearest_1_4 : float := 0x1.6666666666666p+0.
Definition nearest_4_8 : float := 0x1.3333333333333p+2.

(** The double [1 - 2^-30], below 1. *)
Definition justBelowOne : float := 1 - 0x1p-30.

(** A view zoomed out to nothing, as a pinch that brings two fingers
    together leaves it when the lower zoom limit is 0. *)
Definition zoomedOut : ZoomState := mkZoomState true 0 0 0 0 4.

(** The factor of a wheel step inwards, the double nearest to 1.1. *)
Definition wheelIn : float := 0x1.199999999999ap+0.

End Doubles.

(** * Properties *)

(** ** Number comparisons *)

Lemma Qltb_lt (a b : Q) : Qltb a b = true ↔ a < b.
Proof.
  unfold Qltb. rewrite negb_true_iff, <- not_true_iff_false, Qle_bool_iff.
  split; [apply Qnot_le_lt | apply Qlt_not_le].
Qed.

Lemma Qltb_ge (a b : Q) : Qltb a b = false ↔ b <= a.
Proof. unfold Qltb. rewrite negb_false_iff. apply Qle_bool_iff. Qed.

Lemma Math_pow_3 (b : Q) : Math_pow b 3 == b * b * b.
Proof. unfold Math_pow. simpl. ring. Qed.

(** ** Rounding *)

Section RoundingOfDoubles.
Import PrimFloat.
Local Open Scope float_scope.

(** [roundToDouble] against the arithmetic of the primitive doubles:
    inexact sums, products and quotients, results halfway between two
    doubles, which go to the even one, and subnormal results. *)
Example roundToDouble_as_doubles :
  Doubles.roundsAs add Qplus (1 / 10) (2 / 10) = true ∧
  Doubles.roundsAs sub Qminus (3 / 10) (1 / 10) = true ∧
  Doubles.roundsAs mul Qmult Doubles.wheelIn Doubles.wheelIn = true ∧
  Doubles.roundsAs mul Qmult Doubles.nearest_1_4 Doubles.nearest_1_4 = true ∧
  Doubles.roundsAs mul Qmult Doubles.nearest_4_8 Doubles.nearest_4_8 = true ∧
  Doubles.roundsAs div Qdiv 1 3 = true ∧
  Doubles.roundsAs div Qdiv (-2) 3 = true ∧
  Doubles.roundsAs add Qplus 1 0x1p-53 = true ∧
  Doubles.roundsAs add Qplus 1 0x3p-53 = true ∧
  Doubles.roundsAs sub Qminus 1 0x1p-88 = true ∧
  Doubles.roundsAs div Qdiv 0x1p-1074 2 = true ∧
  Doubles.roundsAs div Qdiv 0x3p-1074 2 = true ∧
  Doubles.roundsAs mul Qmult 0x1p-600 0x1.8p-470 = true.
Proof. vm_compute. repeat split; reflexivity. Qed.

End RoundingOfDoubles.

(** ** The easing curve *)

Section Easing.
Import CollapseAnimation.

Lemma ease_first_half (t : Q) : t < 1 # 2 → easeInOutCubic t == 4 * t * t * t.
Proof.
  intros Ht. unfold easeInOutCubic.
  apply Qltb_lt in Ht. rewrite Ht. reflexivity.
Qed.

Lemma ease_second_half (t : Q) :
  1 # 2 <= t → easeInOutCubic t == 1 - 4 * (1 - t) * (1 - t) * (1 - t).
Proof.
  intros Ht. unfold easeInOutCubic.
  apply Qltb_ge in Ht. rewrite Ht, Math_pow_3. field.
Qed.

Lemma cube_lt (a b : Q) : 0 <= a → a < b → a * a * a < b * b * b.
Proof.
  intros Ha Hab.
  assert (H1 : 0 < b - a) by lra.
  assert (H2 : 0 < b) by lra.
  assert (H3 : 0 <= a * a) by nra.
  assert (H4 : 0 <= a * b) by nra.
  assert (H5 : 0 < b * b) by nra.
  assert (H6 : 0 < (b - a) * (b * b + a * b + a * a)) by nra.
  lra.
Qed.

Lemma cube_lt_eighth (a : Q) : 0 <= a → a < 1 # 2 → a * a * a < 1 # 8.
Proof.
  intros Ha Hlt. pose proof (cube_lt a (1 # 2) Ha Hlt) as H. lra.
Qed.

Lemma cube_le_eighth (a : Q) : 0 <= a → a <= 1 # 2 → a * a * a <= 1 # 8.
Proof.
  intros Ha Hle. destruct (Qlt_le_dec a (1 # 2)) as [Hlt | Hge].
  - apply Qlt_le_weak, cube_lt_eighth; assumption.
  - assert (Heq : a == 1 # 2) by lra. rewrite Heq. discriminate.
Qed.

Lemma cube_nonneg (a : Q) : 0 <= a → 0 <= a * a * a.
Proof. intros Ha. assert (0 <= a * a) by nra. nra. Qed.

Lemma ease_range (t : Q) : 0 <= t <= 1 → 0 <= easeInOutCubic t <= 1.
Proof.
  intros [H0 H1]. destruct (Qlt_le_dec t (1 # 2)) as [Hlt | Hge].
  - rewrite (ease_first_half t Hlt).
    pose proof (cube_nonneg t H0). pose proof (cube_lt_eighth t H0 Hlt). lra.
  - rewrite (ease_second_half t Hge).
    assert (Hu : 0 <= 1 - t) by lra. assert (Hu' : 1 - t <= 1 # 2) by lra.
    pose proof (cube_nonneg _ Hu). pose proof (cube_le_eighth _ Hu Hu'). lra.
Qed.

Lemma ease_strictly_increasing (t1 t2 : Q) :
  0 <= t1 → t1 < t2 → t2 <= 1 → easeInOutCubic t1 < easeInOutCubic t2.
Proof.
  intros H0 Hlt H1.
  destruct (Qlt_le_dec t1 (1 # 2)) as [Ha | Ha];
    destruct (Qlt_le_dec t2 (1 # 2)) as [Hb | Hb].
  - rewrite (ease_first_half t1 Ha), (ease_first_half t2 Hb).
    pose proof (cube_lt t1 t2 H0 Hlt). lra.
  - rewrite (ease_first_half t1 Ha), (ease_second_half t2 Hb).
    pose proof (cube_lt_eighth t1 H0 Ha).
    assert (Hu : 0 <= 1 - t2) by lra. assert (Hu' : 1 - t2 <= 1 # 2) by lra.
    pose proof (cube_le_eighth _ Hu Hu'). lra.
  - lra.
  - rewrite (ease_second_half t1 Ha), (ease_second_half t2 Hb).
    assert (Hu : 0 <= 1 - t2) by lra. assert (Hu' : 1 - t2 < 1 - t1) by lra.
    pose proof (cube_lt _ _ Hu Hu'). lra.
Qed.

Lemma ease_accelerates (t : Q) : 0 < t → t < 1 # 2 → easeInOutCubic t < t.
Proof.
  intros H0 Hlt. rewrite (ease_first_half t Hlt).
  assert (H : 0 < t * ((1 # 2) - t) * ((1 # 2) + t)) by
    (apply Qmult_lt_0_compat; [apply Qmult_lt_0_compat |]; lra).
  nra.
Qed.

Lemma ease_decelerates (t : Q) : 1 # 2 < t → t < 1 → t < easeInOutCubic t.
Proof.
  intros Hgt H1. rewrite (ease_second_half t (Qlt_le_weak _ _ Hgt)).
  assert (H : 0 < (1 - t) * ((1 # 2) - (1 - t)) * ((1 # 2) + (1 - t))) by
    (apply Qmult_lt_0_compat; [apply Qmult_lt_0_compat |]; lra).
  nra.
Qed.

Lemma ease_non_decreasing (t1 t2 : Q) :
  0 <= t1 → t1 <= t2 → t2 <= 1 → easeInOutCubic t1 <= easeInOutCubic t2.
Proof.
  intros H0 Hle H1. destruct (Qlt_le_dec t1 t2) as [Hlt | Hge].
  - apply Qlt_le_weak, ease_strictly_increasing; assumption.
  - assert (Heq : t1 == t2) by lra.
    destruct (Qlt_le_dec t1 (1 # 2)) as [Ha | Ha].
    + rewrite (ease_first_half t1 Ha), (ease_first_half t2) by lra.
      rewrite Heq. apply Qle_refl.
    + rewrite (ease_second_half t1 Ha), (ease_second_half t2) by lra.
      rewrite Heq. apply Qle_refl.
Qed.

(** C9 (as the code has it).  The easing function fixes 0, 1/2 and 1,
    maps [0,1] into [0,1], never decreases on [0,1], lies below the
    identity on (0, 1/2) and above it on (1/2, 1).  Between two
    different arguments the values need not differ: the doubles the
    code computes with are equal at [1 - 2^-30] and at 1, which
    [ease_flat_below_one] evaluates. *)
Theorem easeInOutCubic_shape :
  easeInOutCubic 0 == 0 ∧ easeInOutCubic 1 == 1 ∧
  easeInOutCubic (1 # 2) == 1 # 2 ∧
  (∀ t, 0 <= t <= 1 → 0 <= easeInOutCubic t <= 1) ∧
  (∀ t1 t2, 0 <= t1 → t1 <= t2 → t2 <= 1 → easeInOutCubic t1 <= easeInOutCubic t2) ∧
  (∀ t, 0 < t → t < 1 # 2 → easeInOutCubic t < t) ∧
  (∀ t, 1 # 2 < t → t < 1 → t < easeInOutCubic t).
Proof.
  split; [reflexivity |]. split; [reflexivity |]. split; [reflexivity |].
  split; [exact ease_range |]. split; [exact ease_non_decreasing |].
  split; [exact ease_accelerates | exact ease_decelerates].
Qed.

(** The curve at the sample points of the repository's tests. *)
Lemma easeInOutCubic_shape_witness :
  easeInOutCubic (1 # 4) <= easeInOutCubic (3 # 4) ∧
  easeInOutCubic (1 # 4) < 1 # 4 ∧ 3 # 4 < easeInOutCubic (3 # 4) ∧
  0 <= easeInOutCubic (3 # 4) <= 1.
Proof.
  destruct easeInOutCubic_shape as (_ & _ & _ & Hr & Hm & Ha & Hd).
  split; [apply Hm; lra |]. split; [apply Ha; lra |].
  split; [apply Hd; lra | apply Hr; lra].
Defined.

(** C9, as the specification states it, fails on the numbers of the
    code: [1 - 2^-30 < 1], and the easing function returns 1 at both,
    since [1 - 2^-88] rounds to 1. *)
Lemma ease_flat_below_one :
  ¬ Doubles.easeStrictlyIncreasing Doubles.justBelowOne PrimFloat.one.
Proof.
  intros H. specialize (H eq_refl eq_refl eq_refl).
  vm_compute in H. discriminate H.
Qed.

End Easing.

(** ** Descendant traversal *)

Section Descendants.
Import CollapseAnimation.

Variable m : gmap string (list Child).

Lemma pushChildren_spec (children : list Child) (d s : list string) :
  pushChildren children d s
  = (d ++ map childId children, rev (map childId children) ++ s).
Proof.
  revert d s. induction children as [| c cs IH]; intros d s; simpl.
  - by rewrite app_nil_r.
  - rewrite IH. f_equal; by rewrite <- app_assoc.
Qed.

Lemma elem_of_rev (k : string) (l : list string) : k ∈ rev l ↔ k ∈ l.
Proof. rewrite !list_elem_of_In. symmetry. apply in_rev. Qed.

Lemma edge_child (p : string) (children : list Child) (k : string) :
  m !! p = Some children → k ∈ map childId children → edge m p k.
Proof.
  intros Hp Hk. apply list_elem_of_In, in_map_iff in Hk as (c & <- & Hc).
  exists children, c. by rewrite list_elem_of_In.
Qed.

(** Whatever the loop adds to [descendants] is reachable, along at least
    one edge, from an id that was on the stack. *)
Lemma getDescendantIds_loop_sound (fuel : nat) :
  ∀ d s r, getDescendantIds_loop fuel m d s = Some r →
  ∀ k, k ∈ r → k ∈ d ∨ ∃ p, p ∈ s ∧ tc (edge m) p k.
Proof.
  induction fuel as [| fuel IH]; intros d s r Hr k Hk;
    destruct s as [| cur s']; simpl in Hr; try discriminate.
  - left. congruence.
  - left. congruence.
  - destruct (m !! cur) as [children |] eqn:Hcur.
    + rewrite pushChildren_spec in Hr.
      destruct (IH _ _ _ Hr k Hk) as [Hin | (p & Hp & Hpk)].
      * apply elem_of_app in Hin as [Hin | Hin]; [by left |].
        right. exists cur. split; [left |].
        apply tc_once. by eapply edge_child.
      * right. apply elem_of_app in Hp as [Hp | Hp].
        -- exists cur. split; [left |].
           eapply tc_l; [| exact Hpk].
           eapply edge_child; [exact Hcur |].
           by apply elem_of_rev.
        -- exists p. split; [by right | done].
    + destruct (IH _ _ _ Hr k Hk) as [Hin | (p & Hp & Hpk)]; [by left |].
      right. exists p. split; [by right | done].
Qed.

Lemma getDescendantIds_sound (fuel : nat) (nodeId : string) (ds : list string) :
  getDescendantIds fuel nodeId m = Some ds →
  ∀ k, k ∈ ds → tc (edge m) nodeId k.
Proof.
  intros Hds k Hk.
  destruct (getDescendantIds_loop_sound _ _ _ _ Hds k Hk) as [Hin | (p & Hp & Hpk)].
  - by apply elem_of_nil in Hin.
  - by apply list_elem_of_singleton in Hp as ->.
Qed.

(** More fuel does not change a result. *)
Lemma getDescendantIds_loop_fuel (fuel : nat) :
  ∀ d s r k, getDescendantIds_loop fuel m d s = Some r →
  getDescendantIds_loop (fuel + k) m d s = Some r.
Proof.
  induction fuel as [| fuel IH]; intros d s r k Hr;
    destruct s as [| cur s']; simpl in *; try discriminate.
  - by destruct k.
  - done.
  - destruct (m !! cur) as [children |]; [| by apply IH].
    destruct (pushChildren children d s'). by apply IH.
Qed.

Lemma unwinds_stack (l : list string) :
  (∀ k, k ∈ l → unwinds m k) →
  ∀ d s, ∃ n r, ∀ f,
    getDescendantIds_loop (n + f) m d (l ++ s) = getDescendantIds_loop f m (d ++ r) s.
Proof.
  induction l as [| k l IH]; intros Hl d s.
  - exists 0%nat, []. intros f. by rewrite app_nil_r.
  - destruct (Hl k (list_elem_of_here _ _) d (l ++ s)) as (n1 & r1 & H1).
    destruct (IH (λ k' Hk', Hl k' (list_elem_of_further _ _ _ Hk')) (d ++ r1) s)
      as (n2 & r2 & H2).
    exists (n1 + n2)%nat, (r1 ++ r2). intros f.
    rewrite <- Nat.add_assoc. simpl. rewrite H1, H2. by rewrite app_assoc.
Qed.

Lemma sn_unwinds (k : string) : sn (edge m) k → unwinds m k.
Proof.
  induction 1 as [k _ IH]. intros d s.
  destruct (m !! k) as [children |] eqn:Hk.
  - destruct (unwinds_stack (rev (map childId children))) with
      (d := d ++ map childId children) (s := s) as (n & r & Hn).
    { intros k' Hk'. apply IH. simpl.
      eapply edge_child; [exact Hk |]. by apply elem_of_rev. }
    exists (S n), (map childId children ++ r). intros f. simpl.
    rewrite Hk, pushChildren_spec, Hn. by rewrite app_assoc.
  - exists 1%nat, []. intros f. simpl. by rewrite Hk, app_nil_r.
Qed.

Lemma edge_allChildIds (p k : string) : edge m p k → k ∈ allChildIds m.
Proof.
  intros (children & c & Hp & Hc & ->). unfold allChildIds.
  apply list_elem_of_In, in_concat. exists (map childId children). split.
  - apply in_map_iff. exists (p, children). split; [done |].
    by apply list_elem_of_In, elem_of_map_to_list.
  - apply in_map. by apply list_elem_of_In.
Qed.

Lemma tc_edge_allChildIds (p k : string) : tc (edge m) p k → k ∈ allChildIds m.
Proof. induction 1; eauto using edge_allChildIds. Qed.

Lemma acyclic_sn (k : string) : acyclic m → sn (edge m) k.
Proof.
  intros Hac. apply tc_finite_sn.
  - intros n Hn. exact (Hac n Hn).
  - exists (allChildIds m). intros k'. apply tc_edge_allChildIds.
Qed.

(** On an acyclic map the traversal returns. *)
Lemma getDescendantIds_total (nodeId : string) :
  acyclic m → ∃ fuel0 ds, ∀ fuel, (fuel0 ≤ fuel)%nat →
    getDescendantIds fuel nodeId m = Some ds.
Proof.
  intros Hac.
  destruct (sn_unwinds nodeId (acyclic_sn nodeId Hac) [] []) as (n & r & Hn).
  exists n, r. intros fuel Hle. unfold getDescendantIds.
  replace fuel with (n + (fuel - n))%nat by lia. rewrite Hn.
  by destruct (fuel - n)%nat.
Qed.

End Descendants.

(** ** Position overrides *)

Section Overrides.
Import CollapseAnimation.

Variable m : gmap string (list Child).
Variable rmap : gmap string Position.

Lemma setOverrides_lookup (a : Position) (ds : list string) :
  ∀ ov k, setOverrides a ds ov !! k
          = if decide (k ∈ ds) then Some (anchorOf a) else ov !! k.
Proof.
  unfold setOverrides, anchorOf.
  induction ds as [| d ds IH]; intros ov k; cbn [foldl].
  - rewrite decide_False; [done | apply not_elem_of_nil].
  - rewrite IH. destruct (decide (k ∈ ds)) as [Hin | Hnin].
    + rewrite decide_True; [done | by right].
    + destruct (decide (k = d)) as [-> | Hne].
      * rewrite decide_True; [| left]. by rewrite lookup_insert_eq.
      * rewrite decide_False; [by rewrite lookup_insert_ne |].
        intros [? | ?]%elem_of_cons; done.
Qed.

Lemma loop_app (fuel : nat) (l1 l2 : list string) :
  ∀ ov, computeCollapsedPositions_loop fuel (l1 ++ l2) m rmap ov
        = computeCollapsedPositions_loop fuel l1 m rmap ov
          ≫= computeCollapsedPositions_loop fuel l2 m rmap.
Proof.
  induction l1 as [| c l1 IH]; intros ov; simpl; [done |].
  destruct (rmap !! c); [| by apply IH].
  destruct (getDescendantIds fuel c m); [by apply IH | done].
Qed.

(** Passes of collapsed nodes that do not have [k] among their
    descendants leave the override of [k] as it was. *)
Lemma loop_untouched (fuel : nat) (k : string) (post : list string) :
  (∀ c a ds, c ∈ post → rmap !! c = Some a →
             getDescendantIds fuel c m = Some ds → k ∉ ds) →
  ∀ ov0 ov, computeCollapsedPositions_loop fuel post m rmap ov0 = Some ov →
  ov !! k = ov0 !! k.
Proof.
  induction post as [| c post IH]; intros Hpost ov0 ov Hov; simpl in Hov.
  - congruence.
  - assert (Hpost' : ∀ c' a ds, c' ∈ post → rmap !! c' = Some a →
              getDescendantIds fuel c' m = Some ds → k ∉ ds).
    { intros c' a ds Hc'. apply Hpost. by right. }
    destruct (rmap !! c) as [a |] eqn:Hc; [| by apply IH].
    destruct (getDescendantIds fuel c m) as [ds |] eqn:Hds; [| done].
    rewrite (IH Hpost' _ _ Hov), setOverrides_lookup.
    rewrite decide_False; [done |]. eapply Hpost; [left | done..].
Qed.

Lemma later_pass_wins (fuel : nat) (pre post : list string) (c k : string)
    (a : Position) (ds : list string) (ov : gmap string Position) :
  computeCollapsedPositions fuel (pre ++ c :: post) m rmap = Some ov →
  rmap !! c = Some a →
  getDescendantIds fuel c m = Some ds →
  k ∈ ds →
  (∀ c' a' ds', c' ∈ post → rmap !! c' = Some a' →
               getDescendantIds fuel c' m = Some ds' → k ∉ ds') →
  ov !! k = Some (anchorOf a).
Proof.
  unfold computeCollapsedPositions. intros Hov Hc Hds Hk Hpost.
  rewrite loop_app in Hov.
  destruct (computeCollapsedPositions_loop fuel pre m rmap ∅) as [ov1 |];
    [| done].
  simpl in Hov. rewrite Hc, Hds in Hov.
  rewrite (loop_untouched fuel k post Hpost _ _ Hov), setOverrides_lookup.
  by rewrite decide_True.
Qed.

Lemma missing_anchor_skipped (fuel : nat) (pre post : list string) (c : string) :
  rmap !! c = None →
  computeCollapsedPositions fuel (pre ++ c :: post) m rmap
  = computeCollapsedPositions fuel (pre ++ post) m rmap.
Proof.
  unfold computeCollapsedPositions. intros Hc. rewrite !loop_app.
  destruct (computeCollapsedPositions_loop fuel pre m rmap ∅); [| done].
  simpl. by rewrite Hc.
Qed.

Lemma computeCollapsedPositions_loop_total (ids : list string) :
  acyclic m →
  ∃ fuel0, ∀ ov0, ∃ ov, ∀ fuel, (fuel0 ≤ fuel)%nat →
    computeCollapsedPositions_loop fuel ids m rmap ov0 = Some ov.
Proof.
  intros Hac. induction ids as [| c ids (n1 & IH)].
  - exists 0%nat. intros ov0. by exists ov0.
  - destruct (getDescendantIds_total m c Hac) as (n2 & ds & Hds).
    exists (n1 `max` n2)%nat. intros ov0. simpl.
    destruct (rmap !! c) as [a |].
    + destruct (IH (setOverrides a ds ov0)) as (ov & Hov). exists ov.
      intros fuel Hle. rewrite Hds by lia. apply Hov. lia.
    + destruct (IH ov0) as (ov & Hov). exists ov.
      intros fuel Hle. apply Hov. lia.
Qed.

End Overrides.

Section CollapseClaims.
Import CollapseAnimation.

(** C6.  In [computeCollapsedPositions] the pass of a collapsed node with
    a rendered position overwrites, for each of its descendants, whatever
    an earlier pass assigned: a descendant of several collapsed nodes ends
    with the anchor of the one processed last.  A collapsed id without a
    rendered position contributes nothing, so collapsing only such an id
    gives the empty map.  On an acyclic map the function returns. *)
Theorem computeCollapsedPositions_later_wins
    (m : gmap string (list Child)) (rmap : gmap string Position) :
  (∀ fuel pre c post a ds k ov,
     computeCollapsedPositions fuel (pre ++ c :: post) m rmap = Some ov →
     rmap !! c = Some a →
     getDescendantIds fuel c m = Some ds → k ∈ ds →
     (∀ c' a' ds', c' ∈ post → rmap !! c' = Some a' →
                  getDescendantIds fuel c' m = Some ds' → k ∉ ds') →
     ov !! k = Some (mkPosition (x a) (y a))) ∧
  (∀ fuel c1 c2 a1 a2 ds1 ds2 k,
     rmap !! c1 = Some a1 → rmap !! c2 = Some a2 →
     getDescendantIds fuel c1 m = Some ds1 →
     getDescendantIds fuel c2 m = Some ds2 →
     k ∈ ds1 → k ∈ ds2 →
     ∃ ov, computeCollapsedPositions fuel [c1; c2] m rmap = Some ov ∧
           ov !! k = Some (mkPosition (x a2) (y a2))) ∧
  (∀ fuel pre c post,
     rmap !! c = None →
     computeCollapsedPositions fuel (pre ++ c :: post) m rmap
     = computeCollapsedPositions fuel (pre ++ post) m rmap) ∧
  (∀ fuel c,
     rmap !! c = None → computeCollapsedPositions fuel [c] m rmap = Some ∅) ∧
  (acyclic m → ∀ ids, ∃ fuel0 ov, ∀ fuel, (fuel0 ≤ fuel)%nat →
     computeCollapsedPositions fuel ids m rmap = Some ov).
Proof.
  split; [| split; [| split; [| split]]].
  - intros fuel pre c post a ds k ov. apply later_pass_wins.
  - intros fuel c1 c2 a1 a2 ds1 ds2 k H1 H2 Hd1 Hd2 _ Hk.
    assert (Hov : computeCollapsedPositions fuel ([c1] ++ c2 :: []) m rmap
                  = Some (setOverrides a2 ds2 (setOverrides a1 ds1 ∅))).
    { unfold computeCollapsedPositions. simpl. by rewrite H1, Hd1, H2, Hd2. }
    eexists. split; [exact Hov |].
    eapply later_pass_wins; [exact Hov | done.. |].
    intros c' a' ds' Hc'. by apply elem_of_nil in Hc'.
  - intros fuel pre c post. apply missing_anchor_skipped.
  - intros fuel c Hc. unfold computeCollapsedPositions. simpl. by rewrite Hc.
  - intros Hac ids.
    destruct (computeCollapsedPositions_loop_total m rmap ids Hac) as (n & Hn).
    destruct (Hn ∅) as (ov & Hov). by exists n, ov.
Qed.

(** Collapsing [root] and then [a] in the tree of the tests leaves [c] at
    [a]; in the other order it ends at [root]; an unknown id gives the
    empty map. *)
Lemma computeCollapsedPositions_later_wins_witness :
  (∃ ov, computeCollapsedPositions 10 ["root"; "a"]%string
           TestTree.parentToChildrenNodeMap TestTree.nodeIdToRenderedNodeMap = Some ov ∧
         ov !! "c"%string = Some (mkPosition 200 200)) ∧
  (∃ ov, computeCollapsedPositions 10 ["a"; "root"]%string
           TestTree.parentToChildrenNodeMap TestTree.nodeIdToRenderedNodeMap = Some ov ∧
         ov !! "c"%string = Some (mkPosition 100 100)) ∧
  computeCollapsedPositions 0 ["nonexistent"]%string
    TestTree.parentToChildrenNodeMap TestTree.nodeIdToRenderedNodeMap = Some ∅.
Proof.
  destruct (computeCollapsedPositions_later_wins
              TestTree.parentToChildrenNodeMap TestTree.nodeIdToRenderedNodeMap)
    as (_ & Htwo & _ & Hnone & _).
  split; [| split].
  - apply (Htwo 10%nat "root" "a" (mkPosition 100 100) (mkPosition 200 200)
             ["a"; "b"; "e"; "c"; "d"] ["c"; "d"] "c")%string;
      first [ vm_compute; reflexivity | apply list_elem_of_In; simpl; tauto ].
  - apply (Htwo 10%nat "a" "root" (mkPosition 200 200) (mkPosition 100 100)
             ["c"; "d"] ["a"; "b"; "e"; "c"; "d"] "c")%string;
      first [ vm_compute; reflexivity | apply list_elem_of_In; simpl; tauto ].
  - apply Hnone. vm_compute. reflexivity.
Defined.

(** C10.  On an acyclic map the traversal returns and its result does not
    contain the queried id; so collapsing a single node gives overrides
    only to ids reachable from it along at least one edge, never to the
    node itself. *)
Theorem getDescendantIds_excludes_self
    (nodeId : string) (m : gmap string (list Child)) (rmap : gmap string Position) :
  acyclic m →
  (∃ fuel0 ds ov, ∀ fuel, (fuel0 ≤ fuel)%nat →
     getDescendantIds fuel nodeId m = Some ds ∧
     computeCollapsedPositions fuel [nodeId] m rmap = Some ov) ∧
  (∀ fuel ds, getDescendantIds fuel nodeId m = Some ds → nodeId ∉ ds) ∧
  (∀ fuel ov, computeCollapsedPositions fuel [nodeId] m rmap = Some ov →
     ov !! nodeId = None ∧
     ∀ k, is_Some (ov !! k) →
          ∃ ds, getDescendantIds fuel nodeId m = Some ds ∧ k ∈ ds ∧ k ≠ nodeId).
Proof.
  intros Hac.
  assert (Hself : ∀ fuel ds, getDescendantIds fuel nodeId m = Some ds → nodeId ∉ ds).
  { intros fuel ds Hds Hin. apply (Hac nodeId).
    by eapply getDescendantIds_sound. }
  split; [| split; [exact Hself |]].
  - destruct (getDescendantIds_total m nodeId Hac) as (n1 & ds & Hds).
    destruct (computeCollapsedPositions_loop_total m rmap [nodeId] Hac) as (n2 & Hn2).
    destruct (Hn2 ∅) as (ov & Hov).
    exists (n1 `max` n2)%nat, ds, ov. intros fuel Hle. split.
    + apply Hds. lia.
    + apply Hov. lia.
  - unfold computeCollapsedPositions. simpl. intros fuel ov Hov.
    destruct (rmap !! nodeId) as [a |].
    + destruct (getDescendantIds fuel nodeId m) as [ds |] eqn:Hds; [| done].
      injection Hov as <-. split.
      * rewrite setOverrides_lookup, decide_False; [done | by eapply Hself].
      * intros k Hk. exists ds. rewrite setOverrides_lookup in Hk.
        destruct (decide (k ∈ ds)) as [Hin | Hnin].
        -- split; [done |]. split; [done |]. intros ->. by eapply Hself.
        -- rewrite lookup_empty in Hk. by destruct Hk.
    + injection Hov as <-. split; [done |].
      intros k Hk. rewrite lookup_empty in Hk. by destruct Hk.
Qed.

End CollapseClaims.

(** ** Running the handlers *)

Lemma Qleb_le (a b : Q) : Qleb a b = true ↔ a <= b.
Proof. apply Qle_bool_iff. Qed.

#[local] Arguments Qltb : simpl never.
#[local] Arguments Qleb : simpl never.
#[local] Arguments Qmax : simpl never.
#[local] Arguments Qmin : simpl never.
#[local] Arguments Qplus : simpl never.
#[local] Arguments Qminus : simpl never.
#[local] Arguments Qmult : simpl never.
#[local] Arguments Qdiv : simpl never.

Import MouseHandlers HitTests GestureSpec.

Ltac unfold_monad :=
  unfold callFindHoveredNode, callFindHoveredLeafByVoronoi,
    scheduleRender, preventDefault in *;
  unfold mbind, M_bind, mret, M_ret, get, update, call, throw in *.

Ltac unfold_handlers :=
  unfold dispatch, handleMouseMove, handleMouseDown, handleMouseUp,
    handleMouseLeave, handleWheel, handleTouchStart, handleTouchMove,
    handleTouchEnd, handleHoverDetection, handlePanning,
    handleZoom, getEventCoordinates in *;
  unfold_monad.

(** Case analysis on everything a handler branches on, innermost
    conditions first. *)
Ltac split_innermost :=
  match goal with
  | |- context [match ?c with _ => _ end] =>
      lazymatch c with
      | context [match _ with _ => _ end] => fail
      | _ => destruct c eqn:?
      end
  end.

Ltac split_cases := repeat (cbn; split_innermost).

(** ** Zoom *)

Section Zoom.

(** C4.  A zoom whose proposed value lies beyond a limit the current
    zoom has already reached is rejected: [handleZoom] returns [false],
    leaves every state field as it was and makes no call, in particular
    not to [scheduleRender]. *)
Theorem handleZoom_rejected_at_limit
    (s : State) (t : list Effect) (zoomFactor centerX centerY width height : Q) :
  (maxZoomLimit s < currentZoom s * zoomFactor ∧ maxZoomLimit s <= currentZoom s)
  ∨ (currentZoom s * zoomFactor < minZoomLimit s ∧ currentZoom s <= minZoomLimit s) →
  handleZoom zoomFactor centerX centerY width height s t = Normal false s t.
Proof.
  intros Hlimit. unfold handleZoom. unfold_monad.
  destruct (zoomable s); cbn; [| reflexivity].
  assert (Hcond :
    Qltb (maxZoomLimit s) (currentZoom s * zoomFactor)
      && Qleb (maxZoomLimit s) (currentZoom s)
    || Qltb (currentZoom s * zoomFactor) (minZoomLimit s)
      && Qleb (currentZoom s) (minZoomLimit s) = true).
  { apply orb_true_iff.
    destruct Hlimit as [[H1 H2] | [H1 H2]]; [left | right];
      apply andb_true_iff; split;
      first [by apply Qltb_lt | by apply Qleb_le]. }
  by rewrite Hcond.
Qed.

Lemma handleZoom_rejected_at_limit_witness :
  handleZoom (11 # 10) 10 20 800 600 (set_currentZoom 4 idleState) []
  = Normal false (set_currentZoom 4 idleState) [].
Proof.
  apply handleZoom_rejected_at_limit. left. split; vm_compute; congruence.
Defined.

(** What an applied zoom does to the state. *)
Lemma handleZoom_applied (s s' : State) (t t' : list Effect)
    (zoomFactor centerX centerY width height : Q) :
  handleZoom zoomFactor centerX centerY width height s t = Normal true s' t' →
  let newZoom := clampZoom s zoomFactor in
  let worldX := (centerX - width / 2 - panX s) / currentZoom s in
  let worldY := (centerY - height / 2 - panY s) / currentZoom s in
  s' = set_currentZoom newZoom
         (set_panY (centerY - height / 2 - worldY * newZoom)
            (set_panX (centerX - width / 2 - worldX * newZoom) s))
  ∧ t' = t ++ [ScheduleRender].
Proof.
  unfold handleZoom. unfold_monad.
  destruct (zoomable s); cbn; [| discriminate].
  match goal with |- context [if ?c then _ else _] => destruct c end;
    [discriminate |].
  intros [= <- <-]. done.
Qed.

Lemma handleZoom_outcome (s : State) (t : list Effect)
    (zoomFactor cx cy width height : Q) :
  handleZoom zoomFactor cx cy width height s t = Normal false s t
  ∨ ∃ s', handleZoom zoomFactor cx cy width height s t
          = Normal true s' (t ++ [ScheduleRender])
          ∧ minZoomLimit s' = minZoomLimit s
          ∧ maxZoomLimit s' = maxZoomLimit s
          ∧ lastTouchDistance s' = lastTouchDistance s
          ∧ currentZoom s' = clampZoom s zoomFactor
          ∧ (¬ currentZoom s == 0 → focalPointFixed s s' cx cy width height).
Proof.
  unfold handleZoom. unfold_monad.
  destruct (zoomable s); cbn; [| by left].
  match goal with |- context [if ?c then _ else _] => destruct c end;
    [by left |].
  right. eexists. split; [reflexivity |]. cbn.
  do 4 (split; [reflexivity |]).
  intros Hold. unfold focalPointFixed. cbn. split; field; exact Hold.
Qed.



Section ZoomFromZero.
Import PrimFloat.
Local Open Scope float_scope.


(** Zoom 0 is where a pinch that brings the two fingers together, factor
    0, takes the default view when the lower limit is 0; the wheel step
    after it is applied and leaves a pan that is NaN. *)
Example pinch_together_then_wheel :
  Doubles.handleZoom (Doubles.mkZoomState true 0 0 1 0 4) 0 400 300 800 600
    = (true, Doubles.zoomedOut) ∧
  let r := Doubles.handleZoom Doubles.zoomedOut Doubles.wheelIn 600 450 800 600 in
  r.1 = true ∧ is_nan (Doubles.panX r.2) = true ∧ is_nan (Doubles.panY r.2) = true.
Proof. vm_compute. repeat split; reflexivity. Qed.

End ZoomFromZero.

(** *** The zoom limits as an invariant of the event queue *)

Lemma clampZoom_within (s : State) (zoomFactor : Q) :
  minZoomLimit s <= maxZoomLimit s →
  minZoomLimit s <= clampZoom s zoomFactor <= maxZoomLimit s.
Proof.
  intros Hle. unfold clampZoom. split.
  - apply Q.le_max_l.
  - apply Q.max_lub; [exact Hle | apply Q.le_min_l].
Qed.

Section Queue.
Context `{!DrawNode} `{!VoronoiHover} `{!MathSqrt} `{!Rounding}.

Lemma other_handlers_keep_zoom (width height : Q) (ev : GestureEvent)
    (s : State) (t : list Effect) :
  isZoomGesture ev = false →
  let s' := stateOf (dispatch width height ev s t) in
  sameLimits s s' ∧ currentZoom s' = currentZoom s.
Proof.
  intros Hev. destruct ev; try discriminate Hev;
    unfold_handlers; split_cases; cbn; done.
Qed.

Ltac split_zoom_cases :=
  repeat (cbn;
          match goal with
          | |- context [handleZoom ?f ?x ?y ?w ?h ?s ?t] =>
              destruct (handleZoom_outcome s t f x y w h)
                as [-> | (? & -> & ? & ? & ? & ? & ?)]
          | _ => split_innermost
          end).

Lemma zoom_gestures_clamp (width height : Q) (ev : GestureEvent)
    (s : State) (t : list Effect) :
  isZoomGesture ev = true →
  let s' := stateOf (dispatch width height ev s t) in
  sameLimits s s' ∧
  (currentZoom s' = currentZoom s ∨
   ∃ zoomFactor, currentZoom s' = clampZoom s zoomFactor).
Proof.
  intros Hev. destruct ev; try discriminate Hev;
    unfold dispatch, handleWheel, handleTouchMove, handlePanning,
      getEventCoordinates; unfold_monad;
    split_zoom_cases; cbn; unfold sameLimits; eauto.
Qed.

Lemma dispatch_keeps_invariant (width height : Q) (ev : GestureEvent)
    (s : State) (t : list Effect) :
  zoomWithinLimits s →
  zoomWithinLimits (stateOf (dispatch width height ev s t)).
Proof.
  intros Hinv. unfold zoomWithinLimits in *.
  destruct (isZoomGesture ev) eqn:Hev.
  - destruct (zoom_gestures_clamp width height ev s t Hev)
      as ((-> & ->) & [-> | (zoomFactor & ->)]); [exact Hinv |].
    apply clampZoom_within. destruct Hinv. by eapply Qle_trans.
  - by destruct (other_handlers_keep_zoom width height ev s t Hev)
      as ((-> & ->) & ->).
Qed.

Lemma runEvents_keeps_invariant (width height : Q) (evs : list GestureEvent) :
  ∀ s t, zoomWithinLimits s →
         zoomWithinLimits (runEvents width height evs s t).1.
Proof.
  induction evs as [| ev evs IH]; intros s t Hinv; cbn [runEvents].
  - exact Hinv.
  - apply IH. by apply dispatch_keeps_invariant.
Qed.

End Queue.

(** C5.  The handlers never write the zoom limits; only a wheel or a
    touch-move event can change the zoom, and then to the proposal
    clamped between the limits; so a zoom that starts within the limits
    is within them after every event of every queue. *)
Theorem zoom_limits_invariant `{!DrawNode} `{!VoronoiHover} `{!MathSqrt} `{!Rounding}
    (width height : Q) (evs : list GestureEvent) (s : State) (t : list Effect) :
  zoomWithinLimits s →
  zoomWithinLimits (runEvents width height evs s t).1 ∧
  (∀ ev s1 t1,
     let s2 := stateOf (dispatch width height ev s1 t1) in
     sameLimits s1 s2 ∧
     (currentZoom s2 = currentZoom s1 ∨
      isZoomGesture ev = true ∧
      ∃ zoomFactor, currentZoom s2 = clampZoom s1 zoomFactor)) ∧
  (∀ s1 t1 zoomFactor cx cy s2 t2,
     handleZoom zoomFactor cx cy width height s1 t1 = Normal true s2 t2 →
     sameLimits s1 s2 ∧ currentZoom s2 = clampZoom s1 zoomFactor).
Proof.
  intros Hinv. split; [by apply runEvents_keeps_invariant |]. split.
  - intros ev s1 t1 s2. subst s2. destruct (isZoomGesture ev) eqn:Hev.
    + destruct (zoom_gestures_clamp width height ev s1 t1 Hev)
        as (Hlimits & [Hsame | Hclamp]); eauto.
    + destruct (other_handlers_keep_zoom width height ev s1 t1 Hev); eauto.
  - intros s1 t1 zoomFactor cx cy s2 t2 Happlied.
    destruct (handleZoom_outcome s1 t1 zoomFactor cx cy width height)
      as [Hrej | (s' & Hs' & Hmin & Hmax & _ & Hzoom & _)]; [congruence |].
    rewrite Hs' in Happlied. injection Happlied as <- <-. by repeat split.
Qed.

(** Twenty wheel steps inwards from zoom 1 stop at the upper limit 4. *)
Lemma zoom_limits_invariant_witness :
  zoomWithinLimits idleState ∧
  let wheelIn := onWheel (mkWheelEvent (mkPointer 600 450) (-1)) in
  let s' := (@runEvents specDrawNode specVoronoiHover floorMathSqrt binary64 800 600
               (repeat wheelIn 20) idleState []).1 in
  zoomWithinLimits s' ∧ currentZoom s' == 4.
Proof.
  assert (Hidle : zoomWithinLimits idleState) by (split; vm_compute; congruence).
  split; [exact Hidle |]. intros wheelIn s'. split.
  - apply (@zoom_limits_invariant specDrawNode specVoronoiHover floorMathSqrt binary64
             800 600 (repeat wheelIn 20) idleState [] Hidle).
  - vm_compute. reflexivity.
Defined.

End Zoom.

(** ** Clicks, taps and hover *)

Section Clicks.
Context `{!DrawNode} `{!VoronoiHover} `{!MathSqrt} `{!Rounding}.




Lemma handleMouseUp_no_callback (s : State) (t : list Effect) (up : Pointer) :
  onNodeClick s = false →
  handleMouseUp up s t = Normal tt (set_isDragging false s) t.
Proof.
  intros Hclick. unfold handleMouseUp. unfold_monad. cbn. rewrite Hclick.
  by destruct (_mouseDownX s), (canvas s).
Qed.


Lemma handleTouchEnd_no_callback (s : State) (t : list Effect) (ev : TouchEvent) :
  onNodeClick s = false →
  effectsOf (handleTouchEnd ev s t) = t ++ [PreventDefault].
Proof.
  intros Hclick. unfold handleTouchEnd, getEventCoordinates. unfold_monad.
  split_cases; cbn; congruence.
Qed.








(** C8 (as the code has it).  Without a click callback a pointer-up
    makes no call at all: a mouse-up only clears the dragging flag, and
    a touch-end calls nothing but [preventDefault]; no hit test runs. *)
Theorem pointer_up_without_callback (s : State) (t : list Effect) :
  onNodeClick s = false →
  (∀ up, handleMouseUp up s t = Normal tt (set_isDragging false s) t) ∧
  (∀ ev, effectsOf (handleTouchEnd ev s t) = t ++ [PreventDefault]).
Proof.
  intros Hclick. split.
  - intros up. by apply handleMouseUp_no_callback.
  - intros ev. by apply handleTouchEnd_no_callback.
Qed.

(** C7.  Without a canvas handle, mouse-down and a single-touch
    touch-start end in a [TypeError] instead of doing nothing, while
    mouse-move and wheel, which test the handle, do nothing. *)
Theorem missing_canvas_throws (s : State) (t : list Effect) :
  canvas s = None →
  (∀ event, handleMouseDown event s t = TypeError s t) ∧
  (∀ touch changed,
     handleTouchStart (mkTouchEvent [touch] changed) s t
     = TypeError (set_touches [touch] s) (t ++ [PreventDefault])) ∧
  (∀ width height event, handleMouseMove width height event s t = Normal tt s t) ∧
  (∀ width height event, handleWheel width height event s t = Normal tt s t).
Proof.
  intros Hcanvas. repeat split; intros; unfold_handlers; cbn;
    by rewrite Hcanvas.
Qed.

End Clicks.

(** ** The handlers on the two-leaf example *)

Section Examples.

#[local] Existing Instances specDrawNode specVoronoiHover floorMathSqrt binary64.




Example proximity_only_release_run :
  compositeHit 110 100 (renderedNodes idleState) (voronoiData idleState) 15
    = Some "leafA"%string ∧
  effectsOf (pressAndRelease idleState (mkPointer 110 100) (mkPointer 110 100))
    = [PreventDefault; CallFindHoveredNode 110 100].
Proof. vm_compute. split; reflexivity. Qed.


Example release_at_rounded_threshold_run :
  double_1_4 * double_1_4 + double_4_8 * double_4_8 < 25 ∧
  fl (fl (double_1_4 * double_1_4) + fl (double_4_8 * double_4_8)) = 25 ∧
  findExactHit double_1_4 double_4_8 (renderedNodes originState)
    = Some "origin"%string ∧
  effectsOf (pressAndRelease originState (mkPointer 0 0)
               (mkPointer double_1_4 double_4_8))
    = [PreventDefault].
Proof. vm_compute. repeat split; reflexivity. Qed.

(** The same sum on the primitive doubles: [1.4 * 1.4 + 4.8 * 4.8] is
    25. *)
Example threshold_sum_in_doubles :
  let x := Doubles.nearest_1_4 in
  let y := Doubles.nearest_4_8 in
  Doubles.toQ x = Some double_1_4 ∧ Doubles.toQ y = Some double_4_8 ∧
  Doubles.toQ (PrimFloat.add (PrimFloat.mul x x) (PrimFloat.mul y y)) = Some 25.
Proof. vm_compute. repeat split; reflexivity. Qed.

(** Without a callback the release of the example press calls nothing. *)
Lemma pointer_up_without_callback_witness :
  let pressed := handleMouseDown (mkPointer 100 100) silentState [] in
  handleMouseUp (mkPointer 101 100) (stateOf pressed) (effectsOf pressed)
  = Normal tt (set_isDragging false (stateOf pressed)) (effectsOf pressed).
Proof.
  intros pressed.
  destruct (pointer_up_without_callback (stateOf pressed)
              (effectsOf pressed) eq_refl) as (Hup & _).
  apply Hup.
Defined.

(** A release one unit from the press, on [leafA], with no callback
    registered: no hit test is among the calls. *)
Lemma silent_release_runs_no_hit_test :
  ¬ hitTestRunsWithoutCallback silentState (mkCanvas 0 0)
      (mkPointer 100 100) (mkPointer 101 100).
Proof.
  intros Hclaim. specialize (Hclaim eq_refl eq_refl ltac:(reflexivity)).
  apply list_elem_of_In in Hclaim. vm_compute in Hclaim.
  destruct Hclaim as [Hcall | []]. discriminate Hcall.
Qed.

Example release_without_callback_run :
  (101 - 100) * (101 - 100) + (100 - 100) * (100 - 100) < 25 ∧
  onNodeClick silentState = false ∧
  findExactHit 101 100 (renderedNodes silentState) = Some "leafA"%string ∧
  effectsOf (pressAndRelease silentState (mkPointer 100 100) (mkPointer 101 100))
    = [PreventDefault].
Proof. vm_compute. repeat split; reflexivity. Qed.

(** The example component without a canvas. *)
Lemma missing_canvas_throws_witness :
  canvas detachedState = None ∧
  handleMouseDown (mkPointer 100 100) detachedState [] = TypeError detachedState [] ∧
  threw (handleTouchStart (mkTouchEvent [mkPointer 100 100] None) detachedState [])
    = true.
Proof.
  destruct (missing_canvas_throws detachedState [] eq_refl) as (Hdown & Htouch & _).
  split; [reflexivity |]. split; [apply Hdown |].
  by rewrite Htouch.
Defined.

End Examples.

(** ** The tree of the tests is acyclic *)

Section TestTreeAcyclic.
Import CollapseAnimation.

Lemma acyclic_of_rank (m : gmap string (list Child)) (rank : string → nat) :
  (∀ p c, edge m p c → (rank c < rank p)%nat) → acyclic m.
Proof.
  intros Hrank n Hn.
  assert (Hlt : ∀ p c, tc (edge m) p c → (rank c < rank p)%nat).
  { induction 1 as [p c Hpc | p c c' Hpc _ IH].
    - by apply Hrank.
    - specialize (Hrank _ _ Hpc). lia. }
  specialize (Hlt _ _ Hn). lia.
Qed.

Lemma TestTree_acyclic : acyclic TestTree.parentToChildrenNodeMap.
Proof.
  apply (acyclic_of_rank _ TestTree.rank).
  intros p c (children & child & Hp & Hchild & ->).
  unfold TestTree.parentToChildrenNodeMap in Hp.
  repeat (apply lookup_insert_Some in Hp as [[<- <-] | [_ Hp]]);
    [.. | by rewrite lookup_empty in Hp];
    repeat (apply elem_of_cons in Hchild as [-> | Hchild]);
    try (by apply elem_of_nil in Hchild); vm_compute; lia.
Qed.

(** Collapsing [a] in the tree of the tests overrides [c] and [d] only. *)
Lemma getDescendantIds_excludes_self_witness :
  acyclic TestTree.parentToChildrenNodeMap ∧
  getDescendantIds 10 "a" TestTree.parentToChildrenNodeMap = Some ["c"; "d"]%string ∧
  ("a"%string ∉ ["c"; "d"]%string) ∧
  ∀ ov, computeCollapsedPositions 10 ["a"%string] TestTree.parentToChildrenNodeMap
          TestTree.nodeIdToRenderedNodeMap = Some ov →
        ov !! "a"%string = None.
Proof.
  destruct (getDescendantIds_excludes_self "a" TestTree.parentToChildrenNodeMap
              TestTree.nodeIdToRenderedNodeMap TestTree_acyclic)
    as (_ & Hself & Hov).
  assert (Hds : getDescendantIds 10 "a" TestTree.parentToChildrenNodeMap
                = Some ["c"; "d"]%string) by (vm_compute; reflexivity).
  split; [exact TestTree_acyclic |]. split; [exact Hds |].
  split; [exact (Hself _ _ Hds) |].
  intros ov Hcollapsed. by destruct (Hov _ _ Hcollapsed).
Defined.

End TestTreeAcyclic.

(** * Further lemmas on collapseAnimation.js *)

Section CollapseExtras.
Import CollapseAnimation.

(** X1.  [easeInOutCubic] is point-symmetric about (1/2, 1/2): the
    eased value at [1 - t] is one minus the eased value at [t], for every
    [t], also outside the unit interval; an animation run backwards
    mirrors the one run forwards. *)
Lemma ease_symmetric (t : Q) :
  easeInOutCubic (1 - t) == 1 - easeInOutCubic t.
Proof.
  destruct (Qlt_le_dec t (1 # 2)) as [Hlt | Hge].
  - rewrite (ease_first_half t Hlt), (ease_second_half (1 - t)) by lra. ring.
  - destruct (Qlt_le_dec (1 - t) (1 # 2)) as [Hlt' | Hge'].
    + rewrite (ease_first_half (1 - t) Hlt'), (ease_second_half t Hge). ring.
    + rewrite (ease_second_half (1 - t) Hge'), (ease_second_half t Hge).
      assert (Ht : 2 * t - 1 == 0) by lra.
      assert (Hsq : (2 * t - 1) * (2 * t - 1) == 0) by (rewrite Ht; ring).
      nra.
Qed.

Variable m : gmap string (list Child).

Lemma tc_edge_first (p k : string) :
  tc (edge m) p k →
  ∃ children c, m !! p = Some children ∧ c ∈ map childId children ∧
                (c = k ∨ tc (edge m) c k).
Proof.
  intros Hpk.
  assert (Hfirst : ∃ c, edge m p c ∧ (c = k ∨ tc (edge m) c k)).
  { destruct Hpk as [p k Hpk | p c k Hpc Hck]; eauto. }
  destruct Hfirst as (c & (children & child & Hp & Hchild & ->) & Hrest).
  exists children, (childId child). split; [done |]. split; [| done].
  apply list_elem_of_In, in_map. by apply list_elem_of_In.
Qed.

(** Whatever was found stays, and everything below a stack entry is
    found. *)
Lemma getDescendantIds_loop_complete (fuel : nat) :
  ∀ d s r, getDescendantIds_loop fuel m d s = Some r →
  (∀ k, k ∈ d → k ∈ r) ∧
  (∀ p k, p ∈ s → tc (edge m) p k → k ∈ r).
Proof.
  induction fuel as [| fuel IH]; intros d s r Hr;
    destruct s as [| cur s']; simpl in Hr; try discriminate.
  - injection Hr as <-. split; [done |]. intros p k Hp. by apply elem_of_nil in Hp.
  - injection Hr as <-. split; [done |]. intros p k Hp. by apply elem_of_nil in Hp.
  - destruct (m !! cur) as [children |] eqn:Hcur.
    + rewrite pushChildren_spec in Hr. destruct (IH _ _ _ Hr) as [Hd Hs].
      split.
      * intros k Hk. apply Hd, elem_of_app. by left.
      * intros p k [-> | Hp]%elem_of_cons Hpk.
        -- destruct (tc_edge_first _ _ Hpk) as (children' & c & Hc' & Hc & Hrest).
           rewrite Hcur in Hc'. injection Hc' as <-.
           destruct Hrest as [-> | Hck].
           ++ apply Hd, elem_of_app. by right.
           ++ apply (Hs c); [| done]. apply elem_of_app. left.
              by apply elem_of_rev.
        -- apply (Hs p); [| done]. apply elem_of_app. by right.
    + destruct (IH _ _ _ Hr) as [Hd Hs]. split; [done |].
      intros p k [-> | Hp]%elem_of_cons Hpk.
      * destruct (tc_edge_first _ _ Hpk) as (children' & c & Hc' & _).
        congruence.
      * by apply (Hs p).
Qed.

Lemma getDescendantIds_reach (fuel : nat) (nodeId : string) (ds : list string) :
  getDescendantIds fuel nodeId m = Some ds →
  ∀ k, k ∈ ds ↔ tc (edge m) nodeId k.
Proof.
  intros Hds k. split.
  - by apply (getDescendantIds_sound m fuel nodeId ds Hds).
  - destruct (getDescendantIds_loop_complete _ _ _ _ Hds) as [_ Hs].
    apply Hs. left.
Qed.

End CollapseExtras.

Section OverrideExtras.
Import CollapseAnimation.

Variable m : gmap string (list Child).
Variable rmap : gmap string Position.

#[local] Abbreviation coveredBy := (CollapseAnimation.coveredBy m rmap).

Lemma loop_lookup_Some (fuel : nat) (ids : list string) :
  ∀ ov0 ov, computeCollapsedPositions_loop fuel ids m rmap ov0 = Some ov →
  ∀ k p, ov !! k = Some p →
         ov0 !! k = Some p ∨ ∃ a, coveredBy ids k a ∧ p = anchorOf a.
Proof.
  induction ids as [| c ids IH]; intros ov0 ov Hov k p Hk; simpl in Hov.
  - left. congruence.
  - destruct (rmap !! c) as [a |] eqn:Hc.
    + destruct (getDescendantIds fuel c m) as [ds |] eqn:Hds; [| done].
      destruct (IH _ _ Hov k p Hk) as [Hk0 | (a' & (c' & Hc' & Ha' & Hreach) & ->)].
      * rewrite setOverrides_lookup in Hk0.
        destruct (decide (k ∈ ds)) as [Hin | Hnin]; [| by left].
        right. exists a. split; [| congruence].
        exists c. split; [left |]. split; [done |].
        by apply (getDescendantIds_reach m fuel c ds Hds).
      * right. exists a'. split; [| done]. exists c'. split; [by right | done].
    + destruct (IH _ _ Hov k p Hk) as [Hk0 | (a' & (c' & Hc' & Ha' & Hreach) & ->)];
        [by left |].
      right. exists a'. split; [| done]. exists c'. split; [by right | done].
Qed.

Lemma loop_lookup_covered (fuel : nat) (ids : list string) :
  ∀ ov0 ov, computeCollapsedPositions_loop fuel ids m rmap ov0 = Some ov →
  ∀ k, (is_Some (ov0 !! k) ∨ ∃ a, coveredBy ids k a) → is_Some (ov !! k).
Proof.
  induction ids as [| c ids IH]; intros ov0 ov Hov k Hk; simpl in Hov.
  - injection Hov as <-. destruct Hk as [Hk | (a & c & Hc & _)]; [done |].
    by apply elem_of_nil in Hc.
  - assert (Hsplit : is_Some (ov0 !! k)
                     ∨ (∃ a, rmap !! c = Some a ∧ tc (edge m) c k)
                     ∨ ∃ a, coveredBy ids k a).
    { destruct Hk as [Hk | (a & c' & [-> | Hc']%elem_of_cons & Ha & Hreach)];
        [by left | right; left; eauto | right; right].
      exists a, c'. done. }
    destruct (rmap !! c) as [a |] eqn:Hc.
    + destruct (getDescendantIds fuel c m) as [ds |] eqn:Hds; [| done].
      apply (IH _ _ Hov).
      destruct Hsplit as [Hk0 | [(a' & _ & Hreach) | Hrest]]; [| | by right].
      * left. rewrite setOverrides_lookup. by case_decide.
      * left. rewrite setOverrides_lookup, decide_True; [done |].
        by apply (getDescendantIds_reach m fuel c ds Hds).
    + apply (IH _ _ Hov).
      destruct Hsplit as [Hk0 | [(a' & Ha' & _) | Hrest]];
        [by left | done | by right].
Qed.

Lemma loop_is_Some (fuel : nat) (ids : list string) :
  ∀ ov0, is_Some (computeCollapsedPositions_loop fuel ids m rmap ov0) ↔
         ∀ c, c ∈ ids → is_Some (rmap !! c) →
              is_Some (getDescendantIds fuel c m).
Proof.
  induction ids as [| c ids IH]; intros ov0; simpl.
  - split; [| done]. intros _ c Hc. by apply elem_of_nil in Hc.
  - destruct (rmap !! c) as [a |] eqn:Hc.
    + destruct (getDescendantIds fuel c m) as [ds |] eqn:Hds.
      * rewrite IH. split.
        -- intros Hrest c' [-> | Hc']%elem_of_cons Hr; [by rewrite Hds |].
           by apply Hrest.
        -- intros Hall c' Hc'. apply Hall. by right.
      * split; [by intros [? ?] |]. intros Hall.
        destruct (Hall c) as [? Hnone]; [left | by rewrite Hc |].
        rewrite Hds in Hnone. done.
    + rewrite IH. split.
      * intros Hrest c' [-> | Hc']%elem_of_cons Hr;
          [rewrite Hc in Hr; by destruct Hr |].
        by apply Hrest.
      * intros Hall c' Hc'. apply Hall. by right.
Qed.

Lemma overrides_covered (fuel : nat) (ids : list string)
    (ov : gmap string Position) :
  computeCollapsedPositions fuel ids m rmap = Some ov →
  (∀ k, is_Some (ov !! k) ↔
        ∃ c a, c ∈ ids ∧ rmap !! c = Some a ∧ tc (edge m) c k) ∧
  (∀ k p, ov !! k = Some p →
          ∃ c a, c ∈ ids ∧ rmap !! c = Some a ∧ tc (edge m) c k ∧
                 p = mkPosition (x a) (y a)).
Proof.
  unfold computeCollapsedPositions. intros Hov.
  assert (Hsome : ∀ k p, ov !! k = Some p →
            ∃ c a, c ∈ ids ∧ rmap !! c = Some a ∧ tc (edge m) c k ∧
                   p = mkPosition (x a) (y a)).
  { intros k p Hk.
    destruct (loop_lookup_Some _ _ _ _ Hov k p Hk)
      as [Hempty | (a & (c & Hc & Ha & Hreach) & ->)].
    - by rewrite lookup_empty in Hempty.
    - by exists c, a. }
  split; [| exact Hsome].
  intros k. split.
  - intros [p Hk]. destruct (Hsome k p Hk) as (c & a & Hc & Ha & Hreach & _).
    by exists c, a.
  - intros (c & a & Hc & Ha & Hreach).
    apply (loop_lookup_covered _ _ _ _ Hov). right. by exists a, c.
Qed.

Lemma overrides_permuted (fuel : nat) (ids1 ids2 : list string)
    (ov : gmap string Position) :
  ids1 ≡ₚ ids2 →
  (∀ c1 c2 a1 a2 k,
     c1 ∈ ids1 → c2 ∈ ids1 → rmap !! c1 = Some a1 → rmap !! c2 = Some a2 →
     tc (edge m) c1 k → tc (edge m) c2 k →
     mkPosition (x a1) (y a1) = mkPosition (x a2) (y a2)) →
  computeCollapsedPositions fuel ids1 m rmap = Some ov →
  computeCollapsedPositions fuel ids2 m rmap = Some ov.
Proof.
  intros Hperm Hagree Hov1.
  assert (Hsome2 : is_Some (computeCollapsedPositions fuel ids2 m rmap)).
  { unfold computeCollapsedPositions. apply loop_is_Some.
    intros c Hc. rewrite <- Hperm in Hc. revert c Hc.
    apply (loop_is_Some fuel ids1 ∅). unfold computeCollapsedPositions in Hov1.
    by rewrite Hov1. }
  destruct Hsome2 as [ov2 Hov2]. rewrite Hov2. f_equal.
  destruct (overrides_covered fuel ids1 ov Hov1) as [Hdom1 Hval1].
  destruct (overrides_covered fuel ids2 ov2 Hov2) as [Hdom2 Hval2].
  apply map_eq. intros k.
  destruct (ov !! k) as [p1 |] eqn:Hk1.
  - destruct (Hval1 k p1 Hk1) as (c1 & a1 & Hc1 & Ha1 & Hr1 & ->).
    destruct (proj2 (Hdom2 k)) as [p2 Hk2].
    { exists c1, a1. by rewrite <- Hperm. }
    rewrite Hk2. f_equal.
    destruct (Hval2 k p2 Hk2) as (c2 & a2 & Hc2 & Ha2 & Hr2 & ->).
    rewrite <- Hperm in Hc2. by apply (Hagree c2 c1 a2 a1 k).
  - destruct (ov2 !! k) as [p2 |] eqn:Hk2; [| done].
    destruct (Hval2 k p2 Hk2) as (c2 & a2 & Hc2 & Ha2 & Hr2 & _).
    rewrite <- Hperm in Hc2.
    destruct (proj2 (Hdom1 k)) as [p1 Hp1]; [by exists c2, a2 |]. congruence.
Qed.

End OverrideExtras.

Section TreeExtras.
Import CollapseAnimation.

Lemma concat_map_Permutation {A B : Type} (f : A → list B) (l k : list A) :
  l ≡ₚ k → concat (map f l) ≡ₚ concat (map f k).
Proof.
  induction 1 as [| a l k _ IH | a b l | l k k' _ IH1 _ IH2]; simpl.
  - done.
  - by rewrite IH.
  - rewrite !app_assoc. f_equiv. apply Permutation_app_comm.
  - by rewrite IH1.
Qed.

Lemma allChildIds_delete (m : gmap string (list Child)) (p : string)
    (children : list Child) :
  m !! p = Some children →
  allChildIds m ≡ₚ map childId children ++ allChildIds (delete p m).
Proof.
  intros Hp. unfold allChildIds.
  rewrite <- (concat_map_Permutation _ _ _ (map_to_list_delete m p children Hp)).
  done.
Qed.

Lemma childIdsOf_delete (m : gmap string (list Child)) (p k : string) :
  k ≠ p → childIdsOf (delete p m) k = childIdsOf m k.
Proof. intros Hne. unfold childIdsOf. by rewrite lookup_delete_ne. Qed.

(** The children arrays of distinct parents are disjoint parts of the
    list of all child ids. *)
Lemma childIdsOf_submseteq (ps : list string) :
  ∀ m, NoDup ps → concat (map (childIdsOf m) ps) ⊆+ allChildIds m.
Proof.
  induction ps as [| p ps IH]; intros m Hnd; simpl.
  - apply submseteq_nil_l.
  - apply NoDup_cons in Hnd as [Hp Hnd].
    assert (Hrest : concat (map (childIdsOf m) ps)
                    = concat (map (childIdsOf (delete p m)) ps)).
    { f_equal. apply map_ext_in. intros k Hk. symmetry.
      apply childIdsOf_delete. intros ->. by apply Hp, list_elem_of_In. }
    rewrite Hrest. unfold childIdsOf at 1.
    destruct (m !! p) as [children |] eqn:Hmp.
    + rewrite (allChildIds_delete m p children Hmp).
      apply submseteq_skips_l, IH, Hnd.
    + rewrite (delete_id m p Hmp). apply IH, Hnd.
Qed.

Lemma submseteq_NoDup_l {A : Type} (l k : list A) : l ⊆+ k → NoDup k → NoDup l.
Proof.
  intros (k' & Hk)%submseteq_Permutation Hnd. rewrite Hk in Hnd.
  by apply NoDup_app in Hnd as [? _].
Qed.

Variable m : gmap string (list Child).
Variable nodeId : string.
Hypothesis m_acyclic : acyclic m.
Hypothesis m_forest : NoDup (allChildIds m).

Lemma childIdsOf_edge (p k : string) : k ∈ childIdsOf m p → edge m p k.
Proof.
  unfold childIdsOf. destruct (m !! p) as [children |] eqn:Hp.
  - by apply edge_child.
  - by intros ?%elem_of_nil.
Qed.

Lemma getDescendantIds_loop_step (cur : string) (d s' : list string) (fuel : nat) :
  getDescendantIds_loop (S fuel) m d (cur :: s')
  = getDescendantIds_loop fuel m (d ++ childIdsOf m cur)
      (rev (childIdsOf m cur) ++ s').
Proof.
  simpl. unfold childIdsOf. destruct (m !! cur) as [children |].
  - by rewrite pushChildren_spec.
  - by rewrite app_nil_r.
Qed.

#[local] Abbreviation traversalInvariant := (CollapseAnimation.traversalInvariant m nodeId).

Lemma traversalInvariant_step (popped d s' : list string) (cur : string) :
  traversalInvariant popped d (cur :: s') →
  traversalInvariant (cur :: popped) (d ++ childIdsOf m cur)
    (rev (childIdsOf m cur) ++ s').
Proof.
  intros (Hd & Hperm & Hnd & Hdreach & Hsreach).
  assert (Hcur : cur = nodeId ∨ tc (edge m) nodeId cur) by (apply Hsreach; left).
  assert (Hkids : ∀ k, k ∈ childIdsOf m cur → tc (edge m) nodeId k).
  { intros k Hk%childIdsOf_edge. destruct Hcur as [-> | Hcur].
    - by apply tc_once.
    - eapply tc_r; eauto. }
  assert (Hd' : d ++ childIdsOf m cur
                ≡ₚ concat (map (childIdsOf m) (cur :: popped))).
  { simpl. rewrite Hd. apply Permutation_app_comm. }
  assert (Hreach' : ∀ k, k ∈ d ++ childIdsOf m cur → tc (edge m) nodeId k).
  { intros k [Hk | Hk]%elem_of_app; auto. }
  split; [exact Hd' |]. split; [| split; [| split; [exact Hreach' |]]].
  - rewrite <- (Permutation_rev (childIdsOf m cur)).
    change (nodeId :: d ++ childIdsOf m cur) with ((nodeId :: d) ++ childIdsOf m cur).
    rewrite <- Hperm.
    rewrite (Permutation_app_comm (childIdsOf m cur) s').
    rewrite <- (Permutation_middle popped s' cur).
    simpl. rewrite !app_assoc. done.
  - apply NoDup_cons. split.
    + intros Hin. by apply (m_acyclic nodeId), Hreach'.
    + rewrite Hd'. eapply submseteq_NoDup_l; [| exact m_forest].
      apply childIdsOf_submseteq.
      rewrite <- Hperm in Hnd.
      rewrite <- (Permutation_middle popped s' cur) in Hnd.
      apply NoDup_cons in Hnd as [Hnotin Hnd].
      apply NoDup_app in Hnd as [Hpopped _].
      apply NoDup_cons. split; [| done].
      intros Hin. apply Hnotin, elem_of_app. by left.
  - intros p [Hp | Hp]%elem_of_app.
    + right. by apply Hkids, (proj1 (elem_of_rev _ _)).
    + apply Hsreach. by right.
Qed.

Lemma getDescendantIds_loop_NoDup (fuel : nat) :
  ∀ popped d s r, traversalInvariant popped d s →
  getDescendantIds_loop fuel m d s = Some r → NoDup r.
Proof.
  induction fuel as [| fuel IH]; intros popped d s r Hinv Hr.
  - destruct s; [| done]. injection Hr as <-.
    destruct Hinv as (_ & _ & Hnd & _). by apply NoDup_cons in Hnd as [_ ?].
  - destruct s as [| cur s'].
    + injection Hr as <-.
      destruct Hinv as (_ & _ & Hnd & _). by apply NoDup_cons in Hnd as [_ ?].
    + rewrite getDescendantIds_loop_step in Hr.
      by apply (IH _ _ _ _ (traversalInvariant_step _ _ _ _ Hinv) Hr).
Qed.

Lemma getDescendantIds_NoDup (fuel : nat) (ds : list string) :
  getDescendantIds fuel nodeId m = Some ds → NoDup ds.
Proof.
  apply (getDescendantIds_loop_NoDup fuel [] [] [nodeId]).
  split; [done |]. split; [done |]. split; [apply NoDup_singleton |].
  split.
  - by intros k ?%elem_of_nil.
  - intros p ->%list_elem_of_singleton. by left.
Qed.

End TreeExtras.

(** * Further lemmas on the gesture handlers *)

(** Conditions recorded by the case analysis, as facts about the flags. *)
Ltac bool_hyps :=
  repeat match goal with
         | H : negb _ = true |- _ => apply negb_true_iff in H
         | H : negb _ = false |- _ => apply negb_false_iff in H
         | H : _ || _ = false |- _ => apply orb_false_iff in H as [? ?]
         | H : _ && _ = true |- _ => apply andb_true_iff in H as [? ?]
         | H : _ || _ = true |- _ => apply orb_true_iff in H as [? | ?]
         | H : _ && _ = false |- _ => apply andb_false_iff in H as [? | ?]
         end.

Section HandlerExtras.
Import HandlerSpec.
Context `{!DrawNode} `{!VoronoiHover} `{!MathSqrt} `{!Rounding}.

Lemma renders_app (t1 t2 : list Effect) :
  renders (t1 ++ t2) = (renders t1 + renders t2)%nat.
Proof.
  induction t1 as [| e t1 IH]; [done |]. destruct e; cbn; by rewrite ?IH.
Qed.

Lemma dispatch_configuration (width height : Q) (ev : GestureEvent)
    (s : State) (t : list Effect) :
  sameConfiguration s (stateOf (dispatch width height ev s t)).
Proof.
  unfold sameConfiguration. destruct ev; unfold_handlers; split_cases; cbn;
    repeat split; congruence.
Qed.

Lemma runEvents_configuration (width height : Q) (evs : list GestureEvent) :
  ∀ s t, sameConfiguration s (runEvents width height evs s t).1.
Proof.
  induction evs as [| ev evs IH]; intros s t; cbn [runEvents].
  - unfold sameConfiguration. by repeat split.
  - destruct (IH (stateOf (dispatch width height ev s t))
                (effectsOf (dispatch width height ev s t)))
      as (F1 & F2 & F3 & F4 & F5 & F6 & F7 & F8 & F9).
    destruct (dispatch_configuration width height ev s t)
      as (G1 & G2 & G3 & G4 & G5 & G6 & G7 & G8 & G9).
    unfold sameConfiguration. repeat split; congruence.
Qed.

(** X7.  The mouse-move, mouse-up, mouse-leave and wheel handlers end
    normally in every state, with or without a canvas: they return
    early when the canvas is missing, or do not use it. *)
Lemma guarded_never_throw (width height : Q) (ev : GestureEvent)
    (s : State) (t : list Effect) :
  isGuarded ev = true → threw (dispatch width height ev s t) = false.
Proof.
  intros Hev. destruct ev; try discriminate Hev;
    unfold_handlers; split_cases; cbn; congruence.
Qed.

Lemma canvas_never_throw (width height : Q) (ev : GestureEvent)
    (s : State) (t : list Effect) (rect : Canvas) :
  canvas s = Some rect → threw (dispatch width height ev s t) = false.
Proof.
  intros Hcanvas. destruct ev; unfold_handlers; split_cases; cbn in *; congruence.
Qed.

(** X8.  While the component has its canvas, no handler of any event
    queue ends in an exception, whatever the events carry: any number
    of touches, a missing [changedTouches], any coordinates. *)
Lemma throwCount_canvas (width height : Q) (evs : list GestureEvent) (rect : Canvas) :
  ∀ s t, canvas s = Some rect → throwCount width height evs s t = 0%nat.
Proof.
  induction evs as [| ev evs IH]; intros s t Hcanvas; cbn [throwCount]; [done |].
  rewrite (canvas_never_throw width height ev s t rect Hcanvas). cbn.
  apply IH. destruct (dispatch_configuration width height ev s t) as (-> & _).
  done.
Qed.

(** *** Disabled gestures *)

Lemma dispatch_not_zoomable (width height : Q) (ev : GestureEvent)
    (s : State) (t : list Effect) :
  zoomable s = false →
  currentZoom (stateOf (dispatch width height ev s t)) = currentZoom s.
Proof.
  intros Hz. destruct ev; unfold_handlers; split_cases; cbn in *; bool_hyps;
    congruence.
Qed.

Lemma dispatch_not_pannable (width height : Q) (ev : GestureEvent)
    (s : State) (t : list Effect) :
  pannable s = false →
  let s' := stateOf (dispatch width height ev s t) in
  (isDragging s = false → isDragging s' = false) ∧
  (zoomable s = false → panX s' = panX s ∧ panY s' = panY s).
Proof.
  intros Hp. destruct ev; unfold_handlers; split_cases; cbn in *; bool_hyps;
    repeat split; congruence.
Qed.

(** X9.  Switched-off gestures stay off over every event queue: with
    [zoomable] false the zoom never changes; with [pannable] false a
    drag never starts; with both false the pan never changes. *)
Lemma runEvents_disabled (width height : Q) (evs : list GestureEvent) :
  ∀ s t,
    let s' := (runEvents width height evs s t).1 in
    (zoomable s = false → currentZoom s' = currentZoom s) ∧
    (pannable s = false → isDragging s = false → isDragging s' = false) ∧
    (pannable s = false → zoomable s = false →
     panX s' = panX s ∧ panY s' = panY s).
Proof.
  induction evs as [| ev evs IH]; intros s t; cbn [runEvents]; [done |].
  set (c := dispatch width height ev s t).
  destruct (IH (stateOf c) (effectsOf c)) as (IHz & IHd & IHp).
  destruct (dispatch_configuration width height ev s t) as (_ & Hp & Hz & _).
  fold c in Hp, Hz. cbv zeta. split; [| split].
  - intros Hzs. rewrite IHz by congruence.
    by apply dispatch_not_zoomable.
  - intros Hps Hds. apply IHd; [congruence |].
    by apply (dispatch_not_pannable width height ev s t Hps).
  - intros Hps Hzs.
    destruct (dispatch_not_pannable width height ev s t Hps) as [_ Hpan].
    destruct (Hpan Hzs) as [HX HY]. fold c in HX, HY.
    destruct IHp as [HX' HY']; [congruence.. |]. split; congruence.
Qed.

(** *** Render requests *)

Lemma dispatch_renders (width height : Q) (ev : GestureEvent)
    (s : State) (t : list Effect) :
  let c := dispatch width height ev s t in
  (renders t ≤ renders (effectsOf c))%nat ∧
  (sameView s (stateOf c) ∨ (renders t < renders (effectsOf c))%nat).
Proof.
  unfold sameView. destruct ev; unfold_handlers; split_cases; cbn;
    rewrite <- ?app_assoc, ?renders_app; cbn;
    (split; [lia |]);
    first [ left; repeat split; congruence | right; lia ].
Qed.

(** X10.  The view changes only together with a render request: over
    every event queue the number of [scheduleRender] calls never goes
    down, and if no call was added then pan, zoom and hovered id are
    what they were. *)
Lemma runEvents_renders (width height : Q) (evs : list GestureEvent) :
  ∀ s t,
    let r := runEvents width height evs s t in
    (renders t ≤ renders r.2)%nat ∧
    (renders r.2 = renders t → sameView s r.1).
Proof.
  induction evs as [| ev evs IH]; intros s t; cbn [runEvents].
  - split; [done |]. intros _. unfold sameView. by repeat split.
  - set (c := dispatch width height ev s t).
    destruct (IH (stateOf c) (effectsOf c)) as (Hle & Hsame).
    destruct (dispatch_renders width height ev s t) as (Hle1 & Hstep).
    fold c in Hle1, Hstep. cbv zeta. split; [lia |].
    intros Heq. destruct Hstep as [(V1 & V2 & V3 & V4) | Hlt]; [| lia].
    destruct Hsame as (W1 & W2 & W3 & W4); [lia |].
    unfold sameView. repeat split; congruence.
Qed.

(** *** Dragging *)



(** *** Hover and mouse leave *)

(** X12.  Hover detection never throws and requests a render exactly
    when the hovered id changes: if the id is the same the state and the
    render count are untouched; otherwise the hovered id is the only
    field written and one render is requested. *)
Lemma hover_render_on_change (x y : Q) (s : State) (t : list Effect) :
  let c := handleHoverDetection x y s t in
  threw c = false ∧
  (hoveredNodeId (stateOf c) = hoveredNodeId s →
   stateOf c = s ∧ renders (effectsOf c) = renders t) ∧
  (hoveredNodeId (stateOf c) ≠ hoveredNodeId s →
   stateOf c = set_hoveredNodeId (hoveredNodeId (stateOf c)) s ∧
   renders (effectsOf c) = S (renders t)).
Proof.
  unfold handleHoverDetection. unfold_monad.
  split_cases; rewrite <- ?app_assoc, ?renders_app; cbn;
    repeat match goal with
           | H : bool_decide _ = true |- _ => apply bool_decide_eq_true in H
           | H : bool_decide _ = false |- _ => apply bool_decide_eq_false in H
           end;
    repeat split; intros; cbn in *; rewrite <- ?app_assoc, ?renders_app;
    cbn; try congruence; try lia.
Qed.

(** X13.  Hover detection repeated at the same point changes nothing
    and requests no further render. *)
Lemma hover_again (x y : Q) (s : State) (t : list Effect) :
  let c1 := handleHoverDetection x y s t in
  let c2 := handleHoverDetection x y (stateOf c1) (effectsOf c1) in
  stateOf c2 = stateOf c1 ∧ renders (effectsOf c2) = renders (effectsOf c1).
Proof.
  unfold handleHoverDetection. unfold_monad.
  destruct (renderedNodes s) as [| n nodes] eqn:Hnodes; cbn.
  - by rewrite Hnodes.
  - rewrite <- Hnodes.
    set (exact := findHoveredNode (fl (x - panX s)) (fl (y - panY s))
                    (renderedNodes s)).
    destruct exact as [nodeId |] eqn:Hexact; cbn.
    + destruct (bool_decide (Some nodeId = hoveredNodeId s)) eqn:Hsame; cbn.
      * rewrite Hnodes. cbn. rewrite <- Hnodes. fold exact. rewrite Hexact.
        cbn. rewrite Hsame. cbn. rewrite <- !app_assoc, !renders_app. cbn.
        split; [done | lia].
      * rewrite Hnodes. cbn. rewrite <- Hnodes. fold exact. rewrite Hexact.
        cbn. rewrite bool_decide_eq_true_2 by done. cbn.
        rewrite <- !app_assoc, !renders_app. cbn. split; [done | lia].
    + destruct (voronoiData s) as [v |] eqn:Hv; cbn.
      * set (approx := findHoveredLeafByVoronoi _ _ v _).
        destruct (bool_decide (approx = hoveredNodeId s)) eqn:Hsame; cbn.
        -- rewrite Hnodes. cbn. rewrite <- Hnodes. fold exact. rewrite Hexact.
           cbn. rewrite Hv. cbn. fold approx. rewrite Hsame. cbn.
           rewrite <- !app_assoc, !renders_app. cbn. split; [done | lia].
        -- rewrite Hnodes. cbn. rewrite <- Hnodes. fold exact. rewrite Hexact.
           cbn. rewrite Hv. cbn. fold approx.
           rewrite bool_decide_eq_true_2 by done. cbn.
           rewrite <- !app_assoc, !renders_app. cbn. split; [done | lia].
      * destruct (bool_decide (None = hoveredNodeId s)) eqn:Hsame; cbn.
        -- rewrite Hnodes. cbn. rewrite <- Hnodes. fold exact. rewrite Hexact.
           cbn. rewrite Hv. cbn. rewrite Hsame. cbn.
           rewrite <- !app_assoc, !renders_app. cbn. split; [done | lia].
        -- rewrite Hnodes. cbn. rewrite <- Hnodes. fold exact. rewrite Hexact.
           cbn. rewrite Hv. cbn. rewrite bool_decide_eq_true_2 by done. cbn.
           rewrite <- !app_assoc, !renders_app. cbn. split; [done | lia].
Qed.

(** X14.  Leaving the canvas ends the drag and clears the hovered id,
    requesting a render only if a node was hovered; pan and zoom stay,
    and a second mouse leave changes nothing and requests nothing. *)
Lemma mouse_leave_clears (s : State) (t : list Effect) :
  let c1 := handleMouseLeave s t in
  let c2 := handleMouseLeave (stateOf c1) (effectsOf c1) in
  threw c1 = false ∧
  isDragging (stateOf c1) = false ∧ hoveredNodeId (stateOf c1) = None ∧
  renders (effectsOf c1)
    = (renders t + match hoveredNodeId s with Some _ => 1 | None => 0 end)%nat ∧
  panX (stateOf c1) = panX s ∧ panY (stateOf c1) = panY s ∧
  currentZoom (stateOf c1) = currentZoom s ∧
  stateOf c2 = stateOf c1 ∧ effectsOf c2 = effectsOf c1.
Proof.
  unfold handleMouseLeave. unfold_monad. cbn.
  destruct (hoveredNodeId s) as [nodeId |] eqn:Hhover; cbn;
    rewrite ?Hhover, ?renders_app; cbn; repeat split; try lia.
Qed.

(** *** Zooming within the limits *)

Lemma handleZoom_unclamped (s : State) (t : list Effect)
    (zoomFactor cx cy width height : Q) :
  zoomable s = true →
  minZoomLimit s <= currentZoom s * zoomFactor <= maxZoomLimit s →
  ∃ s', handleZoom zoomFactor cx cy width height s t
        = Normal true s' (t ++ [ScheduleRender]) ∧
        sameConfiguration s s' ∧
        currentZoom s' == currentZoom s * zoomFactor ∧
        panX s' == cx - width / 2
                   - (cx - width / 2 - panX s) / currentZoom s
                     * (currentZoom s * zoomFactor) ∧
        panY s' == cy - height / 2
                   - (cy - height / 2 - panY s) / currentZoom s
                     * (currentZoom s * zoomFactor).
Proof.
  intros Hz [Hmin Hmax]. unfold handleZoom. unfold_monad. rewrite Hz. cbn.
  apply Qltb_ge in Hmin, Hmax. rewrite Hmin, Hmax. cbn.
  apply Qltb_ge in Hmin, Hmax.
  assert (Hnew : Qmax (minZoomLimit s)
                   (Qmin (maxZoomLimit s) (currentZoom s * zoomFactor))
                 == currentZoom s * zoomFactor).
  { rewrite (Q.min_r _ _ Hmax). by apply Q.max_r. }
  eexists. split; [reflexivity |]. cbn. unfold sameConfiguration.
  split; [by repeat split |]. split; [exact Hnew |].
  split; by rewrite Hnew.
Qed.

(** X15.  In exact arithmetic zoom steps about the same point compose:
    for a zoom and a factor [f] other than zero, as long as both
    resulting zooms lie within the limits, zooming by [f] and then by
    [g] gives the pan and the zoom of zooming by [f * g] at once, as
    rational numbers, with two render requests.  The doubles of the
    code round every operation, and there the two pans agree up to
    rounding only ([zoom_steps_in_doubles]). *)
Lemma zoom_twice (s : State) (t : list Effect) (f g cx cy width height : Q) :
  zoomable s = true → ¬ currentZoom s == 0 → ¬ f == 0 →
  minZoomLimit s <= currentZoom s * f <= maxZoomLimit s →
  minZoomLimit s <= currentZoom s * f * g <= maxZoomLimit s →
  let c1 := handleZoom f cx cy width height s t in
  let c2 := handleZoom g cx cy width height (stateOf c1) (effectsOf c1) in
  let c12 := handleZoom (f * g) cx cy width height s t in
  viewportEq (stateOf c2) (stateOf c12) ∧
  renders (effectsOf c2) = S (S (renders t)).
Proof.
  intros Hz Hzoom Hf Hlim1 Hlim2 c1 c2 c12.
  destruct (handleZoom_unclamped s t f cx cy width height Hz Hlim1)
    as (s1 & Hc1 & (_ & _ & Hz1 & Hmin1 & Hmax1 & _) & Hzoom1 & HX1 & HY1).
  assert (Hlim2' : minZoomLimit s1 <= currentZoom s1 * g <= maxZoomLimit s1).
  { rewrite Hmin1, Hmax1, Hzoom1. exact Hlim2. }
  subst c2 c1. rewrite Hc1. cbn [stateOf effectsOf].
  destruct (handleZoom_unclamped s1 (t ++ [ScheduleRender]) g cx cy width height
              ltac:(congruence) Hlim2')
    as (s2 & Hc2 & _ & Hzoom2 & HX2 & HY2).
  rewrite Hc2. cbn [stateOf effectsOf].
  assert (Hlim12 : minZoomLimit s <= currentZoom s * (f * g) <= maxZoomLimit s).
  { by rewrite Qmult_assoc. }
  destruct (handleZoom_unclamped s t (f * g) cx cy width height Hz Hlim12)
    as (s12 & Hc12 & _ & Hzoom12 & HX12 & HY12).
  subst c12. rewrite Hc12. cbn [stateOf].
  split.
  - unfold viewportEq.
    rewrite Hzoom2, HX2, HY2, Hzoom12, HX12, HY12, HX1, HY1, Hzoom1.
    repeat split; field; auto.
  - rewrite <- app_assoc, renders_app. cbn. lia.
Qed.


Section ZoomInDoubles.
Import PrimFloat.
Local Open Scope float_scope.

(** The two properties on the doubles, for the default view, the wheel
    factor 1.1 and the canvas point (650, 50) of an 800 x 600 canvas:
    two steps leave the pan (-52.5, 52.5), one step by [1.1 * 1.1] a pan
    that differs from it in the last digits; and a step followed by
    the step by [1 / 1.1] leaves a pan of about [2.8e-14] instead of 0.
    The differences are below [2^-40]. *)
Example zoom_steps_in_doubles :
  let view := Doubles.mkZoomState true 0 0 1 0.5 4 in
  let f := Doubles.wheelIn in
  let zoom state factor := (Doubles.handleZoom state factor 650 50 800 600).2 in
  let twice := zoom (zoom view f) f in
  let once := zoom view (f * f) in
  let back := zoom (zoom view f) (1 / f) in
  Doubles.currentZoom twice = Doubles.currentZoom once ∧
  Doubles.panY twice = 52.5 ∧
  eqb (Doubles.panY twice) (Doubles.panY once) = false ∧
  leb (abs (Doubles.panY twice - Doubles.panY once)) 0x1p-40 = true ∧
  Doubles.currentZoom back = 1 ∧
  eqb (Doubles.panY back) 0 = false ∧
  leb (abs (Doubles.panY back)) 0x1p-40 = true.
Proof. vm_compute. repeat split; reflexivity. Qed.

End ZoomInDoubles.

(** X17.  From a zoom that is not negative and within the limits, a
    wheel event with positive [deltaY] never increases the zoom and one
    with [deltaY] at most zero never decreases it. *)
Lemma wheel_direction (width height : Q) (event : WheelEvent)
    (s : State) (t : list Effect) :
  zoomWithinLimits s → 0 <= currentZoom s →
  let s' := stateOf (handleWheel width height event s t) in
  (0 < deltaY event → currentZoom s' <= currentZoom s) ∧
  (deltaY event <= 0 → currentZoom s <= currentZoom s').
Proof.
  intros [Hmin Hmax] Hpos. unfold handleWheel, getEventCoordinates.
  unfold_monad. destruct (canvas s) as [rect |]; cbn; [| split; lra].
  match goal with
  | |- context [handleZoom ?f ?x ?y ?w ?h ?s' ?t'] =>
      destruct (handleZoom_outcome s' t' f x y w h)
        as [-> | (s1 & -> & _ & _ & _ & Hzoom & _)]
  end; cbn; [split; lra |].
  rewrite Hzoom. unfold clampZoom. split; intros Hdelta.
  - apply Qltb_lt in Hdelta. rewrite Hdelta.
    apply Q.max_lub; [exact Hmin |].
    eapply Qle_trans; [apply Q.le_min_r | lra].
  - apply Qltb_ge in Hdelta. rewrite Hdelta.
    eapply Qle_trans; [| apply Q.le_max_r].
    apply Q.min_glb; lra.
Qed.

(** *** Touch bookkeeping *)

Lemma touch_end_resets_baseline (ev : TouchEvent) (s : State) (t : list Effect) :
  (length (event_touches ev) < 2)%nat →
  lastTouchDistance (stateOf (handleTouchEnd ev s t)) = 0.
Proof.
  intros Hlen. unfold handleTouchEnd, getEventCoordinates. unfold_monad.
  destruct (event_touches ev) as [| p1 [| p2 rest]]; [| | cbn in Hlen; lia];
    split_cases; cbn; reflexivity.
Qed.

Lemma pinch_without_baseline (width height : Q) (p1 p2 : Pointer)
    (changed : option (list Pointer)) (s : State) (t : list Effect) :
  lastTouchDistance s <= 0 →
  let c := handleTouchMove width height (mkTouchEvent [p1; p2] changed) s t in
  panX (stateOf c) = panX s ∧ panY (stateOf c) = panY s ∧
  currentZoom (stateOf c) = currentZoom s ∧
  effectsOf c = t ++ [PreventDefault] ∧
  (zoomable s = true → ∀ rect, canvas s = Some rect →
   lastTouchDistance (stateOf c)
   = touchDistance (fl (clientX p1 - left rect), fl (clientY p1 - top rect))
       (fl (clientX p2 - left rect), fl (clientY p2 - top rect))).
Proof.
  intros Hlast. apply Qltb_ge in Hlast.
  unfold handleTouchMove, getEventCoordinates. unfold_monad. cbn.
  destruct (zoomable s); cbn; [| by repeat split].
  destruct (canvas s) as [rect |]; cbn; [| by repeat split].
  rewrite Hlast. cbn. repeat split. by intros _ rect' [= <-].
Qed.


(** *** A press, any pointer movement, a release *)




End HandlerExtras.

(** * Further lemmas on canvasUtils.js *)

Section StringLemmas.
Import Stdlib.Strings.Ascii Stdlib.Strings.String CanvasUtils CanvasSpec.
Local Open Scope string_scope.
#[local] Arguments isWhiteSpace : simpl never.
#[local] Arguments append !_ _ / : simpl nomatch.

Lemma trimStart_cases (s : string) :
  trimStart s = "" ∨ ∃ a r, trimStart s = String a r ∧ isWhiteSpace a = false.
Proof.
  induction s as [| a s IH]; [by left |]. cbn [trimStart].
  destruct (isWhiteSpace a) eqn:Ha; [exact IH |]. right. by exists a, s.
Qed.

Lemma trimEnd_head (a : ascii) (r : string) :
  isWhiteSpace a = false → trimEnd (String a r) = String a (trimEnd r).
Proof. intros Ha. cbn [trimEnd]. rewrite Ha. by destruct (trimEnd r). Qed.

Lemma trimEnd_idemp (s : string) : trimEnd (trimEnd s) = trimEnd s.
Proof.
  induction s as [| a s IH]; [done |]. cbn [trimEnd].
  destruct (trimEnd s) as [| b kept] eqn:Hs.
  - destruct (isWhiteSpace a) eqn:Ha; [done |]. cbn [trimEnd]. by rewrite Ha.
  - cbn [trimEnd]. cbn [trimEnd] in IH. by rewrite IH.
Qed.

Lemma trim_head (a : ascii) (r : string) :
  isWhiteSpace a = false → trim (String a r) = String a (trimEnd r).
Proof. intros Ha. unfold trim. cbn [trimStart]. rewrite Ha. by apply trimEnd_head. Qed.

Lemma trim_idemp (s : string) : trim (trim s) = trim s.
Proof.
  unfold trim at 2 3.
  destruct (trimStart_cases s) as [-> | (a & r & -> & Ha)]; [done |].
  rewrite (trimEnd_head a r Ha), (trim_head a _ Ha). by rewrite trimEnd_idemp.
Qed.

Lemma trim_space (s : string) : trim (String " " s) = trim s.
Proof. done. Qed.

Lemma trimEnd_last (s : string) (b : ascii) :
  isWhiteSpace b = false → trimEnd (s ++ String b "") = s ++ String b "".
Proof.
  intros Hb. induction s as [| a s IH]; cbn.
  - by rewrite Hb.
  - cbn in IH. rewrite IH. by destruct s.
Qed.

(** A string between a first and a last character that are not white
    space is its own trim. *)
Lemma trim_between (a b : ascii) (s : string) :
  isWhiteSpace a = false → isWhiteSpace b = false →
  trim (String a (s ++ String b "")) = String a (s ++ String b "").
Proof. intros Ha Hb. by rewrite (trim_head a _ Ha), (trimEnd_last s b Hb). Qed.

Lemma dropLast_last (s : string) (b : ascii) : dropLast (s ++ String b "") = s.
Proof.
  induction s as [| a s IH]; [done |]. cbn. cbn in IH. rewrite IH.
  by destruct s.
Qed.

(** *** Strings without a comma *)

Lemma noComma_app (s1 s2 : string) :
  noComma (s1 ++ s2) = noComma s1 && noComma s2.
Proof.
  induction s1 as [| a s1 IH]; [done |]. cbn. rewrite IH. by rewrite andb_assoc.
Qed.

Lemma splitComma_nonempty (s : string) : splitComma s ≠ [].
Proof.
  induction s as [| a s IH]; [done |]. cbn [splitComma].
  destruct (Ascii.eqb a ","); [done |]. by destruct (splitComma s).
Qed.

Lemma splitComma_noComma (s : string) : noComma s = true → splitComma s = [s].
Proof.
  induction s as [| a s IH]; [done |]. cbn. intros [Ha Hs]%andb_true_iff.
  apply negb_true_iff in Ha. rewrite Ha. by rewrite (IH Hs).
Qed.

Lemma splitComma_app (p rest : string) :
  noComma p = true →
  splitComma (p ++ String "," rest) = p :: splitComma rest.
Proof.
  induction p as [| a p IH]; [done |]. cbn. intros [Ha Hp]%andb_true_iff.
  apply negb_true_iff in Ha. rewrite Ha. by rewrite (IH Hp).
Qed.

Lemma splitComma_parts (s : string) :
  Forall (λ part, noComma part = true) (splitComma s).
Proof.
  induction s as [| a s IH]; [by repeat constructor |]. cbn [splitComma].
  destruct (Ascii.eqb a ",") eqn:Ha; [by constructor |].
  destruct (splitComma s) as [| part parts] eqn:Hs.
  - by apply splitComma_nonempty in Hs.
  - apply Forall_cons in IH as [Hpart Hparts]. constructor; [| done].
    cbn. by rewrite Ha, Hpart.
Qed.

Lemma trimStart_noComma (s : string) : noComma s = true → noComma (trimStart s) = true.
Proof.
  induction s as [| a s IH]; [done |]. cbn [trimStart].
  destruct (isWhiteSpace a); [| done]. cbn. by intros [_ Hs]%andb_true_iff; auto.
Qed.

Lemma trimEnd_noComma (s : string) : noComma s = true → noComma (trimEnd s) = true.
Proof.
  induction s as [| a s IH]; [done |]. cbn. intros [Ha Hs]%andb_true_iff.
  specialize (IH Hs). destruct (trimEnd s) as [| b kept].
  - destruct (isWhiteSpace a); [done |]. cbn. by rewrite Ha.
  - cbn. cbn in IH. by rewrite Ha, IH.
Qed.

Lemma trim_noComma (s : string) : noComma s = true → noComma (trim s) = true.
Proof. intros Hs. by apply trimEnd_noComma, trimStart_noComma. Qed.

End StringLemmas.

Section ColorLemmas.
Import Stdlib.Strings.Ascii Stdlib.Strings.String CanvasUtils CanvasSpec.
Local Open Scope string_scope.
#[local] Arguments isWhiteSpace : simpl never.
#[local] Arguments append !_ _ / : simpl nomatch.

Lemma append_assoc' (s1 s2 s3 : string) : (s1 ++ s2) ++ s3 = s1 ++ s2 ++ s3.
Proof. induction s1 as [| a s1 IH]; [done |]. cbn. by rewrite IH. Qed.

Lemma isPlain_noComma (s : string) : isPlain s = true → noComma s = true.
Proof.
  induction s as [| a s IH]; [done |]. cbn.
  intros [[_ Ha]%andb_true_iff Hs]%andb_true_iff. by rewrite Ha, IH.
Qed.

Lemma isPlain_trimEnd (s : string) : isPlain s = true → trimEnd s = s.
Proof.
  induction s as [| a s IH]; [done |]. cbn.
  intros [[Ha _]%andb_true_iff Hs]%andb_true_iff. apply negb_true_iff in Ha.
  rewrite (IH Hs), Ha. by destruct s.
Qed.

Lemma isPlain_trim (s : string) : isPlain s = true → trim s = s.
Proof.
  intros Hs. unfold trim. destruct s as [| a s]; [done |].
  pose proof Hs as Hs'. cbn in Hs'.
  apply andb_true_iff in Hs' as [[Ha _]%andb_true_iff _].
  apply negb_true_iff in Ha. cbn [trimStart]. rewrite Ha.
  by apply isPlain_trimEnd.
Qed.

Lemma string_of_uint_plain (d : Decimal.uint) :
  isPlain (NilEmpty.string_of_uint d) = true.
Proof. induction d; cbn; try done; by rewrite IHd. Qed.

Lemma integerToString_plain (r : option Z) : isPlain (integerToString r) = true.
Proof.
  destruct r as [n |]; [| done]. unfold integerToString, NilZero.string_of_int.
  destruct (Z.to_int n) as [d | d]; unfold NilZero.string_of_uint;
    destruct d; try done; cbn; by rewrite string_of_uint_plain.
Qed.

(** The colour string the conversion builds. *)
Lemma rgba_trimmed (inner : string) : trim ("rgba(" ++ inner ++ ")") = "rgba(" ++ inner ++ ")".
Proof.
  change ("rgba(" ++ inner ++ ")") with (String "r" (("gba(" ++ inner) ++ ")")).
  by apply trim_between.
Qed.

(** Converting a built colour again replaces its alpha. *)
Lemma convertColor_rebuild (p0 p1 p2 alpha beta : string) :
  noComma p0 = true → noComma p1 = true → noComma p2 = true →
  trim p0 = p0 → trim p1 = p1 → trim p2 = p2 →
  convertColor ("rgba(" ++ p0 ++ ", " ++ p1 ++ ", " ++ p2 ++ ", " ++ alpha ++ ")") beta
  = "rgba(" ++ p0 ++ ", " ++ p1 ++ ", " ++ p2 ++ ", " ++ beta ++ ")".
Proof.
  intros H0 H1 H2 T0 T1 T2. unfold convertColor.
  assert (Hstart : ∀ x, startsWith ("rgba(" ++ x) "rgba(" = true)
    by (by intros []).
  rewrite Hstart.
  assert (Hinner : sliceInner 5 ("rgba(" ++ p0 ++ ", " ++ p1 ++ ", " ++ p2
                                   ++ ", " ++ alpha ++ ")")
                   = p0 ++ String "," ((String " " p1)
                       ++ String "," ((String " " p2)
                       ++ String "," (String " " alpha)))).
  { unfold sliceInner. cbn [sliceFrom append].
    replace (p0 ++ String "," (String " " (p1 ++ String "," (String " "
               (p2 ++ String "," (String " " (alpha ++ ")")))))))
      with ((p0 ++ String "," (String " " (p1 ++ String "," (String " "
               (p2 ++ String "," (String " " alpha)))))) ++ ")").
    - by rewrite dropLast_last.
    - rewrite append_assoc'. cbn. rewrite append_assoc'. cbn.
      by rewrite append_assoc'. }
  rewrite Hinner.
  rewrite (splitComma_app p0 _ H0).
  rewrite (splitComma_app (String " " p1) _ ltac:(exact H1)).
  rewrite (splitComma_app (String " " p2) _ ltac:(exact H2)).
  cbn [map]. rewrite !trim_space, T0, T1, T2.
  by destruct (splitComma (String " " alpha)).
Qed.

Lemma convertColor_shape (c alpha : string) :
  convertColor c alpha = c ∨
  ∃ p0 p1 p2,
    noComma p0 = true ∧ noComma p1 = true ∧ noComma p2 = true ∧
    trim p0 = p0 ∧ trim p1 = p1 ∧ trim p2 = p2 ∧
    ∀ beta, convertColor c beta
            = "rgba(" ++ p0 ++ ", " ++ p1 ++ ", " ++ p2 ++ ", " ++ beta ++ ")".
Proof.
  assert (Hparts : ∀ inner,
            Forall (λ part, noComma part = true ∧ trim part = part)
                   (map trim (splitComma inner))).
  { intros inner. apply Forall_map.
    eapply Forall_impl; [apply splitComma_parts |].
    intros part Hpart. cbn. split; [by apply trim_noComma | apply trim_idemp]. }
  unfold convertColor.
  destruct (startsWith c "rgba(").
  { specialize (Hparts (sliceInner 5 c)).
    destruct (map trim (splitComma (sliceInner 5 c)))
      as [| p0 [| p1 [| p2 rest]]]; [by left.. |].
    apply Forall_cons in Hparts as [[? ?] Hparts].
    apply Forall_cons in Hparts as [[? ?] Hparts].
    apply Forall_cons in Hparts as [[? ?] _].
    right. by exists p0, p1, p2. }
  destruct (startsWith c "rgb(").
  { specialize (Hparts (sliceInner 4 c)).
    destruct (map trim (splitComma (sliceInner 4 c)))
      as [| p0 [| p1 [| p2 rest]]]; [by left.. |].
    apply Forall_cons in Hparts as [[? ?] Hparts].
    apply Forall_cons in Hparts as [[? ?] Hparts].
    apply Forall_cons in Hparts as [[? ?] _].
    right. by exists p0, p1, p2. }
  destruct c as [| a hex]; [by left |].
  destruct (Ascii.eqb a "#") eqn:Ha.
  - apply Ascii.eqb_eq in Ha as ->.
    destruct (Nat.eqb (String.length
                (if Nat.eqb (String.length hex) 3 then doubleEach hex else hex)) 6);
      [| by left].
    right. eexists _, _, _.
    do 3 (split; [apply isPlain_noComma, integerToString_plain |]).
    do 3 (split; [apply isPlain_trim, integerToString_plain |]).
    intros beta. reflexivity.
  - left. destruct a as [[] [] [] [] [] [] [] []]; try discriminate Ha; done.
Qed.

Lemma convertColor_again (c alpha beta : string) :
  trim c = c →
  trim (convertColor c alpha) = convertColor c alpha ∧
  convertColor (convertColor c alpha) beta = convertColor c beta.
Proof.
  intros Hc.
  destruct (convertColor_shape c alpha)
    as [Hsame | (p0 & p1 & p2 & H0 & H1 & H2 & T0 & T1 & T2 & Hbuilt)].
  - by rewrite Hsame.
  - rewrite !Hbuilt. split.
    + replace (p0 ++ ", " ++ p1 ++ ", " ++ p2 ++ ", " ++ alpha ++ ")")
        with ((p0 ++ ", " ++ p1 ++ ", " ++ p2 ++ ", " ++ alpha) ++ ")").
      * apply rgba_trimmed.
      * by rewrite !append_assoc'.
    + by apply convertColor_rebuild.
Qed.

Lemma convertColor_empty (c alpha : string) : convertColor c alpha = "" → c = "".
Proof.
  destruct (convertColor_shape c alpha)
    as [Hsame | (p0 & p1 & p2 & _ & _ & _ & _ & _ & _ & Hbuilt)].
  - congruence.
  - rewrite Hbuilt. discriminate.
Qed.

End ColorLemmas.

Section ColorCache.
Import Stdlib.Strings.Ascii Stdlib.Strings.String CanvasUtils CanvasSpec.
Local Open Scope string_scope.
#[local] Arguments isWhiteSpace : simpl never.
#[local] Arguments append !_ _ / : simpl nomatch.

Variable Number_toString : Q → string.

Lemma colorValue_spec (color : string) (alpha : option Q) :
  colorValue Number_toString (Some color) alpha
  = Some (let c := trim color in
          if String.eqb c "" then c else
          match alpha with
          | None => c
          | Some a => if Qeq_bool a 1 then c
                      else convertColor c (Number_toString a)
          end).
Proof.
  unfold colorValue, colorWithAlpha. cbv zeta.
  destruct (String.eqb (trim color) ""); [done |].
  destruct alpha as [a |]; [| done].
  destruct (Qeq_bool a 1); [done |]. by rewrite lookup_empty.
Qed.

(** X21.  The last alpha wins: applying [colorWithAlpha] with an alpha
    other than 1 to the result of an earlier [colorWithAlpha] gives what
    applying it to the original colour gives. *)
Lemma colorValue_again (color : string) (alpha : option Q) (beta : Q) :
  Qeq_bool beta 1 = false →
  ∀ first, colorValue Number_toString (Some color) alpha = Some first →
  colorValue Number_toString (Some first) (Some beta)
  = colorValue Number_toString (Some color) (Some beta).
Proof.
  intros Hbeta first. rewrite !colorValue_spec. cbv zeta. rewrite Hbeta.
  set (c := trim color).
  assert (Hc : trim c = c) by apply trim_idemp.
  destruct (String.eqb c "") eqn:Hempty.
  - intros [= <-]. by rewrite Hc, Hempty.
  - assert (Hsame : convertColor c (Number_toString beta)
                    = convertColor c (Number_toString beta)) by done.
    destruct alpha as [a |]; [destruct (Qeq_bool a 1) |];
      intros [= <-]; try (by rewrite Hc, Hempty).
    destruct (convertColor_again c (Number_toString a) (Number_toString beta) Hc)
      as [Htrim Hagain].
    rewrite Htrim, Hagain.
    destruct (String.eqb (convertColor c (Number_toString a)) "") eqn:Hres;
      [| done].
    apply String.eqb_eq, convertColor_empty in Hres.
    rewrite Hres in Hempty. discriminate.
Qed.

Lemma noBar_bar (s rest : string) : noBar (s ++ String "|" rest) = false.
Proof.
  induction s as [| a s IH]; [done |]. cbn. cbn in IH. rewrite IH.
  by rewrite andb_false_r.
Qed.

Lemma cacheKey_inj (c1 c2 a1 a2 : string) :
  noBar a1 = true → noBar a2 = true →
  c1 ++ "|" ++ a1 = c2 ++ "|" ++ a2 → c1 = c2 ∧ a1 = a2.
Proof.
  intros H1 H2. revert c2.
  induction c1 as [| x c1 IH]; intros [| y c2]; cbn; intros Heq.
  - by injection Heq.
  - injection Heq as _ Heq. rewrite Heq in H1.
    pose proof (noBar_bar c2 a2) as Hbar. cbn in Hbar. congruence.
  - injection Heq as _ Heq. rewrite <- Heq in H2.
    pose proof (noBar_bar c1 a1) as Hbar. cbn in Hbar. congruence.
  - injection Heq as -> Heq. destruct (IH c2 Heq) as [-> ->]. done.
Qed.

Hypothesis Number_toString_noBar : ∀ q, noBar (Number_toString q) = true.

Lemma colorWithAlpha_step (color : option string) (alpha : option Q)
    (cache : gmap string string) :
  cacheCoherent Number_toString cache → (size cache ≤ 257)%nat →
  let r := colorWithAlpha Number_toString color alpha cache in
  r.1 = colorValue Number_toString color alpha ∧
  cacheCoherent Number_toString r.2 ∧ (size r.2 ≤ 257)%nat.
Proof.
  intros Hcoh Hsize. destruct color as [color |]; [| done].
  rewrite colorValue_spec. unfold colorWithAlpha. cbv zeta.
  destruct (String.eqb (trim color) ""); [done |].
  destruct alpha as [a |]; [| done].
  destruct (Qeq_bool a 1); [done |].
  destruct (cache !! (trim color ++ "|" ++ Number_toString a)) as [cached |] eqn:Hkey.
  - cbn. split; [| done]. f_equal. by apply Hcoh.
  - cbn [fst snd]. split; [done |].
    assert (Hinsert : ∀ old : gmap string string,
              cacheCoherent Number_toString old →
              cacheCoherent Number_toString
                (<[trim color ++ "|" ++ Number_toString a
                   := convertColor (trim color) (Number_toString a)]> old)).
    { intros old Hold c' a' v.
      destruct (decide (trim color ++ "|" ++ Number_toString a
                        = c' ++ "|" ++ Number_toString a')) as [Heq | Hne].
      - rewrite <- Heq, lookup_insert_eq. intros [= <-].
        destruct (cacheKey_inj _ _ _ _ (Number_toString_noBar a)
                    (Number_toString_noBar a') Heq) as [-> ->]. done.
      - rewrite lookup_insert_ne by done. apply Hold. }
    unfold _COLOR_CACHE_MAX_SIZE.
    destruct (256 <? size cache)%nat eqn:Hfull.
    + split.
      * apply Hinsert. intros c' a' v. by rewrite lookup_empty.
      * rewrite insert_empty, map_size_singleton. lia.
    + apply Nat.ltb_ge in Hfull. split; [by apply Hinsert |].
      rewrite map_size_insert_None by done. lia.
Qed.

Lemma colorWithAlpha_calls_sound (calls : list (option string * option Q)) :
  ∀ cache, cacheCoherent Number_toString cache → (size cache ≤ 257)%nat →
  let r := colorWithAlpha_calls Number_toString calls cache in
  r.1 = map (λ call, colorValue Number_toString call.1 call.2) calls ∧
  cacheCoherent Number_toString r.2 ∧ (size r.2 ≤ 257)%nat.
Proof.
  induction calls as [| [color alpha] calls IH]; intros cache Hcoh Hsize; [done |].
  cbn [colorWithAlpha_calls map].
  destruct (colorWithAlpha_step color alpha cache Hcoh Hsize) as (Hr & Hcoh' & Hsize').
  destruct (colorWithAlpha Number_toString color alpha cache) as [result cache'].
  cbn [fst snd] in *.
  destruct (IH cache' Hcoh' Hsize') as (Hrs & Hcoh'' & Hsize'').
  destruct (colorWithAlpha_calls Number_toString calls cache') as [results cache''].
  cbn [fst snd] in *. by rewrite Hr, Hrs.
Qed.

(** *** Hexadecimal colours *)

Lemma hexDigit_plain (h : ascii) (v : Z) :
  hexDigitValue h = Some v →
  negb (isWhiteSpace h) && negb (Ascii.eqb h ",") = true.
Proof.
  destruct h as [[] [] [] [] [] [] [] []]; intros Hv; vm_compute in Hv;
    try discriminate Hv; reflexivity.
Qed.

Lemma hexDigitValue_cases (h : ascii) (v : Z) :
  hexDigitValue h = Some v →
  In (h, v)
    [("0", 0); ("1", 1); ("2", 2); ("3", 3); ("4", 4); ("5", 5); ("6", 6);
     ("7", 7); ("8", 8); ("9", 9); ("a", 10); ("b", 11); ("c", 12); ("d", 13);
     ("e", 14); ("f", 15); ("A", 10); ("B", 11); ("C", 12); ("D", 13);
     ("E", 14); ("F", 15)]%char%Z.
Proof.
  destruct h as [[] [] [] [] [] [] [] []]; intros Hv; vm_compute in Hv;
    try discriminate Hv; injection Hv as <-;
    repeat (first [left; reflexivity | right]).
Qed.

Lemma parseInt16_pair (h1 h2 : ascii) (v1 v2 : Z) :
  hexDigitValue h1 = Some v1 → hexDigitValue h2 = Some v2 →
  parseInt16 (String h1 (String h2 "")) = Some (16 * v1 + v2)%Z.
Proof.
  intros H1%hexDigitValue_cases H2%hexDigitValue_cases.
  repeat destruct H1 as [[= <- <-] | H1]; try contradiction;
    repeat destruct H2 as [[= <- <-] | H2]; try contradiction;
    vm_compute; reflexivity.
Qed.

End ColorCache.

Section StyleLemmas.
Import Stdlib.Strings.String CanvasUtils CanvasSpec.

Lemma String_eqb_neq_false (s v : string) : negb (String.eqb s v) = false → s = v.
Proof. intros H%negb_false_iff. by apply String.eqb_eq. Qed.

Lemma Qeq_bool_neq_false (a v : Q) : negb (Qeq_bool a v) = false → a == v.
Proof. intros H%negb_false_iff. by apply Qeq_bool_iff. Qed.

(** One [if (styles.x !== undefined && ctx.x !== styles.x) ctx.x = styles.x]. *)
Lemma style_step {A : Type} (eqb : A → A → bool) (R : A → A → Prop)
    (s : option A) (old : A) (mk : A → Context2D) (W : A → StyleWrite)
    (w : list StyleWrite) :
  (∀ a v, negb (eqb a v) = false → R a v) → (∀ v, R v v) →
  ∃ new w',
    match s with
    | Some v => if negb (eqb old v) then (mk v, (w ++ [W v])%list) else (mk old, w)
    | None => (mk old, w)
    end = (mk new, w') ∧
    (∀ v, s = Some v → R new v) ∧ (s = None → new = old) ∧
    (List.length w' ≤ S (List.length w))%nat.
Proof.
  intros Heqb Hrefl. destruct s as [v |]; [destruct (negb (eqb old v)) eqn:E |].
  - exists v, (w ++ [W v])%list. rewrite length_app. cbn.
    repeat split; [by intros ? [= <-] | done | lia].
  - exists old, w. repeat split; [intros ? [= <-]; by apply Heqb | lia].
  - exists old, w. repeat split; [done | lia].
Qed.

Lemma setCanvasStyles_applies (ctx : Context2D) (styles : Styles) :
  ∃ ctx' writes,
    setCanvasStyles (Some ctx) styles = (Some ctx', writes) ∧
    stylesInEffect styles ctx' ∧ otherStylesKept styles ctx ctx' ∧
    (List.length writes ≤ 7)%nat.
Proof.
  destruct styles as [s1 s2 s3 s4 s5 s6 s7], ctx as [c1 c2 c3 c4 c5 c6 c7].
  unfold setCanvasStyles, stylesInEffect, otherStylesKept.
  cbn [strokeStyle fillStyle lineWidth globalAlpha textAlign textBaseline font
       ctx_strokeStyle ctx_fillStyle ctx_lineWidth ctx_globalAlpha ctx_textAlign
       ctx_textBaseline ctx_font].
  destruct (style_step String.eqb eq s1 c1
              (λ x, mkContext2D x c2 c3 c4 c5 c6 c7) WriteStrokeStyle []
              String_eqb_neq_false (λ _, eq_refl)) as (n1 & w1 & E1 & I1 & K1 & L1).
  cbn [app] in E1. rewrite E1. clear E1.
  cbn [ctx_strokeStyle ctx_fillStyle ctx_lineWidth ctx_globalAlpha ctx_textAlign
       ctx_textBaseline ctx_font].
  destruct (style_step String.eqb eq s2 c2
              (λ x, mkContext2D n1 x c3 c4 c5 c6 c7) WriteFillStyle w1
              String_eqb_neq_false (λ _, eq_refl)) as (n2 & w2 & E2 & I2 & K2 & L2).
  rewrite E2. clear E2.
  cbn [ctx_strokeStyle ctx_fillStyle ctx_lineWidth ctx_globalAlpha ctx_textAlign
       ctx_textBaseline ctx_font].
  destruct (style_step Qeq_bool Qeq s3 c3
              (λ x, mkContext2D n1 n2 x c4 c5 c6 c7) WriteLineWidth w2
              Qeq_bool_neq_false Qeq_refl) as (n3 & w3 & E3 & I3 & K3 & L3).
  rewrite E3. clear E3.
  cbn [ctx_strokeStyle ctx_fillStyle ctx_lineWidth ctx_globalAlpha ctx_textAlign
       ctx_textBaseline ctx_font].
  destruct (style_step Qeq_bool Qeq s4 c4
              (λ x, mkContext2D n1 n2 n3 x c5 c6 c7) WriteGlobalAlpha w3
              Qeq_bool_neq_false Qeq_refl) as (n4 & w4 & E4 & I4 & K4 & L4).
  rewrite E4. clear E4.
  cbn [ctx_strokeStyle ctx_fillStyle ctx_lineWidth ctx_globalAlpha ctx_textAlign
       ctx_textBaseline ctx_font].
  destruct (style_step String.eqb eq s5 c5
              (λ x, mkContext2D n1 n2 n3 n4 x c6 c7) WriteTextAlign w4
              String_eqb_neq_false (λ _, eq_refl)) as (n5 & w5 & E5 & I5 & K5 & L5).
  rewrite E5. clear E5.
  cbn [ctx_strokeStyle ctx_fillStyle ctx_lineWidth ctx_globalAlpha ctx_textAlign
       ctx_textBaseline ctx_font].
  destruct (style_step String.eqb eq s6 c6
              (λ x, mkContext2D n1 n2 n3 n4 n5 x c7) WriteTextBaseline w5
              String_eqb_neq_false (λ _, eq_refl)) as (n6 & w6 & E6 & I6 & K6 & L6).
  rewrite E6. clear E6.
  cbn [ctx_strokeStyle ctx_fillStyle ctx_lineWidth ctx_globalAlpha ctx_textAlign
       ctx_textBaseline ctx_font].
  destruct (style_step String.eqb eq s7 c7
              (λ x, mkContext2D n1 n2 n3 n4 n5 n6 x) WriteFont w6
              String_eqb_neq_false (λ _, eq_refl)) as (n7 & w7 & E7 & I7 & K7 & L7).
  rewrite E7. clear E7.
  eexists _, _. split; [reflexivity |].
  cbn [ctx_strokeStyle ctx_fillStyle ctx_lineWidth ctx_globalAlpha ctx_textAlign
       ctx_textBaseline ctx_font].
  cbn [List.length] in L1.
  split; [by repeat split |]. split; [| lia].
  repeat split; intros Hnone; [apply K1 | apply K2 | rewrite (K3 Hnone)
    | rewrite (K4 Hnone) | apply K5 | apply K6 | apply K7]; done.
Qed.

Lemma setCanvasStyles_nothing_to_do (ctx : Context2D) (styles : Styles) :
  stylesInEffect styles ctx → setCanvasStyles (Some ctx) styles = (Some ctx, []).
Proof.
  destruct styles as [s1 s2 s3 s4 s5 s6 s7], ctx as [c1 c2 c3 c4 c5 c6 c7].
  unfold setCanvasStyles, stylesInEffect.
  cbn [strokeStyle fillStyle lineWidth globalAlpha textAlign textBaseline font
       ctx_strokeStyle ctx_fillStyle ctx_lineWidth ctx_globalAlpha ctx_textAlign
       ctx_textBaseline ctx_font].
  intros (H1 & H2 & H3 & H4 & H5 & H6 & H7).
  assert (E1 : ∀ v, s1 = Some v → negb (String.eqb c1 v) = false)
    by (intros v ->%H1; by rewrite String.eqb_refl).
  assert (E2 : ∀ v, s2 = Some v → negb (String.eqb c2 v) = false)
    by (intros v ->%H2; by rewrite String.eqb_refl).
  assert (E3 : ∀ v, s3 = Some v → negb (Qeq_bool c3 v) = false)
    by (intros v Hv%H3; apply Qeq_bool_iff in Hv; by rewrite Hv).
  assert (E4 : ∀ v, s4 = Some v → negb (Qeq_bool c4 v) = false)
    by (intros v Hv%H4; apply Qeq_bool_iff in Hv; by rewrite Hv).
  assert (E5 : ∀ v, s5 = Some v → negb (String.eqb c5 v) = false)
    by (intros v ->%H5; by rewrite String.eqb_refl).
  assert (E6 : ∀ v, s6 = Some v → negb (String.eqb c6 v) = false)
    by (intros v ->%H6; by rewrite String.eqb_refl).
  assert (E7 : ∀ v, s7 = Some v → negb (String.eqb c7 v) = false)
    by (intros v ->%H7; by rewrite String.eqb_refl).
  clear H1 H2 H3 H4 H5 H6 H7.
  destruct s1; [rewrite (E1 _ eq_refl) |]; cbn [ctx_strokeStyle ctx_fillStyle ctx_lineWidth ctx_globalAlpha
                 ctx_textAlign ctx_textBaseline ctx_font];
    (destruct s2; [rewrite (E2 _ eq_refl) |]); cbn [ctx_strokeStyle ctx_fillStyle ctx_lineWidth ctx_globalAlpha
                 ctx_textAlign ctx_textBaseline ctx_font];
    (destruct s3; [rewrite (E3 _ eq_refl) |]); cbn [ctx_strokeStyle ctx_fillStyle ctx_lineWidth ctx_globalAlpha
                 ctx_textAlign ctx_textBaseline ctx_font];
    (destruct s4; [rewrite (E4 _ eq_refl) |]); cbn [ctx_strokeStyle ctx_fillStyle ctx_lineWidth ctx_globalAlpha
                 ctx_textAlign ctx_textBaseline ctx_font];
    (destruct s5; [rewrite (E5 _ eq_refl) |]); cbn [ctx_strokeStyle ctx_fillStyle ctx_lineWidth ctx_globalAlpha
                 ctx_textAlign ctx_textBaseline ctx_font];
    (destruct s6; [rewrite (E6 _ eq_refl) |]); cbn [ctx_strokeStyle ctx_fillStyle ctx_lineWidth ctx_globalAlpha
                 ctx_textAlign ctx_textBaseline ctx_font];
    (destruct s7; [rewrite (E7 _ eq_refl) |]); reflexivity.
Qed.

(** X25.  On a context whose properties read back what was assigned,
    [setCanvasStyles] leaves every given style in effect, keeps the
    properties for which none is given, makes at most seven
    assignments, and a second call with the same styles makes none. *)
Lemma setCanvasStyles_settles (ctx : Context2D) (styles : Styles) :
  ∃ ctx' writes,
    setCanvasStyles (Some ctx) styles = (Some ctx', writes) ∧
    stylesInEffect styles ctx' ∧ otherStylesKept styles ctx ctx' ∧
    (List.length writes ≤ 7)%nat ∧
    setCanvasStyles (Some ctx') styles = (Some ctx', []).
Proof.
  destruct (setCanvasStyles_applies ctx styles) as (ctx' & writes & E & Hin & Hkept & Hlen).
  exists ctx', writes. do 4 (split; [done |]).
  by apply setCanvasStyles_nothing_to_do.
Qed.

End StyleLemmas.

Section ColorHex.
Import Stdlib.Strings.Ascii Stdlib.Strings.String CanvasUtils CanvasSpec.
Local Open Scope string_scope.
#[local] Arguments isWhiteSpace : simpl never.
#[local] Arguments append !_ _ / : simpl nomatch.

Variable Number_toString : Q → string.

Lemma hexDigitValue_range (h : ascii) (v : Z) :
  hexDigitValue h = Some v → (0 ≤ v ≤ 15)%Z.
Proof.
  intros H%hexDigitValue_cases.
  repeat destruct H as [[= <- <-] | H]; try contradiction; lia.
Qed.

Lemma convertColor_hex6 (h1 h2 h3 h4 h5 h6 : ascii) (v1 v2 v3 v4 v5 v6 : Z)
    (alpha : string) :
  hexDigitValue h1 = Some v1 → hexDigitValue h2 = Some v2 →
  hexDigitValue h3 = Some v3 → hexDigitValue h4 = Some v4 →
  hexDigitValue h5 = Some v5 → hexDigitValue h6 = Some v6 →
  convertColor
    (String "#" (String h1 (String h2 (String h3 (String h4 (String h5
       (String h6 ""))))))) alpha
  = "rgba(" ++ integerToString (Some (16 * v1 + v2)%Z) ++ ", "
      ++ integerToString (Some (16 * v3 + v4)%Z) ++ ", "
      ++ integerToString (Some (16 * v5 + v6)%Z) ++ ", " ++ alpha ++ ")".
Proof.
  intros H1 H2 H3 H4 H5 H6. unfold convertColor.
  change (startsWith (String "#" ?x) "rgba(") with false.
  change (startsWith (String "#" ?x) "rgb(") with false.
  cbn [String.length Nat.eqb substring].
  by rewrite (parseInt16_pair h1 h2 v1 v2 H1 H2),
    (parseInt16_pair h3 h4 v3 v4 H3 H4), (parseInt16_pair h5 h6 v5 v6 H5 H6).
Qed.

Lemma convertColor_hex3 (h1 h2 h3 : ascii) (alpha : string) :
  convertColor (String "#" (String h1 (String h2 (String h3 "")))) alpha
  = convertColor
      (String "#" (String h1 (String h1 (String h2 (String h2 (String h3
         (String h3 ""))))))) alpha.
Proof. reflexivity. Qed.

Lemma hexColor_trimmed (hex : string) :
  isPlain hex = true → trim (String "#" hex) = String "#" hex.
Proof. intros Hplain. apply isPlain_trim. cbn. by rewrite Hplain. Qed.

Lemma colorValue_trimmed (c : string) (alpha : Q) :
  trim c = c → c ≠ "" → Qeq_bool alpha 1 = false →
  colorValue Number_toString (Some c) (Some alpha)
  = Some (convertColor c (Number_toString alpha)).
Proof.
  intros Htrim Hne Halpha. rewrite colorValue_spec. cbv zeta.
  rewrite Htrim, Halpha.
  destruct (String.eqb c "") eqn:Hempty; [| done].
  by apply String.eqb_eq in Hempty.
Qed.

End ColorHex.

Section SetupCanvasLemmas.
Import CanvasUtils CanvasSpec.

Variable getContext : nat → option nat.

Lemma Qeq_bool_trans_l (a b c : Q) :
  a == b → Qeq_bool b c = true → Qeq_bool a c = true.
Proof.
  intros Hab Hbc%Qeq_bool_iff. apply Qeq_bool_iff. by rewrite Hab.
Qed.

Lemma setupCanvas_transparent (dpr : option Q) (canvas : option nat)
    (width height : Q) (cache : CanvasCache) :
  canvasCacheCoherent getContext cache →
  let r := setupCanvas getContext dpr canvas width height cache in
  r.1.1 = canvas ≫= getContext ∧ canvasCacheCoherent getContext r.1.2.
Proof.
  intros Hcoh. destruct canvas as [canvas |]; [| done].
  unfold setupCanvas.
  set (d := match dpr with Some d => if Qeq_bool d 0 then 1 else d | None => 1 end).
  assert (Hmiss :
    let r := match getContext canvas with
             | None => (None, cache,
                        [SetWidth canvas (width * d); SetHeight canvas (height * d);
                         SetStyleWidth canvas width; SetStyleHeight canvas height;
                         GetContext canvas])
             | Some ctx =>
                 (Some ctx, mkCanvasCache (Some canvas) width height d (Some ctx),
                  [SetWidth canvas (width * d); SetHeight canvas (height * d);
                   SetStyleWidth canvas width; SetStyleHeight canvas height;
                   GetContext canvas] ++
                  [Scale ctx d d; SetImageSmoothingEnabled ctx true;
                   SetImageSmoothingQuality ctx "high"; SetLineCap ctx "round";
                   SetLineJoin ctx "round"])
             end in
    r.1.1 = Some canvas ≫= getContext ∧ canvasCacheCoherent getContext r.1.2).
  { cbn. destruct (getContext canvas) as [ctx |] eqn:Hctx; cbn; [| done].
    split; [done |]. intros c x [= <-] [= <-]. done. }
  destruct (_lastCanvasRef cache) as [last |] eqn:Hlast;
    destruct (_cachedCtx cache) as [ctx |] eqn:Hctx; try exact Hmiss.
  destruct (Nat.eqb canvas last && Qeq_bool width (_lastWidth cache)
            && Qeq_bool height (_lastHeight cache)
            && Qeq_bool d (_lastDpr cache)) eqn:Hhit; [| exact Hmiss].
  cbn. split; [| done].
  apply andb_true_iff in Hhit as [Hhit _]. apply andb_true_iff in Hhit as [Hhit _].
  apply andb_true_iff in Hhit as [Hsame%Nat.eqb_eq _]. subst last.
  symmetry. by apply Hcoh.
Qed.

Lemma setupCanvas_calls_transparent (calls : list (option Q * option nat * Q * Q)) :
  ∀ cache, canvasCacheCoherent getContext cache →
  let r := setupCanvas_calls getContext calls cache in
  r.1 = map (λ call, call.1.1.2 ≫= getContext) calls ∧
  canvasCacheCoherent getContext r.2.
Proof.
  induction calls as [| [[[dpr canvas] width] height] calls IH];
    intros cache Hcoh; [done |].
  cbn [setupCanvas_calls map].
  destruct (setupCanvas_transparent dpr canvas width height cache Hcoh)
    as [Hr Hcoh'].
  destruct (setupCanvas getContext dpr canvas width height cache)
    as [[ctx cache'] ops].
  cbn [fst snd] in *.
  destruct (IH cache' Hcoh') as [Hrs Hcoh''].
  destruct (setupCanvas_calls getContext calls cache') as [ctxs cache''].
  cbn [fst snd] in *. by rewrite Hr, Hrs.
Qed.

Lemma initialCache_coherent : canvasCacheCoherent getContext initialCache.
Proof. intros canvas ctx Hlast. discriminate Hlast. Qed.

(** X26.  After a successful [setupCanvas], a call with the same
    canvas, the same pixel ratio and a width and height equal as numbers
    returns the same context, leaves the cache as it is, and neither
    resizes the canvas nor scales the context again. *)
Lemma setupCanvas_again (dpr : option Q) (canvas : nat) (width height width' height' : Q)
    (cache cache' : CanvasCache) (ctx : nat) (ops : list CanvasOp) :
  setupCanvas getContext dpr (Some canvas) width height cache = (Some ctx, cache', ops) →
  width' == width → height' == height →
  setupCanvas getContext dpr (Some canvas) width' height' cache' = (Some ctx, cache', []).
Proof.
  intros Hfirst Hw Hh. unfold setupCanvas in *.
  set (d := match dpr with Some d => if Qeq_bool d 0 then 1 else d | None => 1 end) in *.
  assert (Hmiss :
    match getContext canvas with
    | None => (None, cache,
               [SetWidth canvas (width * d); SetHeight canvas (height * d);
                SetStyleWidth canvas width; SetStyleHeight canvas height;
                GetContext canvas])
    | Some ctx =>
        (Some ctx, mkCanvasCache (Some canvas) width height d (Some ctx),
         [SetWidth canvas (width * d); SetHeight canvas (height * d);
          SetStyleWidth canvas width; SetStyleHeight canvas height;
          GetContext canvas] ++
         [Scale ctx d d; SetImageSmoothingEnabled ctx true;
          SetImageSmoothingQuality ctx "high"; SetLineCap ctx "round";
          SetLineJoin ctx "round"])
    end = (Some ctx, cache', ops) →
    cache' = mkCanvasCache (Some canvas) width height d (Some ctx)).
  { destruct (getContext canvas) as [ctx0 |]; [| done]. by intros [= <- <- _]. }
  assert (Hfresh :
    cache' = mkCanvasCache (Some canvas) width height d (Some ctx) →
    match
      match _lastCanvasRef cache', _cachedCtx cache' with
      | Some last, Some ctx0 =>
          if Nat.eqb canvas last && Qeq_bool width' (_lastWidth cache')
             && Qeq_bool height' (_lastHeight cache')
             && Qeq_bool d (_lastDpr cache')
          then Some ctx0 else None
      | _, _ => None
      end
    with
    | Some ctx0 => (Some ctx0, cache', [])
    | None =>
        match getContext canvas with
        | None => (None, cache',
                   [SetWidth canvas (width' * d); SetHeight canvas (height' * d);
                    SetStyleWidth canvas width'; SetStyleHeight canvas height';
                    GetContext canvas])
        | Some ctx0 =>
            (Some ctx0, mkCanvasCache (Some canvas) width' height' d (Some ctx0),
             [SetWidth canvas (width' * d); SetHeight canvas (height' * d);
              SetStyleWidth canvas width'; SetStyleHeight canvas height';
              GetContext canvas] ++
             [Scale ctx0 d d; SetImageSmoothingEnabled ctx0 true;
              SetImageSmoothingQuality ctx0 "high"; SetLineCap ctx0 "round";
              SetLineJoin ctx0 "round"])
        end
    end = (Some ctx, cache', [])).
  { intros ->. cbn. rewrite Nat.eqb_refl, Qeq_bool_refl.
    apply Qeq_bool_iff in Hw, Hh. by rewrite Hw, Hh. }
  destruct (_lastCanvasRef cache) as [last |] eqn:Hlast;
    destruct (_cachedCtx cache) as [ctx0 |] eqn:Hctx;
    try (apply Hfresh, Hmiss, Hfirst).
  destruct (Nat.eqb canvas last && Qeq_bool width (_lastWidth cache)
            && Qeq_bool height (_lastHeight cache)
            && Qeq_bool d (_lastDpr cache)) eqn:Hhit;
    [| apply Hfresh, Hmiss, Hfirst].
  injection Hfirst as <- <- _. rewrite Hlast, Hctx.
  apply andb_true_iff in Hhit as [Hhit Hd]. apply andb_true_iff in Hhit as [Hhit Hh'].
  apply andb_true_iff in Hhit as [Hsame Hw'].
  rewrite Hsame, Hd, (Qeq_bool_trans_l _ _ _ Hw Hw'), (Qeq_bool_trans_l _ _ _ Hh Hh').
  done.
Qed.

End SetupCanvasLemmas.

(** * The traversal and the overrides on acyclic maps *)

Section CollapseProperties.
Import CollapseAnimation.

(** X2.  On an acyclic map [getDescendantIds] returns, and what it
    returns are exactly the ids reachable from [nodeId] along one or more
    child edges: nothing below the node is left out, nothing else is
    listed. *)
Theorem getDescendantIds_reachable_exactly
    (nodeId : string) (m : gmap string (list Child)) :
  acyclic m →
  ∃ fuel0 ds,
    (∀ fuel, (fuel0 ≤ fuel)%nat → getDescendantIds fuel nodeId m = Some ds) ∧
    ∀ k, k ∈ ds ↔ tc (edge m) nodeId k.
Proof.
  intros Hac. destruct (getDescendantIds_total m nodeId Hac) as (fuel0 & ds & Hds).
  exists fuel0, ds. split; [exact Hds |].
  apply (getDescendantIds_reach m fuel0 nodeId ds). by apply Hds.
Qed.

Lemma getDescendantIds_reachable_exactly_witness :
  acyclic TestTree.parentToChildrenNodeMap ∧
  ∃ fuel0 ds,
    (∀ fuel, (fuel0 ≤ fuel)%nat →
       getDescendantIds fuel "root" TestTree.parentToChildrenNodeMap = Some ds) ∧
    ∀ k, k ∈ ds ↔ tc (edge TestTree.parentToChildrenNodeMap) "root" k.
Proof.
  split; [exact TestTree_acyclic |].
  exact (getDescendantIds_reachable_exactly "root" _ TestTree_acyclic).
Defined.

(** X3.  On an acyclic map in which no id occurs twice among all the
    children arrays (a forest), [getDescendantIds] lists every descendant
    once. *)
Theorem getDescendantIds_no_duplicates
    (nodeId : string) (m : gmap string (list Child)) :
  acyclic m → NoDup (allChildIds m) →
  ∃ fuel0 ds,
    (∀ fuel, (fuel0 ≤ fuel)%nat → getDescendantIds fuel nodeId m = Some ds) ∧
    NoDup ds.
Proof.
  intros Hac Hforest.
  destruct (getDescendantIds_total m nodeId Hac) as (fuel0 & ds & Hds).
  exists fuel0, ds. split; [exact Hds |].
  apply (getDescendantIds_NoDup m nodeId Hac Hforest fuel0). by apply Hds.
Qed.

Lemma TestTree_forest : NoDup (allChildIds TestTree.parentToChildrenNodeMap).
Proof.
  apply (bool_decide_unpack (NoDup (allChildIds TestTree.parentToChildrenNodeMap))).
  vm_compute. exact I.
Qed.

Lemma getDescendantIds_no_duplicates_witness :
  acyclic TestTree.parentToChildrenNodeMap ∧
  NoDup (allChildIds TestTree.parentToChildrenNodeMap) ∧
  ∃ fuel0 ds,
    (∀ fuel, (fuel0 ≤ fuel)%nat →
       getDescendantIds fuel "root" TestTree.parentToChildrenNodeMap = Some ds) ∧
    NoDup ds.
Proof.
  split; [exact TestTree_acyclic |]. split; [exact TestTree_forest |].
  exact (getDescendantIds_no_duplicates "root" _ TestTree_acyclic TestTree_forest).
Defined.

(** X4.  On an acyclic map [computeCollapsedPositions] returns, and an id
    has an override exactly when it lies below a collapsed id that has a
    rendered position; every override is the position of such a collapsed
    ancestor.  Collapsed ids themselves, unless below another one, and
    ids below collapsed ids without a rendered position only, get none. *)
Theorem computeCollapsedPositions_covers
    (ids : list string) (m : gmap string (list Child))
    (rmap : gmap string Position) :
  acyclic m →
  ∃ fuel0 ov,
    (∀ fuel, (fuel0 ≤ fuel)%nat →
       computeCollapsedPositions fuel ids m rmap = Some ov) ∧
    (∀ k, is_Some (ov !! k) ↔
          ∃ c a, c ∈ ids ∧ rmap !! c = Some a ∧ tc (edge m) c k) ∧
    (∀ k p, ov !! k = Some p →
            ∃ c a, c ∈ ids ∧ rmap !! c = Some a ∧ tc (edge m) c k ∧
                   p = mkPosition (x a) (y a)).
Proof.
  intros Hac.
  destruct (computeCollapsedPositions_loop_total m rmap ids Hac) as (fuel0 & Hloop).
  destruct (Hloop ∅) as (ov & Hov).
  exists fuel0, ov. split; [exact Hov |].
  apply (overrides_covered m rmap fuel0 ids ov). by apply Hov.
Qed.

Lemma computeCollapsedPositions_covers_witness :
  acyclic TestTree.parentToChildrenNodeMap ∧
  ∃ fuel0 ov,
    (∀ fuel, (fuel0 ≤ fuel)%nat →
       computeCollapsedPositions fuel ["a"; "nonexistent"]%string
         TestTree.parentToChildrenNodeMap TestTree.nodeIdToRenderedNodeMap
       = Some ov) ∧
    (∀ k, is_Some (ov !! k) ↔
          ∃ c a, c ∈ ["a"; "nonexistent"]%string ∧
                 TestTree.nodeIdToRenderedNodeMap !! c = Some a ∧
                 tc (edge TestTree.parentToChildrenNodeMap) c k) ∧
    (∀ k p, ov !! k = Some p →
            ∃ c a, c ∈ ["a"; "nonexistent"]%string ∧
                   TestTree.nodeIdToRenderedNodeMap !! c = Some a ∧
                   tc (edge TestTree.parentToChildrenNodeMap) c k ∧
                   p = mkPosition (x a) (y a)).
Proof.
  split; [exact TestTree_acyclic |].
  exact (computeCollapsedPositions_covers _ _ _ TestTree_acyclic).
Defined.

(** X5.  What the result of [computeCollapsedPositions] holds does not
    depend on the order of the collapsed ids, provided collapsed ids
    that share a descendant have the same rendered position, in
    particular when no collapsed node lies below another: the same ids
    have an override, and every id the same one, so that [get], [has]
    and [size] return the same.  The order in which the returned [Map]
    lists its entries follows the order of the collapsed ids and is no
    part of the statement. *)
Theorem computeCollapsedPositions_order
    (ids1 ids2 : list string) (m : gmap string (list Child))
    (rmap : gmap string Position) :
  acyclic m → ids1 ≡ₚ ids2 →
  (∀ c1 c2 a1 a2 k,
     c1 ∈ ids1 → c2 ∈ ids1 → rmap !! c1 = Some a1 → rmap !! c2 = Some a2 →
     tc (edge m) c1 k → tc (edge m) c2 k →
     mkPosition (x a1) (y a1) = mkPosition (x a2) (y a2)) →
  ∃ fuel0 ov1 ov2,
    (∀ fuel, (fuel0 ≤ fuel)%nat →
       computeCollapsedPositions fuel ids1 m rmap = Some ov1 ∧
       computeCollapsedPositions fuel ids2 m rmap = Some ov2) ∧
    (∀ k, ov1 !! k = ov2 !! k) ∧
    size ov1 = size ov2.
Proof.
  intros Hac Hperm Hagree.
  destruct (computeCollapsedPositions_loop_total m rmap ids1 Hac) as (fuel0 & Hloop).
  destruct (Hloop ∅) as (ov & Hov).
  exists fuel0, ov, ov. split; [| done].
  intros fuel Hle. split; [by apply Hov |].
  apply (overrides_permuted m rmap fuel ids1 ids2 ov Hperm Hagree). by apply Hov.
Qed.

Lemma TestTree_siblings_apart (k : string) :
  tc (edge TestTree.parentToChildrenNodeMap) "a" k →
  tc (edge TestTree.parentToChildrenNodeMap) "b" k → False.
Proof.
  intros Ha Hb.
  apply (getDescendantIds_reach TestTree.parentToChildrenNodeMap 10 "a"
           ["c"; "d"]%string ltac:(vm_compute; reflexivity)) in Ha.
  apply (getDescendantIds_reach TestTree.parentToChildrenNodeMap 10 "b"
           ["e"]%string ltac:(vm_compute; reflexivity)) in Hb.
  apply list_elem_of_singleton in Hb as ->.
  repeat (apply elem_of_cons in Ha as [Ha | Ha]; [discriminate Ha |]).
  by apply elem_of_nil in Ha.
Qed.

Lemma computeCollapsedPositions_order_witness :
  ∃ fuel0 ov1 ov2,
    (∀ fuel, (fuel0 ≤ fuel)%nat →
       computeCollapsedPositions fuel ["a"; "b"]%string
         TestTree.parentToChildrenNodeMap TestTree.nodeIdToRenderedNodeMap = Some ov1 ∧
       computeCollapsedPositions fuel ["b"; "a"]%string
         TestTree.parentToChildrenNodeMap TestTree.nodeIdToRenderedNodeMap = Some ov2) ∧
    (∀ k, ov1 !! k = ov2 !! k) ∧
    size ov1 = size ov2.
Proof.
  apply (computeCollapsedPositions_order ["a"; "b"]%string ["b"; "a"]%string
           _ _ TestTree_acyclic (perm_swap _ _ _)).
  intros c1 c2 a1 a2 k Hc1 Hc2 Ha1 Ha2 Hk1 Hk2.
  apply elem_of_cons in Hc1 as [-> | Hc1]; [| apply list_elem_of_singleton in Hc1 as ->];
    (apply elem_of_cons in Hc2 as [-> | Hc2];
     [| apply list_elem_of_singleton in Hc2 as ->]);
    first [ congruence
          | destruct (TestTree_siblings_apart k Hk1 Hk2)
          | destruct (TestTree_siblings_apart k Hk2 Hk1) ].
Defined.

End CollapseProperties.

(** * The handlers over event queues *)

Section GestureProperties.
Import HandlerSpec.
Context `{!DrawNode} `{!VoronoiHover} `{!MathSqrt} `{!Rounding}.

(** X6.  No handler writes the configuration: the canvas handle, the
    [pannable] and [zoomable] flags, the zoom limits, the rendered nodes,
    the proximity index, the hover tolerance and the click callback are
    after every event queue what they were before it, whether or not a
    handler ended in an exception. *)
Theorem handlers_never_write_configuration
    (width height : Q) (evs : list GestureEvent) (s : State) (t : list Effect) :
  sameConfiguration s (runEvents width height evs s t).1.
Proof. apply runEvents_configuration. Qed.

(** X18.  A touch end that leaves fewer than two fingers resets the
    pinch baseline, so a two-finger move directly after it never zooms
    or pans and requests no render, whatever the distance of the
    fingers: it only records the new baseline. *)
Theorem pinch_restarts_after_release
    (width height : Q) (ev : TouchEvent) (p1 p2 : Pointer)
    (changed : option (list Pointer)) (s : State) (t : list Effect) :
  (length (event_touches ev) < 2)%nat →
  let c1 := handleTouchEnd ev s t in
  let c2 :=
    handleTouchMove width height (mkTouchEvent [p1; p2] changed)
      (stateOf c1) (effectsOf c1) in
  lastTouchDistance (stateOf c1) = 0 ∧
  currentZoom (stateOf c2) = currentZoom s ∧
  panX (stateOf c2) = panX (stateOf c1) ∧ panY (stateOf c2) = panY (stateOf c1) ∧
  renders (effectsOf c2) = renders (effectsOf c1) ∧
  (zoomable s = true → ∀ rect, canvas s = Some rect →
   lastTouchDistance (stateOf c2)
   = touchDistance (fl (clientX p1 - left rect), fl (clientY p1 - top rect))
       (fl (clientX p2 - left rect), fl (clientY p2 - top rect))).
Proof.
  intros Hlen c1 c2.
  pose proof (touch_end_resets_baseline ev s t Hlen) as Hreset. fold c1 in Hreset.
  assert (Hlast : lastTouchDistance (stateOf c1) <= 0) by (rewrite Hreset; lra).
  destruct (pinch_without_baseline width height p1 p2 changed (stateOf c1)
              (effectsOf c1) Hlast) as (HX & HY & Hzoom & Heff & Hbase).
  fold c2 in HX, HY, Hzoom, Heff, Hbase.
  destruct (other_handlers_keep_zoom width height (onTouchEnd ev) s t eq_refl)
    as [_ Hzoom1].
  destruct (dispatch_configuration width height (onTouchEnd ev) s t)
    as (Hcanvas & _ & Hz & _).
  cbn [dispatch] in Hzoom1, Hcanvas, Hz. fold c1 in Hzoom1, Hcanvas, Hz.
  split; [exact Hreset |]. split; [congruence |]. do 2 (split; [done |]).
  split.
  - rewrite Heff, renders_app. cbn. lia.
  - intros Hzs rect Hrect. apply Hbase; congruence.
Qed.

End GestureProperties.

Section GestureExamples.
Import HandlerSpec.

#[local] Existing Instances specDrawNode specVoronoiHover floorMathSqrt binary64.

(** Without a canvas a mouse move ends normally. *)
Lemma guarded_never_throw_witness :
  isGuarded (onMouseMove (mkPointer 100 100)) = true ∧
  threw (dispatch 800 600 (onMouseMove (mkPointer 100 100)) detachedState [])
  = false.
Proof.
  split; [reflexivity |].
  exact (guarded_never_throw 800 600 (onMouseMove (mkPointer 100 100))
           detachedState [] eq_refl).
Defined.

(** With a canvas a press, a two-finger touch start without
    [changedTouches] and a touch end without any touch end normally. *)
Lemma throwCount_canvas_witness :
  canvas idleState = Some (mkCanvas 0 0) ∧
  throwCount 800 600
    [onMouseDown (mkPointer 100 100);
     onTouchStart (mkTouchEvent [mkPointer 0 0; mkPointer 30 40] None);
     onTouchEnd (mkTouchEvent [] None)] idleState [] = 0%nat.
Proof.
  split; [reflexivity |].
  exact (throwCount_canvas 800 600 _ (mkCanvas 0 0) idleState [] eq_refl).
Defined.

(** With panning and zooming switched off a drag, a wheel step and a
    pinch leave pan and zoom where they were. *)
Lemma runEvents_disabled_witness :
  let evs :=
    [onMouseDown (mkPointer 100 100); onMouseMove (mkPointer 150 160);
     onWheel (mkWheelEvent (mkPointer 100 100) (-1));
     onTouchStart (mkTouchEvent [mkPointer 0 0; mkPointer 30 40] None);
     onTouchMove (mkTouchEvent [mkPointer 0 0; mkPointer 60 80] None);
     onMouseUp (mkPointer 150 160)] in
  let s' := (runEvents 800 600 evs lockedState []).1 in
  currentZoom s' = 1 ∧ isDragging s' = false ∧ panX s' = 0 ∧ panY s' = 0.
Proof.
  intros evs s'.
  destruct (runEvents_disabled 800 600 evs lockedState []) as (Hz & Hd & Hp).
  destruct (Hp eq_refl eq_refl) as [HX HY].
  exact (conj (Hz eq_refl) (conj (Hd eq_refl eq_refl) (conj HX HY))).
Defined.

(** A move, a press and a release away from every node request no
    render, so the view is as before. *)
Lemma runEvents_renders_witness :
  let r :=
    runEvents 800 600
      [onMouseMove (mkPointer 500 500); onMouseLeave;
       onTouchEnd (mkTouchEvent [] None)] idleState [] in
  renders r.2 = renders [] ∧ sameView idleState r.1.
Proof.
  intros r.
  assert (Hnone : renders r.2 = renders []) by (vm_compute; reflexivity).
  split; [exact Hnone |].
  exact (proj2 (runEvents_renders 800 600 _ idleState []) Hnone).
Defined.


(** Moving onto [leafA] changes the hovered id and requests a render. *)
Lemma hover_render_on_change_witness :
  let c := handleHoverDetection 102 100 idleState [] in
  hoveredNodeId (stateOf c) ≠ hoveredNodeId idleState ∧
  stateOf c = set_hoveredNodeId (hoveredNodeId (stateOf c)) idleState ∧
  renders (effectsOf c) = S (renders []).
Proof.
  intros c.
  assert (Hchanged : hoveredNodeId (stateOf c) ≠ hoveredNodeId idleState)
    by (vm_compute; discriminate).
  split; [exact Hchanged |].
  destruct (hover_render_on_change 102 100 idleState []) as (_ & _ & Hrender).
  exact (Hrender Hchanged).
Defined.

(** Doubling the zoom and then enlarging it by a half is tripling it. *)
Lemma zoom_twice_witness :
  let c1 := handleZoom 2 400 300 800 600 idleState [] in
  let c2 := handleZoom (3 # 2) 400 300 800 600 (stateOf c1) (effectsOf c1) in
  let c12 := handleZoom (2 * (3 # 2)) 400 300 800 600 idleState [] in
  viewportEq (stateOf c2) (stateOf c12) ∧
  renders (effectsOf c2) = S (S (renders [])).
Proof.
  apply (zoom_twice idleState [] 2 (3 # 2) 400 300 800 600);
    first [ reflexivity | split; vm_compute; congruence | vm_compute; congruence ].
Defined.


(** Scrolling up does not zoom out, scrolling down does not zoom in. *)
Lemma wheel_direction_witness :
  currentZoom idleState
  <= currentZoom
       (stateOf (handleWheel 800 600 (mkWheelEvent (mkPointer 100 100) (-1))
                   idleState [])) ∧
  currentZoom
    (stateOf (handleWheel 800 600 (mkWheelEvent (mkPointer 100 100) 1)
                idleState []))
  <= currentZoom idleState.
Proof.
  assert (Hidle : zoomWithinLimits idleState) by (split; vm_compute; congruence).
  assert (Hpos : 0 <= currentZoom idleState) by (vm_compute; congruence).
  split.
  - apply (wheel_direction 800 600 (mkWheelEvent (mkPointer 100 100) (-1))
             idleState [] Hidle Hpos).
    vm_compute. congruence.
  - apply (wheel_direction 800 600 (mkWheelEvent (mkPointer 100 100) 1)
             idleState [] Hidle Hpos).
    vm_compute. reflexivity.
Defined.

(** After the last finger is lifted, two fingers 50 apart set the
    baseline to 50 and leave the zoom at 1. *)
Lemma pinch_restarts_after_release_witness :
  let c1 := handleTouchEnd (mkTouchEvent [] (Some [mkPointer 100 100])) idleState [] in
  let c2 :=
    handleTouchMove 800 600 (mkTouchEvent [mkPointer 0 0; mkPointer 30 40] None)
      (stateOf c1) (effectsOf c1) in
  currentZoom (stateOf c2) = 1 ∧ lastTouchDistance (stateOf c2) == 50.
Proof.
  intros c1 c2.
  destruct (pinch_restarts_after_release 800 600
              (mkTouchEvent [] (Some [mkPointer 100 100]))
              (mkPointer 0 0) (mkPointer 30 40) None idleState []
              ltac:(cbn; lia)) as (_ & Hzoom & _ & _ & _ & Hbase).
  split; [exact Hzoom |].
  fold c1 c2 in Hbase. rewrite (Hbase eq_refl (mkCanvas 0 0) eq_refl).
  vm_compute. reflexivity.
Defined.



End GestureExamples.

(** * Colours, styles and the canvas set-up *)

Section CanvasProperties.
Import Stdlib.Strings.Ascii Stdlib.Strings.String CanvasUtils CanvasSpec.
Local Open Scope string_scope.
#[local] Arguments isWhiteSpace : simpl never.
#[local] Arguments append !_ _ / : simpl nomatch.

Variable Number_toString : Q → string.

(** X22.  The cache of [colorWithAlpha] cannot be observed: provided
    numbers print without a vertical bar, every call of every sequence of
    calls returns what it returns on an empty cache, and the cache never
    holds more than 257 entries. *)
Theorem colorWithAlpha_memoization (calls : list (option string * option Q)) :
  (∀ q, noBar (Number_toString q) = true) →
  let r := colorWithAlpha_calls Number_toString calls ∅ in
  r.1 = map (λ call, colorValue Number_toString call.1 call.2) calls ∧
  (size r.2 ≤ 257)%nat.
Proof.
  intros HnoBar.
  destruct (colorWithAlpha_calls_sound Number_toString HnoBar calls ∅)
    as (Hresults & _ & Hsize).
  - intros c alpha v Hlookup. by rewrite lookup_empty in Hlookup.
  - rewrite map_size_empty. lia.
  - by split.
Qed.

(** X23.  A colour of six hexadecimal digits after [#], in either case,
    becomes [rgba(R, G, B, alpha)] with each channel sixteen times its
    first digit plus its second, a number from 0 to 255; the three-digit
    form gives what the form with every digit doubled gives. *)
Theorem colorWithAlpha_hex (h1 h2 h3 h4 h5 h6 : ascii) (v1 v2 v3 v4 v5 v6 : Z)
    (alpha : Q) :
  hexDigitValue h1 = Some v1 → hexDigitValue h2 = Some v2 →
  hexDigitValue h3 = Some v3 → hexDigitValue h4 = Some v4 →
  hexDigitValue h5 = Some v5 → hexDigitValue h6 = Some v6 →
  Qeq_bool alpha 1 = false →
  colorValue Number_toString
    (Some (String "#" (String h1 (String h2 (String h3 (String h4 (String h5
       (String h6 ""))))))))
    (Some alpha)
  = Some ("rgba(" ++ integerToString (Some (16 * v1 + v2)%Z) ++ ", "
          ++ integerToString (Some (16 * v3 + v4)%Z) ++ ", "
          ++ integerToString (Some (16 * v5 + v6)%Z) ++ ", "
          ++ Number_toString alpha ++ ")") ∧
  (0 ≤ 16 * v1 + v2 ≤ 255)%Z ∧ (0 ≤ 16 * v3 + v4 ≤ 255)%Z ∧
  (0 ≤ 16 * v5 + v6 ≤ 255)%Z ∧
  colorValue Number_toString
    (Some (String "#" (String h1 (String h3 (String h5 ""))))) (Some alpha)
  = colorValue Number_toString
      (Some (String "#" (String h1 (String h1 (String h3 (String h3 (String h5
         (String h5 ""))))))))
      (Some alpha).
Proof.
  intros H1 H2 H3 H4 H5 H6 Halpha.
  pose proof (hexDigit_plain _ _ H1) as P1. pose proof (hexDigit_plain _ _ H2) as P2.
  pose proof (hexDigit_plain _ _ H3) as P3. pose proof (hexDigit_plain _ _ H4) as P4.
  pose proof (hexDigit_plain _ _ H5) as P5. pose proof (hexDigit_plain _ _ H6) as P6.
  pose proof (hexDigitValue_range _ _ H1). pose proof (hexDigitValue_range _ _ H2).
  pose proof (hexDigitValue_range _ _ H3). pose proof (hexDigitValue_range _ _ H4).
  pose proof (hexDigitValue_range _ _ H5). pose proof (hexDigitValue_range _ _ H6).
  split; [| split; [lia | split; [lia | split; [lia |]]]].
  - rewrite colorValue_trimmed; [| | done | done].
    + by rewrite (convertColor_hex6 h1 h2 h3 h4 h5 h6 v1 v2 v3 v4 v5 v6).
    + apply hexColor_trimmed. cbn. by rewrite P1, P2, P3, P4, P5, P6.
  - rewrite !colorValue_trimmed; try done.
    + apply hexColor_trimmed. cbn. by rewrite P1, P3, P5.
    + apply hexColor_trimmed. cbn. by rewrite P1, P3, P5.
Qed.

(** X24.  On an [rgba(...)] colour whose three channels are written
    without commas and surrounding white space, [colorWithAlpha] replaces
    whatever follows the third channel by the new alpha value. *)
Theorem colorWithAlpha_replaces_alpha (p0 p1 p2 old : string) (alpha : Q) :
  noComma p0 = true → noComma p1 = true → noComma p2 = true →
  trim p0 = p0 → trim p1 = p1 → trim p2 = p2 →
  Qeq_bool alpha 1 = false →
  colorValue Number_toString
    (Some ("rgba(" ++ p0 ++ ", " ++ p1 ++ ", " ++ p2 ++ ", " ++ old ++ ")"))
    (Some alpha)
  = Some ("rgba(" ++ p0 ++ ", " ++ p1 ++ ", " ++ p2 ++ ", "
          ++ Number_toString alpha ++ ")").
Proof.
  intros N0 N1 N2 T0 T1 T2 Halpha.
  rewrite colorValue_trimmed; [| | by destruct p0 | done].
  - by rewrite convertColor_rebuild.
  - pose proof (rgba_trimmed (p0 ++ ", " ++ p1 ++ ", " ++ p2 ++ ", " ++ old)) as Ht.
    by rewrite !append_assoc' in Ht.
Qed.

End CanvasProperties.

Section CanvasSetupProperties.
Import CanvasUtils CanvasSpec.

(** X27.  The cache of [setupCanvas] does not change what is returned:
    starting from the module's initial cache, every call of every
    sequence of calls returns the context of its own canvas, or [null]
    when the canvas is missing or has no context. *)
Theorem setupCanvas_returns_context (getContext : nat → option nat)
    (calls : list (option Q * option nat * Q * Q)) :
  (setupCanvas_calls getContext calls initialCache).1
  = map (λ call, call.1.1.2 ≫= getContext) calls.
Proof.
  apply (setupCanvas_calls_transparent getContext calls initialCache).
  apply initialCache_coherent.
Qed.

End CanvasSetupProperties.

Section CanvasExamples.
Import Stdlib.Strings.Ascii Stdlib.Strings.String CanvasUtils CanvasSpec.
Local Open Scope string_scope.

Lemma exampleAlphaToString_noBar (q : Q) : noBar (exampleAlphaToString q) = true.
Proof.
  unfold exampleAlphaToString.
  destruct (Qeq_bool q (1 # 2)); [reflexivity |].
  destruct (Qeq_bool q (1 # 4)); reflexivity.
Qed.

(** Giving a quarter and then a half is giving a half. *)
Lemma colorValue_again_witness :
  Qeq_bool (1 # 2) 1 = false ∧
  colorValue exampleAlphaToString (Some " #abc ") (Some (1 # 4))
  = Some "rgba(170, 187, 204, 0.25)" ∧
  colorValue exampleAlphaToString (Some "rgba(170, 187, 204, 0.25)") (Some (1 # 2))
  = colorValue exampleAlphaToString (Some " #abc ") (Some (1 # 2)).
Proof.
  split; [reflexivity |]. split; [vm_compute; reflexivity |].
  apply (colorValue_again exampleAlphaToString " #abc " (Some (1 # 4)) (1 # 2)
           eq_refl).
  vm_compute. reflexivity.
Defined.

(** The second of two equal calls is answered from the cache, with the
    same string. *)
Lemma colorWithAlpha_memoization_witness :
  let calls :=
    [(Some "#abc", Some (1 # 2)); (Some "#abc", Some (1 # 2));
     (Some "red", Some (1 # 4)); (None, Some (1 # 2))] in
  let r := colorWithAlpha_calls exampleAlphaToString calls ∅ in
  r.1 = map (λ call, colorValue exampleAlphaToString call.1 call.2) calls ∧
  (size r.2 ≤ 257)%nat.
Proof.
  exact (colorWithAlpha_memoization exampleAlphaToString _
           exampleAlphaToString_noBar).
Defined.

Lemma colorWithAlpha_hex_witness :
  colorValue exampleAlphaToString (Some "#a0B1c2") (Some (1 # 2))
  = Some "rgba(160, 177, 194, 0.5)" ∧
  colorValue exampleAlphaToString (Some "#aBc") (Some (1 # 2))
  = colorValue exampleAlphaToString (Some "#aaBBcc") (Some (1 # 2)).
Proof.
  destruct (colorWithAlpha_hex exampleAlphaToString "a" "0" "B" "1" "c" "2"
              10 0 11 1 12 2 (1 # 2)
              eq_refl eq_refl eq_refl eq_refl eq_refl eq_refl eq_refl)
    as (Hsix & _ & _ & _ & Hthree).
  split; [exact Hsix | exact Hthree].
Defined.

Lemma colorWithAlpha_replaces_alpha_witness :
  colorValue exampleAlphaToString (Some "rgba(255, 0, 10, 0.9)") (Some (1 # 4))
  = Some "rgba(255, 0, 10, 0.25)".
Proof.
  exact (colorWithAlpha_replaces_alpha exampleAlphaToString "255" "0" "10" "0.9"
           (1 # 4) eq_refl eq_refl eq_refl eq_refl eq_refl eq_refl eq_refl).
Defined.

(** A second set-up of the same canvas with the same size, written as
    another fraction, returns the cached context and touches nothing. *)
Lemma setupCanvas_again_witness :
  let cache' := mkCanvasCache (Some 1%nat) 800 600 2 (Some 101%nat) in
  (setupCanvas exampleGetContext (Some 2) (Some 1%nat) 800 600 initialCache).1
  = (Some 101%nat, cache') ∧
  1600 # 2 == 800 ∧
  setupCanvas exampleGetContext (Some 2) (Some 1%nat) (1600 # 2) 600 cache'
  = (Some 101%nat, cache', []).
Proof.
  intros cache'. split; [reflexivity |]. split; [reflexivity |].
  eapply (setupCanvas_again exampleGetContext (Some 2) 1%nat 800 600 (1600 # 2) 600
            initialCache);
    reflexivity.
Defined.

End CanvasExamples.

(** * Drawing the links *)

Section DrawLinkLemmas.
Import Stdlib.Strings.String CanvasUtils CanvasSpec DrawLink DrawLinkSpec.

Variable Number_toString : Q → string.
Context `{!ResolveDepthStyle}.

Lemma colorWithAlpha_Some (color : string) (alpha : option Q)
    (cache : gmap string string) :
  is_Some (colorWithAlpha Number_toString (Some color) alpha cache).1.
Proof.
  unfold colorWithAlpha. cbv zeta.
  destruct (String.eqb (trim color) ""); [by eexists |].
  destruct alpha as [a |]; [| by eexists].
  destruct (Qeq_bool a 1); [by eexists |].
  destruct (cache !! _); by eexists.
Qed.

Lemma Qeq_bool_sym_false (a b : Q) : Qeq_bool a b = false → Qeq_bool b a = false.
Proof.
  intros Hab. destruct (Qeq_bool b a) eqn:Hba; [| done].
  apply Qeq_bool_iff, Qeq_sym, Qeq_bool_iff in Hba. congruence.
Qed.

Lemma String_eqb_sym_false (a b : string) :
  String.eqb a b = false → String.eqb b a = false.
Proof. intros Hab. by rewrite String.eqb_sym. Qed.

(** One link: the context is as it was; if the link is visible the
    four path calls are appended, the stroke being made in the colour
    [colorWithAlpha] gives and in a width equal to the link's. *)
Lemma drawConnectingLinks_child_shape (nodeData : NodeData)
    (mergedStyle : option Style) (ctx : Context2D) (cache : gmap string string)
    (ops : list PathOp) (child : ChildNode) :
  let depthStyle :=
    resolveDepthStyle (nd_depth nodeData) (nd_id nodeData) mergedStyle in
  let width := DrawLink.lineWidth depthStyle mergedStyle in
  let color := lineColor depthStyle mergedStyle in
  let opacity := lineOpacity depthStyle mergedStyle in
  let r := colorWithAlpha Number_toString (Some color) (Some opacity) cache in
  if Qltb 0 width && negb (String.eqb color "none") then
    ∃ style w,
      r.1 = Some style ∧ w == width ∧
      drawConnectingLinks_child Number_toString nodeData mergedStyle
        (ctx, cache, ops) child
      = (ctx, r.2,
         ops ++ [BeginPath; MoveTo (nd_x nodeData) (nd_y nodeData);
                 LineTo (child_x child) (child_y child); Stroke style w])
  else
    drawConnectingLinks_child Number_toString nodeData mergedStyle
      (ctx, cache, ops) child
    = (ctx, cache, ops).
Proof.
  intros depthStyle width color opacity r.
  unfold drawConnectingLinks_child. fold depthStyle. fold width color opacity.
  destruct (Qltb 0 width && negb (String.eqb color "none")); [| done].
  fold r. destruct (colorWithAlpha_Some color (Some opacity) cache) as [style Hstyle].
  fold r in Hstyle. destruct r as [result cache']. cbn [fst snd] in *. subst result.
  destruct ctx as [c1 c2 c3 c4 c5 c6 c7].
  unfold setCanvasStyles.
  cbn [strokeStyle fillStyle CanvasUtils.lineWidth globalAlpha textAlign
       textBaseline font ctx_strokeStyle ctx_fillStyle ctx_lineWidth
       ctx_globalAlpha ctx_textAlign ctx_textBaseline ctx_font].
  destruct (String.eqb c1 style) eqn:E1;
    cbn [negb app ctx_strokeStyle ctx_fillStyle ctx_lineWidth ctx_globalAlpha
         ctx_textAlign ctx_textBaseline ctx_font];
    destruct (Qeq_bool c3 width) eqn:E3;
    cbn [negb app ctx_strokeStyle ctx_fillStyle ctx_lineWidth ctx_globalAlpha
         ctx_textAlign ctx_textBaseline ctx_font];
    rewrite ?Qeq_bool_refl, ?String.eqb_refl, ?(Qeq_bool_sym_false _ _ E3),
      ?(String_eqb_sym_false _ _ E1);
    cbn [negb ctx_strokeStyle ctx_fillStyle ctx_lineWidth ctx_globalAlpha
         ctx_textAlign ctx_textBaseline ctx_font];
    rewrite ?Qeq_bool_refl, ?String.eqb_refl, ?(String_eqb_sym_false _ _ E1);
    cbn [negb];
    try apply String.eqb_eq in E1; try apply Qeq_bool_iff in E3; subst.
  - exists style, c3. by repeat split.
  - exists style, width. by repeat split.
  - exists style, c3. by repeat split.
  - exists style, width. by repeat split.
Qed.

Lemma drawConnectingLinks_child_ctx (nodeData : NodeData)
    (mergedStyle : option Style)
    (st : Context2D * gmap string string * list PathOp) (child : ChildNode) :
  (drawConnectingLinks_child Number_toString nodeData mergedStyle st child).1.1
  = st.1.1.
Proof.
  destruct st as [[ctx cache] ops].
  pose proof (drawConnectingLinks_child_shape nodeData mergedStyle ctx cache ops
                child) as Hshape.
  cbv zeta in Hshape.
  destruct (Qltb 0 _ && negb _).
  - destruct Hshape as (style & w & _ & _ & ->). done.
  - by rewrite Hshape.
Qed.

Lemma children_fold_ctx (nodeData : NodeData) (mergedStyle : option Style)
    (children : list ChildNode) :
  ∀ st,
    (foldl (drawConnectingLinks_child Number_toString nodeData mergedStyle) st
       children).1.1 = st.1.1.
Proof.
  induction children as [| child children IH]; intros st; cbn [foldl]; [done |].
  by rewrite IH, drawConnectingLinks_child_ctx.
Qed.

Lemma nodes_fold_ctx (mergedStyle : option Style)
    (parentToChildrenNodeMap : option (gmap string (list ChildNode)))
    (renderedNodes : list NodeData) :
  ∀ st,
    (foldl
       (λ st nodeData,
          foldl (drawConnectingLinks_child Number_toString nodeData mergedStyle) st
            (childrenOf parentToChildrenNodeMap nodeData))
       st renderedNodes).1.1 = st.1.1.
Proof.
  induction renderedNodes as [| nodeData renderedNodes IH]; intros st;
    cbn [foldl]; [done |].
  by rewrite IH, children_fold_ctx.
Qed.

(** X28.  [drawConnectingLinks] hands the context back as it found it:
    on a context whose properties read back what was assigned, stroke
    style, line width and every other style property are after the call
    what they were before it, whatever was drawn. *)
Theorem drawConnectingLinks_restores_context (ctx : Context2D)
    (renderedNodes : list NodeData)
    (parentToChildrenNodeMap : option (gmap string (list ChildNode)))
    (mergedStyle : option Style) (overlap : Q) (cache : gmap string string) :
  (drawConnectingLinks Number_toString (Some ctx) renderedNodes
     parentToChildrenNodeMap mergedStyle overlap cache).1.1 = Some ctx.
Proof.
  unfold drawConnectingLinks.
  destruct (Qleb 0 overlap || Nat.eqb (List.length renderedNodes) 0); [done |].
  pose proof (nodes_fold_ctx mergedStyle parentToChildrenNodeMap renderedNodes
                (ctx, cache, [])) as Hctx.
  destruct (foldl _ _ renderedNodes) as [[ctx' cache'] ops]. cbn in *.
  by rewrite Hctx.
Qed.

Hypothesis Number_toString_noBar : ∀ q, noBar (Number_toString q) = true.

Lemma sameOp_refl (op : PathOp) : sameOp op op.
Proof. destruct op; cbn; by repeat split. Qed.

Lemma drawConnectingLinks_child_path (nodeData : NodeData)
    (mergedStyle : option Style) (ctx : Context2D) (cache : gmap string string)
    (ops : list PathOp) (child : ChildNode) :
  cacheCoherent Number_toString cache → (size cache ≤ 257)%nat →
  ∃ cache' ops',
    drawConnectingLinks_child Number_toString nodeData mergedStyle
      (ctx, cache, ops) child = (ctx, cache', ops ++ ops') ∧
    Forall2 sameOp ops' (linkPath Number_toString nodeData mergedStyle child) ∧
    cacheCoherent Number_toString cache' ∧ (size cache' ≤ 257)%nat.
Proof.
  intros Hcoh Hsize.
  pose proof (drawConnectingLinks_child_shape nodeData mergedStyle ctx cache ops
                child) as Hshape.
  cbv zeta in Hshape. unfold linkPath. cbv zeta.
  destruct (Qltb 0 _ && negb _).
  - destruct Hshape as (style & w & Hstyle & Hw & ->).
    destruct (colorWithAlpha_step Number_toString Number_toString_noBar
                (Some (lineColor
                   (resolveDepthStyle (nd_depth nodeData) (nd_id nodeData) mergedStyle)
                   mergedStyle))
                (Some (lineOpacity
                   (resolveDepthStyle (nd_depth nodeData) (nd_id nodeData) mergedStyle)
                   mergedStyle))
                cache Hcoh Hsize) as (Hvalue & Hcoh' & Hsize').
    eexists _, _. split; [reflexivity |]. split; [| by split].
    rewrite <- Hvalue, Hstyle. cbn [default].
    repeat (apply Forall2_cons; split; [cbn; by repeat split |]).
    apply Forall2_nil_2.
  - exists cache, []. rewrite app_nil_r. split; [done |].
    split; [apply Forall2_nil_2 | done].
Qed.

Lemma children_fold_path (nodeData : NodeData) (mergedStyle : option Style)
    (ctx : Context2D) (children : list ChildNode) :
  ∀ cache ops,
    cacheCoherent Number_toString cache → (size cache ≤ 257)%nat →
    ∃ cache' ops',
      foldl (drawConnectingLinks_child Number_toString nodeData mergedStyle)
        (ctx, cache, ops) children = (ctx, cache', ops ++ ops') ∧
      Forall2 sameOp ops'
        (flat_map (linkPath Number_toString nodeData mergedStyle) children) ∧
      cacheCoherent Number_toString cache' ∧ (size cache' ≤ 257)%nat.
Proof.
  induction children as [| child children IH]; intros cache ops Hcoh Hsize;
    cbn [foldl flat_map].
  - exists cache, []. rewrite app_nil_r. split; [done |].
    split; [apply Forall2_nil_2 | done].
  - destruct (drawConnectingLinks_child_path nodeData mergedStyle ctx cache ops
                child Hcoh Hsize) as (cache1 & ops1 & -> & Hops1 & Hcoh1 & Hsize1).
    destruct (IH cache1 (ops ++ ops1) Hcoh1 Hsize1)
      as (cache2 & ops2 & -> & Hops2 & Hcoh2 & Hsize2).
    exists cache2, (ops1 ++ ops2). rewrite app_assoc. split; [done |].
    split; [by apply Forall2_app | done].
Qed.

Lemma nodes_fold_path (mergedStyle : option Style)
    (parentToChildrenNodeMap : option (gmap string (list ChildNode)))
    (ctx : Context2D) (renderedNodes : list NodeData) :
  ∀ cache ops,
    cacheCoherent Number_toString cache → (size cache ≤ 257)%nat →
    ∃ cache' ops',
      foldl
        (λ st nodeData,
           foldl (drawConnectingLinks_child Number_toString nodeData mergedStyle) st
             (childrenOf parentToChildrenNodeMap nodeData))
        (ctx, cache, ops) renderedNodes = (ctx, cache', ops ++ ops') ∧
      Forall2 sameOp ops'
        (linkPaths Number_toString renderedNodes parentToChildrenNodeMap
           mergedStyle) ∧
      cacheCoherent Number_toString cache' ∧ (size cache' ≤ 257)%nat.
Proof.
  induction renderedNodes as [| nodeData renderedNodes IH];
    intros cache ops Hcoh Hsize; unfold linkPaths; cbn [foldl flat_map].
  - exists cache, []. rewrite app_nil_r. split; [done |].
    split; [apply Forall2_nil_2 | done].
  - destruct (children_fold_path nodeData mergedStyle ctx
                (childrenOf parentToChildrenNodeMap nodeData) cache ops Hcoh Hsize)
      as (cache1 & ops1 & -> & Hops1 & Hcoh1 & Hsize1).
    destruct (IH cache1 (ops ++ ops1) Hcoh1 Hsize1)
      as (cache2 & ops2 & -> & Hops2 & Hcoh2 & Hsize2).
    exists cache2, (ops1 ++ ops2). rewrite app_assoc. split; [done |].
    split; [by apply Forall2_app | done].
Qed.

(** X29.  What [drawConnectingLinks] draws does not depend on the styles
    the context comes with nor on what the colour cache holds: with a
    negative overlap the path calls are, node by node and child by
    child in order, [beginPath], [moveTo] the node, [lineTo] the child
    and [stroke] for every link of positive width whose colour is not
    ['none'], stroked in that colour with the link's opacity and in the
    link's width; with an overlap of zero or more nothing is drawn. *)
Theorem drawConnectingLinks_paths (ctx : Context2D)
    (renderedNodes : list NodeData)
    (parentToChildrenNodeMap : option (gmap string (list ChildNode)))
    (mergedStyle : option Style) (overlap : Q) (cache : gmap string string) :
  cacheCoherent Number_toString cache → (size cache ≤ 257)%nat →
  let r :=
    drawConnectingLinks Number_toString (Some ctx) renderedNodes
      parentToChildrenNodeMap mergedStyle overlap cache in
  Forall2 sameOp r.2
    (if Qleb 0 overlap then []
     else linkPaths Number_toString renderedNodes parentToChildrenNodeMap
            mergedStyle) ∧
  cacheCoherent Number_toString r.1.2 ∧ (size r.1.2 ≤ 257)%nat.
Proof.
  intros Hcoh Hsize. unfold drawConnectingLinks.
  destruct (Qleb 0 overlap); cbn [orb].
  - cbn. split; [apply Forall2_nil_2 | done].
  - destruct renderedNodes as [| nodeData renderedNodes'] eqn:Hnodes.
    + cbn. split; [apply Forall2_nil_2 | done].
    + cbn [List.length Nat.eqb]. rewrite <- Hnodes.
      destruct (nodes_fold_path mergedStyle parentToChildrenNodeMap ctx
                  renderedNodes cache [] Hcoh Hsize)
        as (cache' & ops' & -> & Hops & Hcoh' & Hsize').
      cbn. by split.
Qed.

End DrawLinkLemmas.

Section DrawLinkExamples.
Import Stdlib.Strings.String CanvasUtils CanvasSpec DrawLink DrawLinkSpec.

#[local] Existing Instance noDepthStyles.

(** The two links of the example, drawn on a fresh cache. *)
Lemma drawConnectingLinks_paths_witness :
  let r :=
    drawConnectingLinks exampleAlphaToString (Some exampleContext) exampleNodes
      (Some exampleChildren) (Some exampleStyle) (-1) ∅ in
  r.2 = [BeginPath; MoveTo 0 0; LineTo 10 0; Stroke "rgba(170, 187, 204, 0.5)" 2;
         BeginPath; MoveTo 0 0; LineTo 0 10; Stroke "rgba(170, 187, 204, 0.5)" 2] ∧
  Forall2 sameOp r.2
    (if Qleb 0 (-1) then []
     else linkPaths exampleAlphaToString exampleNodes (Some exampleChildren)
            (Some exampleStyle)) ∧
  cacheCoherent exampleAlphaToString r.1.2 ∧ (size r.1.2 ≤ 257)%nat.
Proof.
  intros r. split; [vm_compute; reflexivity |].
  apply (drawConnectingLinks_paths exampleAlphaToString exampleAlphaToString_noBar).
  - intros c alpha v Hlookup. by rewrite lookup_empty in Hlookup.
  - rewrite map_size_empty. lia.
Defined.

End DrawLinkExamples.
